(** * thls: a tiny high-level-synthesis compiler (artiq/gateware/wrpll/thls.py)

    Shallow embedding of the compiler pipeline of [thls.py]: the instruction
    model, the IR builder ([ASTCompiler]), the target model ([Processor]),
    the list scheduler ([Scheduler]) and the encoder ([CompiledProgram]),
    followed by the properties established about them. *)

From Stdlib Require Import ZArith Lia.
From stdpp Require Import gmap strings list fin_maps.

Local Open Scope Z_scope.

(** ** Exceptions and the error monad

    Python exceptions raised by the compiler.  A raised exception aborts the
    whole call: whatever had been mutated so far is not returned. *)

Inductive exn : Set :=
  | NotImplementedError
  | KeyError
  | AssertionError
  | ValueError
  | TypeError.

Inductive result (A : Type) : Type :=
  | Ok (a : A)
  | Raise (e : exn).
Arguments Ok {A} a.
Arguments Raise {A} e.

Global Instance result_ret : MRet result := fun A a => Ok a.

Global Instance result_bind : MBind result := fun A B k c =>
  match c with
  | Ok a => k a
  | Raise e => Raise e
  end.

Definition assert (b : bool) : result unit :=
  if b then Ok tt else Raise AssertionError.

(** [max(xs)] and [min(xs)] of Python: [ValueError] on an empty argument. *)
Definition py_max (xs : list Z) : result Z :=
  match xs with
  | [] => Raise ValueError
  | x :: xs' => Ok (foldl Z.max x xs')
  end.

Definition py_min (xs : list Z) : result Z :=
  match xs with
  | [] => Raise ValueError
  | x :: xs' => Ok (foldl Z.min x xs')
  end.

(** ** Instruction model *)

Inductive isn_class : Set :=
  | NopIsn | AddIsn | SubIsn | MulIsn | CopyIsn | InputIsn | OutputIsn.

Definition opcode (c : isn_class) : Z :=
  match c with
  | NopIsn => 0
  | AddIsn => 1
  | SubIsn => 2
  | MulIsn => 3
  | CopyIsn => 4
  | InputIsn => 5
  | OutputIsn => 6
  end.

(** [Isn]: the class of the instruction object and its three attributes.
    Operand references are signed: non-negative ones address the data
    memory, negative ones are SSA registers. *)
Record Isn : Set := mkIsn {
  cls : isn_class;
  immediate : option Z;
  inputs : list Z;
  outputs : list Z
}.

Global Instance isn_class_eq_dec : EqDecision isn_class.
Proof. solve_decision. Defined.

Global Instance Isn_eq_dec : EqDecision Isn.
Proof. solve_decision. Defined.

(** ** Input trees

    The part of Python's [ast] vocabulary the compiler can meet.  The
    children of nodes that [emit] rejects without looking inside them are
    left out. *)

Inductive operator : Set :=
  | Add | Sub | Mult | MatMult | Div | Mod | Pow
  | LShift | RShift | BitOr | BitXor | BitAnd | FloorDiv.

Inductive expr : Set :=
  | BinOp (left : expr) (op : operator) (right : expr)
  | Num (n : Z)
  | Name (id : string)
  | Call
  | IfExp
  | Tuple.

Inductive stmt : Set :=
  | Assign (targets : list expr) (value : expr)
  | Return (value : option expr)
  | Global (names : list string)
  | For
  | While
  | If
  | Expr
  | Pass.

(** ** IR builder *)

Module ASTCompiler.

Record t : Type := mk {
  program : list Isn;
  data : list Z;
  next_ssa_reg : Z;
  constants : gmap Z Z;
  names : gmap string Z;
  globals : gmap string Z
}.

Definition init : t :=
  {| program := []; data := []; next_ssa_reg := -1;
     constants := ∅; names := ∅; globals := ∅ |}.

Definition append (i : Isn) (s : t) : t :=
  {| program := program s ++ [i]; data := data s;
     next_ssa_reg := next_ssa_reg s; constants := constants s;
     names := names s; globals := globals s |}.

Definition set_name (name : string) (r : Z) (s : t) : t :=
  {| program := program s; data := data s;
     next_ssa_reg := next_ssa_reg s; constants := constants s;
     names := <[name := r]> (names s); globals := globals s |}.

Definition get_ssa_reg (s : t) : Z * t :=
  let r := next_ssa_reg s in
  (r, {| program := program s; data := data s;
         next_ssa_reg := next_ssa_reg s - 1; constants := constants s;
         names := names s; globals := globals s |}).

Definition add_global (name : string) (s : t) : Z * t :=
  let r := Z.of_nat (length (data s)) in
  (r, {| program := program s; data := data s ++ [0];
         next_ssa_reg := next_ssa_reg s; constants := constants s;
         names := <[name := r]> (names s);
         globals := <[name := r]> (globals s) |}).

Definition input (name : string) (s : t) : t :=
  let '(target, s) := get_ssa_reg s in
  let s := append (mkIsn InputIsn None [] [target]) s in
  set_name name target s.

(** [emit] on expression nodes: returns the operand reference of the
    value. *)
Fixpoint emit_expr (node : expr) (s : t) : result (Z * t) :=
  match node with
  | BinOp node_left op node_right =>
      '(lhs, s) ← emit_expr node_left s;
      '(rhs, s) ← emit_expr node_right s;
      c ← match op with
           | Add => Ok AddIsn
           | Sub => Ok SubIsn
           | Mult => Ok MulIsn
           | _ => Raise NotImplementedError
           end;
      let '(output, s) := get_ssa_reg s in
      Ok (output, append (mkIsn c None [lhs; rhs] [output]) s)
  | Num n =>
      match constants s !! n with
      | Some r => Ok (r, s)
      | None =>
          let r := Z.of_nat (length (data s)) in
          Ok (r, {| program := program s; data := data s ++ [n];
                    next_ssa_reg := next_ssa_reg s;
                    constants := <[n := r]> (constants s);
                    names := names s; globals := globals s |})
      end
  | Name id =>
      match names s !! id with
      | Some r => Ok (r, s)
      | None => Raise KeyError
      end
  | Call | IfExp | Tuple => Raise NotImplementedError
  end.

(** The loop over [node.targets] of an assignment. *)
Fixpoint bind_targets (targets : list expr) (output : Z) (s : t) : result t :=
  match targets with
  | [] => Ok s
  | target :: targets' =>
      match target with
      | Name id => bind_targets targets' output (set_name id output s)
      | _ => Raise AssertionError
      end
  end.

(** [emit] on statement nodes; a [return] without a value hands [None]
    to [emit], which falls through to the last branch. *)
Definition emit (node : stmt) (s : t) : result t :=
  match node with
  | Assign targets value =>
      '(output, s) ← emit_expr value s;
      bind_targets targets output s
  | Return (Some value) =>
      '(value, s) ← emit_expr value s;
      Ok (append (mkIsn OutputIsn None [value] []) s)
  | Return None => Raise NotImplementedError
  | Global _ => Ok s
  | For | While | If | Expr | Pass => Raise NotImplementedError
  end.

End ASTCompiler.

(** The two loops of [compile] that drive the builder. *)

Fixpoint declare_globals (body : list stmt) (s : ASTCompiler.t) : ASTCompiler.t :=
  match body with
  | [] => s
  | Global names :: body' =>
      declare_globals body'
        (foldl (fun s name => snd (ASTCompiler.add_global name s)) s names)
  | _ :: body' => declare_globals body' s
  end.

Definition is_return (node : stmt) : bool :=
  match node with Return _ => true | _ => false end.

Fixpoint emit_body (body : list stmt) (s : ASTCompiler.t) : result ASTCompiler.t :=
  match body with
  | [] => Ok s
  | node :: body' =>
      s ← ASTCompiler.emit node s;
      if is_return node then Ok s else emit_body body' s
  end.

Definition build_ir (arg : string) (body : list stmt) : result ASTCompiler.t :=
  let s := declare_globals body ASTCompiler.init in
  let s := ASTCompiler.input arg s in
  emit_body body s.

(** ** Target model *)

(** [int.bit_length()]: the number of bits of the absolute value. *)
Definition bit_length (n : Z) : Z :=
  if decide (n = 0) then 0 else Z.log2 (Z.abs n) + 1.

(** [r << bits]: a negative shift count is a [ValueError]. *)
Definition py_shiftl (r bits : Z) : result Z :=
  if decide (bits < 0) then Raise ValueError else Ok (Z.shiftl r bits).

Module Processor.

(** The three sizes are [None] until [dimension_memories] sets them. *)
Record t : Type := mk {
  data_width : Z;
  multiplier_stages : nat;
  program_rom_size : option Z;
  data_ram_size : option Z;
  opcode_bits : Z;
  reg_bits : option Z
}.

(** [Processor(data_width, multiplier_stages)]; the defaults are 32 and 2. *)
Definition new (data_width : Z) (multiplier_stages : nat) : t :=
  {| data_width := data_width; multiplier_stages := multiplier_stages;
     program_rom_size := None; data_ram_size := None;
     opcode_bits := 3; reg_bits := None |}.

Definition get_instruction_latency (p : t) (isn : Isn) : result nat :=
  match cls isn with
  | AddIsn => Ok 2%nat
  | SubIsn => Ok 2%nat
  | MulIsn => Ok (1 + multiplier_stages p)%nat
  | CopyIsn => Ok 1%nat
  | InputIsn => Ok 1%nat
  | NopIsn | OutputIsn => Raise KeyError
  end.

(** [isn.inputs[k]] when the list is long enough, [0] otherwise. *)
Definition input_or_zero (isn : Isn) (k : nat) : Z :=
  match inputs isn !! k with
  | Some r => r
  | None => 0
  end.

Definition encode_instruction (p : t) (isn : Isn) (exit : Z) : result Z :=
  let opcode := opcode (cls isn) in
  let '(r0, r1) :=
    match immediate isn with
    | Some imm => (imm, input_or_zero isn 0)
    | None => (input_or_zero isn 0, input_or_zero isn 1)
    end in
  match reg_bits p with
  | None => Raise TypeError
  | Some reg_bits =>
      foldl (fun r '(value, bits) =>
               r ← r;
               r ← py_shiftl r bits;
               Ok (Z.lor r value))
            (Ok 0)
            [(exit, reg_bits); (r1, reg_bits); (r0, reg_bits);
             (opcode, opcode_bits p)]
  end.

Definition instruction_bits (p : t) : result Z :=
  match reg_bits p with
  | None => Raise TypeError
  | Some reg_bits => Ok (3 * reg_bits + opcode_bits p)
  end.

End Processor.

(** ** Scheduler *)

Module Scheduler.

(** [exits] maps a cycle to the pair (SSA register, physical register)
    written at that cycle. *)
Record t : Type := mk {
  processor : Processor.t;
  reserved_data : Z;
  used_registers : gset Z;
  exits : gmap nat (Z * Z);
  program : list Isn;
  remaining : list Isn;
  output : list Isn
}.

Definition init (processor : Processor.t) (reserved_data : Z)
    (program : list Isn) : t :=
  {| processor := processor; reserved_data := reserved_data;
     used_registers := list_to_set (seqZ 0 reserved_data);
     exits := ∅; program := program; remaining := program; output := [] |}.

Definition set_used (u : gset Z) (s : t) : t :=
  {| processor := processor s; reserved_data := reserved_data s;
     used_registers := u; exits := exits s; program := program s;
     remaining := remaining s; output := output s |}.

Definition set_exits (e : gmap nat (Z * Z)) (s : t) : t :=
  {| processor := processor s; reserved_data := reserved_data s;
     used_registers := used_registers s; exits := e; program := program s;
     remaining := remaining s; output := output s |}.

Definition set_remaining (r : list Isn) (s : t) : t :=
  {| processor := processor s; reserved_data := reserved_data s;
     used_registers := used_registers s; exits := exits s;
     program := program s; remaining := r; output := output s |}.

Definition append_output (i : Isn) (s : t) : t :=
  {| processor := processor s; reserved_data := reserved_data s;
     used_registers := used_registers s; exits := exits s;
     program := program s; remaining := remaining s;
     output := output s ++ [i] |}.

Definition allocate_register (s : t) : result (Z * t) :=
  m ← py_max (elements (used_registers s));
  r ← py_min (filter (fun x => x ∉ used_registers s) (seqZ 0 (m + 2)));
  Ok (r, set_used ({[r]} ∪ used_registers s) s).

Definition free_register (r : Z) (s : t) : result t :=
  _ ← assert (bool_decide (reserved_data s ≤ r));
  Ok (set_used (used_registers s ∖ {[r]}) s).

(** The inner loop of [find_inputs]: the first cycle among [cycles] whose
    exit entry carries the SSA register [inp]. *)
Fixpoint lookup_exit (e : gmap nat (Z * Z)) (inp : Z) (cycles : list nat)
    : option Z :=
  match cycles with
  | [] => None
  | i :: cycles' =>
      match e !! i with
      | Some (r, rm) =>
          if decide (r = inp) then Some rm else lookup_exit e inp cycles'
      | None => lookup_exit e inp cycles'
      end
  end.

Fixpoint map_inputs (e : gmap nat (Z * Z)) (cycle : nat) (inps : list Z)
    : option (list Z) :=
  match inps with
  | [] => Some []
  | inp :: inps' =>
      if decide (0 ≤ inp) then
        cons inp <$> map_inputs e cycle inps'
      else
        match lookup_exit e inp (seq 0 cycle) with
        | Some rm => cons rm <$> map_inputs e cycle inps'
        | None => None
        end
  end.

Definition find_inputs (cycle : nat) (isn : Isn) (s : t) : option (list Z) :=
  map_inputs (exits s) cycle (inputs isn).

(** [list.remove]: drops the first equal element, [ValueError] when there
    is none.  [Isn] defines no [__eq__], so Python compares instruction
    objects by identity; the scheduler only removes the instruction its
    scan has just reached, the first of its structural equals to be
    tried. *)
Fixpoint list_remove (isn : Isn) (l : list Isn) : result (list Isn) :=
  match l with
  | [] => Raise ValueError
  | x :: l' =>
      if decide (x = isn) then Ok l'
      else l'' ← list_remove isn l'; Ok (x :: l'')
  end.

(** [all(inp != rinp for risn in self.remaining for rinp in risn.inputs)] *)
Definition unreferenced (inp : Z) (rem : list Isn) : bool :=
  forallb (fun risn => forallb (fun rinp => bool_decide (inp ≠ rinp))
                               (inputs risn)) rem.

(** The loop over [zip(isn.inputs, mapped_inputs)]. *)
Fixpoint free_inputs (pairs : list (Z * Z)) (s : t) : result t :=
  match pairs with
  | [] => Ok s
  | (inp, minp) :: pairs' =>
      let can_free := bool_decide (inp < 0) && unreferenced inp (remaining s) in
      s ← (if can_free then free_register minp s else Ok s);
      free_inputs pairs' s
  end.

Definition schedule_one (isn : Isn) (s : t) : result (bool * t) :=
  let cycle := length (output s) in
  match find_inputs cycle isn s with
  | None => Ok (false, s)
  | Some mapped_inputs =>
      exit ← match outputs isn with
             | [] => Ok None
             | _ :: _ =>
                 latency ← Processor.get_instruction_latency (processor s) isn;
                 Ok (Some (cycle + latency)%nat)
             end;
      if match exit with
         | Some exit => bool_decide (is_Some (exits s !! exit))
         | None => false
         end
      then Ok (false, s)
      else
        rem ← list_remove isn (remaining s);
        let s := set_remaining rem s in
        s ← free_inputs (zip (inputs isn) mapped_inputs) s;
        s ← match outputs isn, exit with
            | o :: os, Some exit =>
                _ ← assert (bool_decide (length (o :: os) = 1%nat));
                '(output, s) ← allocate_register s;
                Ok (set_exits (<[exit := (o, output)]> (exits s)) s)
            | _, _ => Ok s
            end;
        Ok (true, append_output (mkIsn (cls isn) (immediate isn) mapped_inputs []) s)
  end.

(** The [for isn in self.remaining] scan of one cycle. *)
Fixpoint scan (candidates : list Isn) (s : t) : result (bool * t) :=
  match candidates with
  | [] => Ok (false, s)
  | isn :: candidates' =>
      '(scheduled, s) ← schedule_one isn s;
      if (scheduled : bool) then Ok (true, s) else scan candidates' s
  end.

Definition nop : Isn := mkIsn NopIsn None [] [].

(** The [while self.remaining] loop; [None] when [fuel] iterations did not
    empty the working set. *)
Fixpoint schedule_loop (fuel : nat) (s : t) : option (result t) :=
  match fuel with
  | O => None
  | S fuel' =>
      match remaining s with
      | [] => Some (Ok s)
      | _ :: _ =>
          match scan (remaining s) s with
          | Raise e => Some (Raise e)
          | Ok (true, s) => schedule_loop fuel' s
          | Ok (false, s) => schedule_loop fuel' (append_output nop s)
          end
      end
  end.

(** The padding after the loop. *)
Definition pad (s : t) : result t :=
  m ← py_max (Z.of_nat <$> elements (dom (exits s)));
  let n := m - Z.of_nat (length (output s)) + 1 in
  Ok {| processor := processor s; reserved_data := reserved_data s;
        used_registers := used_registers s; exits := exits s;
        program := program s; remaining := remaining s;
        output := output s ++ replicate (Z.to_nat n) nop |}.

Definition schedule (fuel : nat) (s : t) : option (result t) :=
  r ← schedule_loop fuel s;
  Some (s ← r; pad s).

End Scheduler.

(** ** Compiled program and encoder *)

Module CompiledProgram.

Record t : Type := mk {
  processor : Processor.t;
  program : list Isn;
  exits : gmap nat Z;
  data : list Z;
  globals : gmap string Z
}.

Definition dimension_memories (cp : t) : t :=
  let rom := Z.of_nat (length (program cp)) in
  let ram := Z.of_nat (length (data cp)) in
  {| processor :=
       {| Processor.data_width := Processor.data_width (processor cp);
          Processor.multiplier_stages := Processor.multiplier_stages (processor cp);
          Processor.program_rom_size := Some rom;
          Processor.data_ram_size := Some ram;
          Processor.opcode_bits := Processor.opcode_bits (processor cp);
          Processor.reg_bits := Some (bit_length (ram - 1)) |};
     program := program cp; exits := exits cp; data := data cp;
     globals := globals cp |}.

(** The loop [for i, isn in enumerate(self.program)], from index [i] on. *)
Fixpoint encode_from (cp : t) (i : nat) (prog : list Isn) : result (list Z) :=
  match prog with
  | [] => Ok []
  | isn :: prog' =>
      let exit := default 0 (exits cp !! i) in
      w ← Processor.encode_instruction (processor cp) isn exit;
      ws ← encode_from cp (S i) prog';
      Ok (w :: ws)
  end.

Definition encode (cp : t) : result (list Z) :=
  encode_from cp 0 (program cp).

End CompiledProgram.

(** [compile], from the point where the function's argument name and body
    have been taken out of the parsed source. *)
Definition compile (fuel : nat) (processor : Processor.t) (arg : string)
    (body : list stmt) : option (result CompiledProgram.t) :=
  match build_ir arg body with
  | Raise e => Some (Raise e)
  | Ok astcompiler =>
      let data := ASTCompiler.data astcompiler in
      r ← Scheduler.schedule fuel
            (Scheduler.init processor (Z.of_nat (length data))
                            (ASTCompiler.program astcompiler));
      Some (
        scheduler ← r;
        in_max ← py_max ((fun isn => foldl Z.max 0 (inputs isn ++ [0]))
                           <$> Scheduler.output scheduler);
        out_max ← py_max ((fun kv => snd (snd kv))
                            <$> map_to_list (Scheduler.exits scheduler));
        let max_reg := Z.max in_max out_max in
        Ok {| CompiledProgram.processor := processor;
              CompiledProgram.program := Scheduler.output scheduler;
              CompiledProgram.exits := snd <$> Scheduler.exits scheduler;
              CompiledProgram.data :=
                data ++ replicate (Z.to_nat (max_reg - Z.of_nat (length data) + 1)) 0;
              CompiledProgram.globals := ASTCompiler.globals astcompiler |})
  end.

(** ** The decoder of [ProcessorImpl]

    [ProcessorImpl.__init__] cuts the instruction word into its fields with
    the slices [dat_r[s:s+bits]], [s] advancing from bit 0 through opcode,
    [r0], [r1] and [exit]. *)

Definition slice (w s bits : Z) : Z := Z.land (Z.shiftr w s) (Z.ones bits).

Definition decode_opcode (opcode_bits reg_bits w : Z) : Z :=
  slice w 0 opcode_bits.
Definition decode_r0 (opcode_bits reg_bits w : Z) : Z :=
  slice w opcode_bits reg_bits.
Definition decode_r1 (opcode_bits reg_bits w : Z) : Z :=
  slice w (opcode_bits + reg_bits) reg_bits.
Definition decode_exit (opcode_bits reg_bits w : Z) : Z :=
  slice w (opcode_bits + reg_bits + reg_bits) reg_bits.

(** The two operand fields [encode_instruction] chooses. *)
Definition field_r0 (isn : Isn) : Z :=
  match immediate isn with
  | Some imm => imm
  | None => Processor.input_or_zero isn 0
  end.

Definition field_r1 (isn : Isn) : Z :=
  match immediate isn with
  | Some _ => Processor.input_or_zero isn 0
  | None => Processor.input_or_zero isn 1
  end.

(** The layout as the specification words it: opcode in the most
    significant field, then the first operand, the second operand and the
    exit register toward the least significant bits. *)
Definition opcode_first_layout (opcode_bits reg_bits : Z) (isn : Isn)
    (exit : Z) : Z :=
  Z.lor (Z.shiftl (opcode (cls isn)) (3 * reg_bits))
    (Z.lor (Z.shiftl (field_r0 isn) (2 * reg_bits))
       (Z.lor (Z.shiftl (field_r1 isn) reg_bits) exit)).

(** ** Example functions

    [simple_test] is the function the source file compiles when run as a
    script; the other two are the specification's scenarios. *)

(** [def simple_test(x): a = 5 + 3; return a*4] *)
Definition simple_test : list stmt :=
  [Assign [Name "a"] (BinOp (Num 5) Add (Num 3));
   Return (Some (BinOp (Name "a") Mult (Num 4)))].

(** [def f(x): global g; g = x + 1; return g + g] *)
Definition global_example : list stmt :=
  [Global ["g"];
   Assign [Name "g"] (BinOp (Name "x") Add (Num 1));
   Return (Some (BinOp (Name "g") Add (Name "g")))].

(** [def f(x): return x] *)
Definition identity_example : list stmt := [Return (Some (Name "x"))].

(** The default target, [Processor()]. *)
Definition default_processor : Processor.t := Processor.new 32 2.

(** The IR the builder returns for [simple_test]. *)
Definition simple_test_ir : list Isn :=
  [mkIsn InputIsn None [] [-1]; mkIsn AddIsn None [0; 1] [-2];
   mkIsn MulIsn None [-2; 2] [-3]; mkIsn OutputIsn None [-3] []].

(** The IR the builder returns for [global_example]. *)
Definition global_example_ir : list Isn :=
  [mkIsn InputIsn None [] [-1]; mkIsn AddIsn None [-1; 1] [-2];
   mkIsn AddIsn None [-2; -2] [-3]; mkIsn OutputIsn None [-3] []].

(** ** Syntactic measures of an input tree *)

(** The names declared by the [global] statements of a body. *)
Definition global_names (body : list stmt) : list string :=
  flat_map (fun node => match node with Global names => names | _ => [] end) body.

Fixpoint expr_literals (e : expr) : list Z :=
  match e with
  | BinOp l _ r => expr_literals l ++ expr_literals r
  | Num n => [n]
  | _ => []
  end.

Definition stmt_literals (node : stmt) : list Z :=
  match node with
  | Assign _ value => expr_literals value
  | Return (Some value) => expr_literals value
  | _ => []
  end.

Definition body_literals (body : list stmt) : list Z :=
  flat_map stmt_literals body.

(** ** Auxiliary predicates on builder states *)

(** [extends s s']: [s'] is [s] after some walk steps, as far as the
    append-only parts of the state go. *)
Definition extends (s s' : ASTCompiler.t) : Prop :=
  (∃ added, ASTCompiler.program s' = ASTCompiler.program s ++ added) ∧
  (∃ added, ASTCompiler.data s' = ASTCompiler.data s ++ added) ∧
  ASTCompiler.next_ssa_reg s' ≤ ASTCompiler.next_ssa_reg s ∧
  (∀ n r, ASTCompiler.constants s !! n = Some r →
          ASTCompiler.constants s' !! n = Some r) ∧
  ASTCompiler.globals s' = ASTCompiler.globals s.

(** ** Accesses of a compiled program to a register *)

(** Some cycle's retirement writes [slot]. *)
Definition stores_to (cp : CompiledProgram.t) (slot : Z) : Prop :=
  ∃ cycle, CompiledProgram.exits cp !! cycle = Some slot.

(** Some scheduled instruction has [slot] among its operands. *)
Definition reads_from (cp : CompiledProgram.t) (slot : Z) : Prop :=
  ∃ isn, isn ∈ CompiledProgram.program cp ∧ slot ∈ inputs isn.

(** ** Literal occurrences met by a walk

    [expr_resolves s e n r]: walking [e] from state [s], the builder
    reaches an occurrence of the literal [n] and resolves it to the operand
    reference [r].  The walk visits the left operand of a binary operation
    first and the right operand from the state the left one leaves. *)

Inductive expr_resolves : ASTCompiler.t → expr → Z → Z → Prop :=
  | resolves_num s n r s' :
      ASTCompiler.emit_expr (Num n) s = Ok (r, s') →
      expr_resolves s (Num n) n r
  | resolves_left s l op rr n r :
      expr_resolves s l n r →
      expr_resolves s (BinOp l op rr) n r
  | resolves_right s l op rr n r lhs s1 :
      ASTCompiler.emit_expr l s = Ok (lhs, s1) →
      expr_resolves s1 rr n r →
      expr_resolves s (BinOp l op rr) n r.

Inductive stmt_resolves (s : ASTCompiler.t) : stmt → Z → Z → Prop :=
  | resolves_assign targets value n r :
      expr_resolves s value n r →
      stmt_resolves s (Assign targets value) n r
  | resolves_return value n r :
      expr_resolves s value n r →
      stmt_resolves s (Return (Some value)) n r.

(** The same for the statements of a body, which [compile] walks up to the
    first [return]. *)
Inductive body_resolves : ASTCompiler.t → list stmt → Z → Z → Prop :=
  | resolves_here s node body n r :
      stmt_resolves s node n r →
      body_resolves s (node :: body) n r
  | resolves_later s node body n r s1 :
      ASTCompiler.emit node s = Ok s1 →
      is_return node = false →
      body_resolves s1 body n r →
      body_resolves s (node :: body) n r.

(** Every interned constant sits in the Data Table at the slot the
    constants map gives for it. *)
Definition constants_in_data (s : ASTCompiler.t) : Prop :=
  ∀ n r, ASTCompiler.constants s !! n = Some r →
         0 ≤ r ∧ ASTCompiler.data s !! Z.to_nat r = Some n.

(** [a = 2 + 2], the specification's scenario of two equal literals. *)
Definition equal_literals_example : list stmt :=
  [Assign [Name "a"] (BinOp (Num 2) Add (Num 2))].

(** ** Single static assignment *)

(** The instructions of [prog] that have [r] among their outputs. *)
Definition producers (r : Z) (prog : list Isn) : list Isn :=
  filter (fun isn => r ∈ outputs isn) prog.

(** Every SSA operand of an instruction is an output of an instruction
    placed before it in the list. *)
Definition def_before_use (prog : list Isn) : Prop :=
  ∀ pre isn post, prog = pre ++ isn :: post →
    ∀ inp, inp ∈ inputs isn → inp < 0 → ∃ q, q ∈ pre ∧ inp ∈ outputs q.

(** The builder's invariant: the SSA registers handed out so far are those
    strictly between [next_ssa_reg] and 0, each is the output of exactly one
    instruction, and no operand or name binding refers to another one. *)
Definition ssa_state (s : ASTCompiler.t) : Prop :=
  ASTCompiler.next_ssa_reg s < 0 ∧
  (∀ r, length (producers r (ASTCompiler.program s)) =
        if decide (ASTCompiler.next_ssa_reg s < r < 0) then 1%nat else 0%nat) ∧
  (∀ isn, isn ∈ ASTCompiler.program s →
          (length (outputs isn) ≤ 1)%nat ∧
          ∀ inp, inp ∈ inputs isn → inp < 0 → ASTCompiler.next_ssa_reg s < inp) ∧
  (∀ name r, ASTCompiler.names s !! name = Some r → r < 0 →
             ASTCompiler.next_ssa_reg s < r) ∧
  (∀ n r, ASTCompiler.constants s !! n = Some r → 0 ≤ r) ∧
  def_before_use (ASTCompiler.program s).

(** ** The vocabulary of input trees *)

Definition operator_in_vocabulary (op : operator) : bool :=
  match op with
  | Add | Sub | Mult => true
  | _ => false
  end.

(** The expressions [emit] has a branch for, all the way down. *)
Fixpoint expr_in_vocabulary (e : expr) : bool :=
  match e with
  | BinOp l op r =>
      expr_in_vocabulary l && expr_in_vocabulary r && operator_in_vocabulary op
  | Num _ | Name _ => true
  | Call | IfExp | Tuple => false
  end.

(** The statements [emit] has a branch for; an assignment may have any
    number of targets. *)
Definition stmt_in_vocabulary (node : stmt) : bool :=
  match node with
  | Assign _ value => expr_in_vocabulary value
  | Return (Some value) => expr_in_vocabulary value
  | Return None => false
  | Global _ => true
  | For | While | If | Expr | Pass => false
  end.

(** The statements [compile] hands to [emit]: those up to and including
    the first [return]. *)
Fixpoint walked (body : list stmt) : list stmt :=
  match body with
  | [] => []
  | node :: body' => if is_return node then [node] else node :: walked body'
  end.

(** An assignment with several targets, [a = b = value]. *)
Definition multi_target (node : stmt) : bool :=
  match node with
  | Assign targets _ => bool_decide (1 < length targets)%nat
  | _ => false
  end.

(** Outside the vocabulary as the specification lists it: a loop, a
    conditional, a call, an unsupported operator, and also a multi-target
    assignment. *)
Definition listed_as_unsupported (node : stmt) : bool :=
  negb (stmt_in_vocabulary node) || multi_target node.

(** [expr_hits s e]: walking [e] from state [s], the builder reaches a node
    outside the vocabulary, every node walked before it having been built. *)
Inductive expr_hits : ASTCompiler.t → expr → Prop :=
  | hits_call s : expr_hits s Call
  | hits_ifexp s : expr_hits s IfExp
  | hits_tuple s : expr_hits s Tuple
  | hits_left s l op r :
      expr_hits s l → expr_hits s (BinOp l op r)
  | hits_right s l op r lhs s1 :
      ASTCompiler.emit_expr l s = Ok (lhs, s1) →
      expr_hits s1 r → expr_hits s (BinOp l op r)
  | hits_operator s l op r lhs s1 rhs s2 :
      ASTCompiler.emit_expr l s = Ok (lhs, s1) →
      ASTCompiler.emit_expr r s1 = Ok (rhs, s2) →
      operator_in_vocabulary op = false →
      expr_hits s (BinOp l op r).

Inductive stmt_hits (s : ASTCompiler.t) : stmt → Prop :=
  | hits_assign targets value :
      expr_hits s value → stmt_hits s (Assign targets value)
  | hits_return value :
      expr_hits s value → stmt_hits s (Return (Some value))
  | hits_return_none : stmt_hits s (Return None)
  | hits_for : stmt_hits s For
  | hits_while : stmt_hits s While
  | hits_if : stmt_hits s If
  | hits_expr : stmt_hits s Expr
  | hits_pass : stmt_hits s Pass.

Inductive body_hits : ASTCompiler.t → list stmt → Prop :=
  | hits_here s node body :
      stmt_hits s node → body_hits s (node :: body)
  | hits_later s node body s1 :
      ASTCompiler.emit node s = Ok s1 →
      is_return node = false →
      body_hits s1 body →
      body_hits s (node :: body).

(** ** Auxiliary predicates on scheduler states *)

(** Everything of a scheduler state but its set of used registers. *)
Definition same_but_used (s s' : Scheduler.t) : Prop :=
  Scheduler.processor s' = Scheduler.processor s ∧
  Scheduler.reserved_data s' = Scheduler.reserved_data s ∧
  Scheduler.exits s' = Scheduler.exits s ∧
  Scheduler.program s' = Scheduler.program s ∧
  Scheduler.remaining s' = Scheduler.remaining s ∧
  Scheduler.output s' = Scheduler.output s.

(** [placed], issued at [cycle], is the IR instruction [isn] with its
    operands resolved against the exit map [e]: non-negative operands are
    kept, and each SSA operand is replaced by the physical register of an
    exit entry that carries this SSA register and lies at an earlier
    cycle. *)
Definition resolved_from (e : gmap nat (Z * Z)) (cycle : nat)
    (isn placed : Isn) : Prop :=
  cls placed = cls isn ∧ immediate placed = immediate isn ∧
  length (inputs placed) = length (inputs isn) ∧
  ∀ k inp, inputs isn !! k = Some inp →
    (0 ≤ inp → inputs placed !! k = Some inp) ∧
    (inp < 0 → ∃ written rm, (written < cycle)%nat ∧
                             e !! written = Some (inp, rm) ∧
                             inputs placed !! k = Some rm).

(** Every slot of the schedule is a no-op or an instruction of the program
    resolved against the exit map. *)
Definition hazard_free (s : Scheduler.t) : Prop :=
  ∀ cycle placed, Scheduler.output s !! cycle = Some placed →
    placed = Scheduler.nop ∨
    ∃ isn, isn ∈ Scheduler.program s ∧
           resolved_from (Scheduler.exits s) cycle isn placed.

(** The instructions of a list that produce an output. *)
Definition with_output (l : list Isn) : list Isn :=
  filter (fun isn => outputs isn ≠ []) l.

(** ** Readiness of the working set *)

(** Every SSA operand of a waiting instruction has an exit entry already or
    is the output of an instruction waiting before it. *)
Definition inputs_available (s : Scheduler.t) : Prop :=
  ∀ pre isn post, Scheduler.remaining s = pre ++ isn :: post →
    ∀ inp, inp ∈ inputs isn → inp < 0 →
      (∃ i rm, Scheduler.exits s !! i = Some (inp, rm)) ∨
      (∃ q, q ∈ pre ∧ inp ∈ outputs q).

(** The longest latency of the target. *)
Definition max_latency (p : Processor.t) : nat :=
  Nat.max 2 (1 + Processor.multiplier_stages p).

(** Iterations of the scheduling loop that are enough from state [s] when
    every exit entry lies before cycle [horizon]. *)
Definition enough_fuel (s : Scheduler.t) (horizon : nat) : nat :=
  S (length (Scheduler.remaining s) * (max_latency (Scheduler.processor s) + 2)
     + (horizon - length (Scheduler.output s))).

(** ** Soundness of the register bookkeeping *)

(** The shapes of instruction the builder emits: an operation or the input
    instruction with one output, or the output instruction with none. *)
Definition builder_shaped (isn : Isn) : bool :=
  match cls isn, outputs isn with
  | (AddIsn | SubIsn | MulIsn | InputIsn), [_] => true
  | OutputIsn, [] => true
  | _, _ => false
  end.

(** The reserved region is not empty and is in use, used registers are
    non-negative, every exit entry writes a register outside the reserved
    region, and the waiting instructions are of the builder's shapes. *)
Definition registers_sound (s : Scheduler.t) : Prop :=
  0 < Scheduler.reserved_data s ∧
  (∀ r, 0 ≤ r < Scheduler.reserved_data s → r ∈ Scheduler.used_registers s) ∧
  (∀ r, r ∈ Scheduler.used_registers s → 0 ≤ r) ∧
  (∀ i o rm, Scheduler.exits s !! i = Some (o, rm) →
             Scheduler.reserved_data s ≤ rm) ∧
  Forall (fun isn => builder_shaped isn = true) (Scheduler.remaining s).

(** ** Invariants of a scheduler run *)

(** Every exit entry belongs to a program instruction with that output,
    issued [latency] cycles before the entry's cycle, the latency being at
    least one cycle. *)
Definition exits_timed (s : Scheduler.t) : Prop :=
  ∀ w o rm, Scheduler.exits s !! w = Some (o, rm) →
    ∃ isn lat placed,
      isn ∈ Scheduler.program s ∧ outputs isn = [o] ∧
      Processor.get_instruction_latency (Scheduler.processor s) isn = Ok lat ∧
      (1 ≤ lat ≤ w)%nat ∧
      Scheduler.output s !! (w - lat)%nat = Some placed ∧
      cls placed = cls isn.

(** The reserved region stays in use, exit entries write outside it, and
    the schedule holds physical operands only and no outputs. *)
Definition physical_only (s : Scheduler.t) : Prop :=
  (∀ r, 0 ≤ r < Scheduler.reserved_data s → r ∈ Scheduler.used_registers s) ∧
  (∀ w o rm, Scheduler.exits s !! w = Some (o, rm) →
             Scheduler.reserved_data s ≤ rm) ∧
  (∀ placed, placed ∈ Scheduler.output s →
             outputs placed = [] ∧ ∀ x, x ∈ inputs placed → 0 ≤ x).

(** ** Exclusive use of physical registers *)

(** [o] is still an operand of a waiting instruction. *)
Definition live (s : Scheduler.t) (o : Z) : Prop :=
  ∃ isn, isn ∈ Scheduler.remaining s ∧ o ∈ inputs isn.

(** No exit entry other than the one at cycle [w] writes register [rm] from
    cycle [w] up to and including cycle [c]. *)
Definition sole_writer (e : gmap nat (Z * Z)) (w : nat) (rm : Z) (c : nat) : Prop :=
  ∀ w' o', e !! w' = Some (o', rm) → w' = w ∨ (w' < w)%nat ∨ (c < w')%nat.

(** The register of an entry whose value is still awaited is in use and no
    other entry writes it later; a register that is not in use belongs only
    to entries of past cycles. *)
Definition registers_exclusive (s : Scheduler.t) : Prop :=
  (∀ w o rm, Scheduler.exits s !! w = Some (o, rm) → live s o →
             rm ∈ Scheduler.used_registers s) ∧
  (∀ w o rm w' o', Scheduler.exits s !! w = Some (o, rm) → live s o →
                   Scheduler.exits s !! w' = Some (o', rm) → w' ≠ w →
                   (w' < w)%nat) ∧
  (∀ w o rm, Scheduler.exits s !! w = Some (o, rm) →
             rm ∈ Scheduler.used_registers s ∨
             (w < length (Scheduler.output s))%nat).

(** Every slot of the schedule is a no-op or a program instruction each of
    whose SSA operands reads a register that only the operand's own exit
    entry writes between that entry's cycle and the slot's cycle. *)
Definition reads_safe (s : Scheduler.t) : Prop :=
  ∀ c placed, Scheduler.output s !! c = Some placed →
    placed = Scheduler.nop ∨
    ∃ isn, isn ∈ Scheduler.program s ∧ cls placed = cls isn ∧
      ∀ k inp, inputs isn !! k = Some inp → inp < 0 →
        ∃ w rm, (w < c)%nat ∧ Scheduler.exits s !! w = Some (inp, rm) ∧
                inputs placed !! k = Some rm ∧
                sole_writer (Scheduler.exits s) w rm c.

(** ** The opcodes of a list of instructions, no-ops left out *)


(** ** Bodies the builder accepts *)

(** An expression within the vocabulary all of whose names are in
    [bound]. *)
Fixpoint expr_closed (bound : gset string) (e : expr) : bool :=
  match e with
  | BinOp l op r =>
      expr_closed bound l && expr_closed bound r && operator_in_vocabulary op
  | Num _ => true
  | Name id => bool_decide (id ∈ bound)
  | Call | IfExp | Tuple => false
  end.

(** The identifiers of assignment targets that are all plain names. *)
Fixpoint target_ids (targets : list expr) : option (list string) :=
  match targets with
  | [] => Some []
  | Name id :: targets' => cons id <$> target_ids targets'
  | _ :: _ => None
  end.

(** A body whose statements, up to the first [return], are within the
    vocabulary, assign to plain names only and use a name only after it is
    bound: [bound] holds the names bound so far. *)
Fixpoint body_closed (bound : gset string) (body : list stmt) : bool :=
  match body with
  | [] => true
  | Assign targets value :: body' =>
      expr_closed bound value &&
      match target_ids targets with
      | Some ids => body_closed (list_to_set ids ∪ bound) body'
      | None => false
      end
  | Return (Some value) :: _ => expr_closed bound value
  | Global _ :: body' => body_closed bound body'
  | _ :: _ => false
  end.

(** ** Instructions without immediate *)

(** The builder never sets [immediate]; the encoder then takes both operand
    fields from [inputs]. *)
Definition no_immediate (isn : Isn) : Prop := immediate isn = None.

(** ** Layout of the Data Table *)




(** * Properties *)

(** ** Encoder *)

Section Encoding.

Lemma land_shiftl_small a n b :
  0 ≤ n → 0 ≤ b < 2 ^ n → Z.land (Z.shiftl a n) b = 0.
Proof.
  intros Hn Hb. apply Z.bits_inj'. intros i Hi.
  rewrite Z.land_spec, Z.bits_0.
  destruct (decide (i < n)) as [Hlt | Hge].
  - rewrite Z.shiftl_spec_low by lia. reflexivity.
  - rewrite <- (Z.mod_small b (2 ^ n)) by lia.
    rewrite Z.mod_pow2_bits_high by lia. apply andb_false_r.
Qed.

Lemma lor_shiftl_small a n b :
  0 ≤ n → 0 ≤ b < 2 ^ n → Z.lor (Z.shiftl a n) b = a * 2 ^ n + b.
Proof.
  intros Hn Hb.
  pose proof (Z.add_lor_land (Z.shiftl a n) b) as H.
  rewrite land_shiftl_small in H by assumption.
  rewrite <- Z.shiftl_mul_pow2 by assumption. lia.
Qed.

Lemma slice_low a b n :
  0 ≤ n → 0 ≤ b < 2 ^ n → slice (a * 2 ^ n + b) 0 n = b.
Proof.
  intros Hn Hb. unfold slice. rewrite Z.shiftr_0_r, Z.land_ones by lia.
  rewrite Z.add_comm, Z_mod_plus_full. apply Z.mod_small. lia.
Qed.

Lemma shiftr_low a b n :
  0 ≤ n → 0 ≤ b < 2 ^ n → Z.shiftr (a * 2 ^ n + b) n = a.
Proof.
  intros Hn Hb. rewrite Z.shiftr_div_pow2 by lia.
  assert (0 < 2 ^ n) by (apply Z.pow_pos_nonneg; lia).
  rewrite Z.add_comm, Z_div_plus_full by lia.
  rewrite Z.div_small by lia. lia.
Qed.

Lemma slice_above hi lo s t bits :
  0 ≤ s → 0 ≤ t → 0 ≤ lo < 2 ^ s →
  slice (hi * 2 ^ s + lo) (s + t) bits = slice hi t bits.
Proof.
  intros Hs Ht Hlo. unfold slice.
  rewrite <- Z.shiftr_shiftr by lia. rewrite shiftr_low by lia. reflexivity.
Qed.

Lemma slice_above_0 hi lo s bits :
  0 ≤ s → 0 ≤ lo < 2 ^ s →
  slice (hi * 2 ^ s + lo) s bits = slice hi 0 bits.
Proof.
  intros Hs Hlo. rewrite <- (slice_above hi lo s 0 bits) by lia.
  rewrite Z.add_0_r. reflexivity.
Qed.

Lemma slice_small a bits : 0 ≤ bits → 0 ≤ a < 2 ^ bits → slice a 0 bits = a.
Proof.
  intros Hb Ha. unfold slice. rewrite Z.shiftr_0_r, Z.land_ones by lia.
  apply Z.mod_small. lia.
Qed.

(** What [encode_instruction] computes, as a nest of shifts. *)
Lemma encode_instruction_unfold p isn exit rb :
  Processor.reg_bits p = Some rb → 0 ≤ rb → 0 ≤ Processor.opcode_bits p →
  Processor.encode_instruction p isn exit =
    Ok (Z.lor (Z.shiftl
                 (Z.lor (Z.shiftl
                           (Z.lor (Z.shiftl (Z.lor (Z.shiftl 0 rb) exit) rb)
                                  (field_r1 isn)) rb)
                        (field_r0 isn)) (Processor.opcode_bits p))
              (opcode (cls isn))).
Proof.
  intros Hrb Hnn Hob. unfold Processor.encode_instruction, field_r0, field_r1.
  rewrite Hrb. destruct (immediate isn); simpl;
    unfold py_shiftl; repeat (case_decide; [lia |]); simpl; reflexivity.
Qed.

End Encoding.

Section EncodedProgram.

Lemma encode_from_lookup cp k prog ws i isn :
  CompiledProgram.encode_from cp k prog = Ok ws →
  prog !! i = Some isn →
  ∃ w, ws !! i = Some w ∧
       Processor.encode_instruction (CompiledProgram.processor cp) isn
         (default 0 (CompiledProgram.exits cp !! (k + i)%nat)) = Ok w.
Proof.
  revert k ws i. induction prog as [| x prog IH]; intros k ws i Henc Hi.
  - discriminate.
  - simpl in Henc.
    destruct (Processor.encode_instruction _ x _) as [w |] eqn:Hw; [| discriminate].
    simpl in Henc.
    destruct (CompiledProgram.encode_from cp (S k) prog) as [ws' |] eqn:Hws;
      [| discriminate].
    simpl in Henc. injection Henc as <-.
    destruct i as [| i].
    + injection Hi as <-. exists w. rewrite Nat.add_0_r. split; [reflexivity | exact Hw].
    + simpl in Hi. destruct (IH (S k) ws' i Hws Hi) as (w' & Hl & He).
      exists w'. split; [exact Hl |].
      replace (k + S i)%nat with (S k + i)%nat by lia. exact He.
Qed.

End EncodedProgram.

(** C4 (as amended).  Every word of the encoded program packs the four
    fields of its cycle with the opcode in the three least significant bits,
    above it the first input (or the immediate), above that the second
    input, and the exit register in the most significant field, each operand
    field [reg_bits] wide; the exit field is the physical register the Exit
    Map records for that word's cycle, and 0 when no instruction retires on
    that cycle.  The slices of [ProcessorImpl] read the four fields back. *)
Theorem encode_layout (cp : CompiledProgram.t) (rb : Z) (ws : list Z)
    (i : nat) (isn : Isn) :
  let p := CompiledProgram.processor cp in
  let exit := default 0 (CompiledProgram.exits cp !! i) in
  Processor.reg_bits p = Some rb →
  Processor.opcode_bits p = 3 →
  0 ≤ rb →
  CompiledProgram.encode cp = Ok ws →
  CompiledProgram.program cp !! i = Some isn →
  0 ≤ field_r0 isn < 2 ^ rb →
  0 ≤ field_r1 isn < 2 ^ rb →
  0 ≤ exit < 2 ^ rb →
  ∃ w, ws !! i = Some w ∧
       Processor.encode_instruction p isn exit = Ok w ∧
       w = opcode (cls isn)
           + 2 ^ 3 * (field_r0 isn + 2 ^ rb * (field_r1 isn + 2 ^ rb * exit)) ∧
       decode_opcode 3 rb w = opcode (cls isn) ∧
       decode_r0 3 rb w = field_r0 isn ∧
       decode_r1 3 rb w = field_r1 isn ∧
       decode_exit 3 rb w = exit.
Proof.
  intros p exit Hrb Hob Hnn Henc Hi H0 H1 He.
  destruct (encode_from_lookup cp 0 _ ws i isn Henc Hi) as (w & Hw & Hword).
  simpl in Hword. fold p exit in Hword.
  exists w. split; [exact Hw |]. split; [exact Hword |].
  rewrite (encode_instruction_unfold p isn exit rb Hrb Hnn) in Hword by lia.
  rewrite Hob in Hword. injection Hword as Hword.
  assert (Hop : 0 ≤ opcode (cls isn) < 2 ^ 3) by (destruct (cls isn); simpl; lia).
  assert (Hpow : 0 < 2 ^ rb) by (apply Z.pow_pos_nonneg; lia).
  rewrite Z.shiftl_0_l, Z.lor_0_l in Hword.
  rewrite !lor_shiftl_small in Hword by lia.
  set (hi1 := exit * 2 ^ rb + field_r1 isn) in *.
  set (hi0 := hi1 * 2 ^ rb + field_r0 isn) in *.
  assert (Hdec : decode_opcode 3 rb w = opcode (cls isn) ∧
                 decode_r0 3 rb w = field_r0 isn ∧
                 decode_r1 3 rb w = field_r1 isn ∧
                 decode_exit 3 rb w = exit).
  { unfold decode_opcode, decode_r0, decode_r1, decode_exit.
    rewrite <- Hword. repeat split.
    - apply slice_low; lia.
    - rewrite slice_above_0 by lia. apply slice_low; lia.
    - rewrite slice_above by lia. unfold hi0.
      rewrite slice_above_0 by lia. apply slice_low; lia.
    - rewrite <- Z.add_assoc, slice_above by lia. unfold hi0.
      rewrite slice_above by lia. unfold hi1.
      rewrite slice_above_0 by lia. apply slice_small; lia. }
  split; [| exact Hdec].
  rewrite <- Hword. unfold hi0, hi1. ring.
Qed.

(** The Add of [simple_test] as scheduled, in the word of cycle 1, where
    the Exit Map holds register 3. *)
Lemma encode_layout_witness :
  let cp := {| CompiledProgram.processor :=
                 {| Processor.data_width := 32; Processor.multiplier_stages := 2;
                    Processor.program_rom_size := Some 2;
                    Processor.data_ram_size := Some 5;
                    Processor.opcode_bits := 3; Processor.reg_bits := Some 3 |};
               CompiledProgram.program :=
                 [mkIsn InputIsn None [] []; mkIsn AddIsn None [0; 1] []];
               CompiledProgram.exits := {[ 1%nat := 3 ]};
               CompiledProgram.data := [5; 3; 4; 0; 0];
               CompiledProgram.globals := ∅ |} in
  CompiledProgram.encode cp = Ok [5; 1601] ∧
  ∃ w, [5; 1601] !! 1%nat = Some w ∧
       Processor.encode_instruction (CompiledProgram.processor cp)
         (mkIsn AddIsn None [0; 1] []) 3 = Ok w ∧
       w = 1 + 2 ^ 3 * (0 + 2 ^ 3 * (1 + 2 ^ 3 * 3)) ∧
       decode_opcode 3 3 w = 1 ∧ decode_r0 3 3 w = 0 ∧
       decode_r1 3 3 w = 1 ∧ decode_exit 3 3 w = 3.
Proof.
  intros cp. split; [reflexivity |].
  apply (encode_layout cp 3 [5; 1601] 1 (mkIsn AddIsn None [0; 1] []));
    try reflexivity; try (vm_compute; split; congruence); lia.
Defined.

(** The same word refutes the opcode-first reading: the encoder yields 1601,
    whose most significant field is the exit register 3, while the layout
    with the opcode on top would be 523. *)
Lemma encode_opcode_first_counterexample :
  let p := {| Processor.data_width := 32; Processor.multiplier_stages := 2;
              Processor.program_rom_size := Some 9;
              Processor.data_ram_size := Some 5;
              Processor.opcode_bits := 3; Processor.reg_bits := Some 3 |} in
  let isn := mkIsn AddIsn None [0; 1] [] in
  Processor.encode_instruction p isn 3 = Ok 1601 ∧
  opcode_first_layout 3 3 isn 3 = 523 ∧
  Processor.encode_instruction p isn 3 ≠ Ok (opcode_first_layout 3 3 isn 3) ∧
  Z.shiftr 1601 (3 * 3) = 3 ∧ Z.land 1601 (Z.ones 3) = opcode AddIsn.
Proof. vm_compute. repeat split; congruence. Qed.

(** ** Fuel

    More fuel never changes an answer the scheduler has already given. *)

Section Fuel.

Lemma schedule_loop_mono fuel fuel' s r :
  Scheduler.schedule_loop fuel s = Some r → (fuel ≤ fuel')%nat →
  Scheduler.schedule_loop fuel' s = Some r.
Proof.
  revert fuel' s. induction fuel as [| fuel IH]; intros fuel' s Hrun Hle.
  - discriminate.
  - destruct fuel' as [| fuel']; [lia |].
    simpl in *. destruct (Scheduler.remaining s); [exact Hrun |].
    destruct (Scheduler.scan _ s) as [[[] s'] | e]; [| | exact Hrun];
      apply IH; (exact Hrun || lia).
Qed.

Lemma schedule_mono fuel fuel' s r :
  Scheduler.schedule fuel s = Some r → (fuel ≤ fuel')%nat →
  Scheduler.schedule fuel' s = Some r.
Proof.
  unfold Scheduler.schedule. intros Hrun Hle.
  destruct (Scheduler.schedule_loop fuel s) as [r0 |] eqn:Hloop; [| discriminate].
  rewrite (schedule_loop_mono _ _ _ _ Hloop Hle). exact Hrun.
Qed.

Lemma compile_mono fuel fuel' processor arg body r :
  compile fuel processor arg body = Some r → (fuel ≤ fuel')%nat →
  compile fuel' processor arg body = Some r.
Proof.
  unfold compile. intros Hrun Hle.
  destruct (build_ir arg body) as [s | e]; [| exact Hrun].
  destruct (Scheduler.schedule fuel _) as [r0 |] eqn:Hs; [| discriminate].
  rewrite (schedule_mono _ _ _ _ Hs Hle). exact Hrun.
Qed.

End Fuel.

(** ** The [simple_test] scenario *)

(** C5 (as amended).  For [a = 5 + 3; return a * 4] on the default target
    (add latency 2, multiply latency 3) the builder emits the input
    instruction ahead of the add, so the schedule issues the input
    instruction at cycle 0 and the add at cycle 1; the add retires at
    cycle 3; cycles 2 and 3 are no-op stalls because the multiply's input
    has not retired yet; the multiply issues at cycle 4, after the add has
    retired, and retires at cycle 7; the output instruction issues at
    cycle 8.  Any fuel from 10 on yields this result. *)
Theorem simple_test_schedule (n : nat) :
  Processor.get_instruction_latency default_processor (mkIsn AddIsn None [] []) = Ok 2%nat ∧
  Processor.get_instruction_latency default_processor (mkIsn MulIsn None [] []) = Ok 3%nat ∧
  (∃ ir, build_ir "x" simple_test = Ok ir ∧
         ASTCompiler.program ir =
           [mkIsn InputIsn None [] [-1]; mkIsn AddIsn None [0; 1] [-2];
            mkIsn MulIsn None [-2; 2] [-3]; mkIsn OutputIsn None [-3] []] ∧
         ASTCompiler.data ir = [5; 3; 4] ∧
         ∃ s, Scheduler.schedule (10 + n)
                (Scheduler.init default_processor 3 (ASTCompiler.program ir))
              = Some (Ok s) ∧
              Scheduler.exits s =
                {[ 1%nat := (-1, 3); 3%nat := (-2, 4); 7%nat := (-3, 4) ]}) ∧
  ∃ cp, compile (10 + n) default_processor "x" simple_test = Some (Ok cp) ∧
        CompiledProgram.program cp =
          [mkIsn InputIsn None [] []; mkIsn AddIsn None [0; 1] [];
           Scheduler.nop; Scheduler.nop; mkIsn MulIsn None [4; 2] [];
           Scheduler.nop; Scheduler.nop; Scheduler.nop;
           mkIsn OutputIsn None [4] []] ∧
        CompiledProgram.exits cp = {[ 1%nat := 3; 3%nat := 4; 7%nat := 4 ]} ∧
        CompiledProgram.data cp = [5; 3; 4; 0; 0].
Proof.
  split; [reflexivity |]. split; [reflexivity |]. split.
  - eexists. split; [vm_compute; reflexivity |].
    split; [reflexivity |]. split; [reflexivity |].
    eexists. split.
    + apply (schedule_mono 10); [vm_compute; reflexivity | lia].
    + vm_compute. reflexivity.
  - eexists. split.
    + apply (compile_mono 10); [vm_compute; reflexivity | lia].
    + repeat split; vm_compute; reflexivity.
Qed.

(** The claim as worded fails on this schedule: cycle 0 holds the input
    instruction, not the add, and nothing retires at cycle 2. *)
Lemma simple_test_add_at_cycle_0_counterexample :
  ∃ cp, compile 10 default_processor "x" simple_test = Some (Ok cp) ∧
        cls <$> CompiledProgram.program cp !! 0%nat = Some InputIsn ∧
        cls <$> CompiledProgram.program cp !! 0%nat ≠ Some AddIsn ∧
        CompiledProgram.exits cp !! 2%nat = None ∧
        cls <$> CompiledProgram.program cp !! 1%nat = Some AddIsn ∧
        CompiledProgram.exits cp !! 3%nat = Some 4.
Proof.
  eexists. split; [vm_compute; reflexivity |].
  repeat split; try (vm_compute; reflexivity). vm_compute. congruence.
Qed.

(** ** IR builder: what a walk step may change *)

(** Case analysis on the first computation of a monadic sequence. *)
Ltac bind_case H :=
  match type of H with
  | context [mbind _ ?c] =>
      let E := fresh "E" in
      destruct c eqn:E; simpl in H; try discriminate H
  | context [match ?c with Ok _ => _ | Raise _ => _ end] =>
      let E := fresh "E" in
      destruct c eqn:E; simpl in H; try discriminate H
  end.

Tactic Notation "bind_case_as" hyp(H) ident(E) :=
  match type of H with
  | context [mbind _ ?c] =>
      destruct c eqn:E; simpl in H; try discriminate H
  | context [match ?c with Ok _ => _ | Raise _ => _ end] =>
      destruct c eqn:E; simpl in H; try discriminate H
  end.

Section BuilderFrame.

Import ASTCompiler.

Lemma extends_refl s : extends s s.
Proof.
  repeat split; try (exists []; symmetry; apply app_nil_r); auto; lia.
Qed.

Lemma extends_trans s1 s2 s3 : extends s1 s2 → extends s2 s3 → extends s1 s3.
Proof.
  intros ([p1 Hp1] & [d1 Hd1] & Hn1 & Hc1 & Hg1) ([p2 Hp2] & [d2 Hd2] & Hn2 & Hc2 & Hg2).
  repeat split.
  - exists (p1 ++ p2). rewrite Hp2, Hp1, app_assoc. reflexivity.
  - exists (d1 ++ d2). rewrite Hd2, Hd1, app_assoc. reflexivity.
  - lia.
  - auto.
  - congruence.
Qed.

Lemma extends_append i s : extends s (append i s).
Proof.
  repeat split; simpl; eauto; try lia. exists []. symmetry. apply app_nil_r.
Qed.

Lemma extends_set_name name r s : extends s (set_name name r s).
Proof.
  repeat split; simpl; try (exists []; symmetry; apply app_nil_r); auto; lia.
Qed.

Lemma extends_get_ssa_reg s : extends s (get_ssa_reg s).2.
Proof.
  repeat split; simpl; try (exists []; symmetry; apply app_nil_r); auto; lia.
Qed.

Lemma emit_expr_extends e s r s' :
  emit_expr e s = Ok (r, s') → extends s s' ∧ names s' = names s.
Proof.
  revert s r s'. induction e as [l IHl op rr IHr | n | id | | |]; intros s r s' H; simpl in H;
    try discriminate H.
  - bind_case H. destruct a as [lhs s1]. bind_case H. destruct a as [rhs s2].
    apply IHl in E as [Hx1 Hn1]. apply IHr in E0 as [Hx2 Hn2].
    bind_case H. injection H as <- <-. split.
    + eapply extends_trans; [exact Hx1 |]. eapply extends_trans; [exact Hx2 |].
      eapply extends_trans; [apply extends_get_ssa_reg | apply extends_append].
    + simpl. congruence.
  - destruct (constants s !! n) as [r0 |] eqn:Hc.
    + injection H as <- <-. split; [apply extends_refl | reflexivity].
    + injection H as <- <-. split; [| reflexivity].
      repeat split; simpl; eauto; try lia.
      * exists []. symmetry. apply app_nil_r.
      * intros n' r' Hn'. rewrite lookup_insert_ne; [exact Hn' | congruence].
  - destruct (names s !! id); [| discriminate H].
    injection H as <- <-. split; [apply extends_refl | reflexivity].
Qed.

Lemma bind_targets_extends targets output s s' :
  bind_targets targets output s = Ok s' → extends s s'.
Proof.
  revert s. induction targets as [| target targets IH]; intros s H; simpl in H.
  - injection H as <-. apply extends_refl.
  - destruct target; try discriminate H.
    eapply extends_trans; [apply extends_set_name | apply IH, H].
Qed.

Lemma emit_extends node s s' : emit node s = Ok s' → extends s s'.
Proof.
  intros H. destruct node as [targets value | [value |] | names | | | | |];
    simpl in H; try discriminate H.
  - bind_case H. destruct a as [output s1].
    apply emit_expr_extends in E as [Hx _].
    eapply extends_trans; [exact Hx | eapply bind_targets_extends, H].
  - bind_case H. destruct a as [v s1]. injection H as <-.
    apply emit_expr_extends in E as [Hx _].
    eapply extends_trans; [exact Hx | apply extends_append].
  - injection H as <-. apply extends_refl.
Qed.

Lemma emit_body_extends body s s' : emit_body body s = Ok s' → extends s s'.
Proof.
  revert s. induction body as [| node body IH]; intros s H; simpl in H.
  - injection H as <-. apply extends_refl.
  - bind_case H. apply emit_extends in E.
    destruct (is_return node).
    + injection H as <-. exact E.
    + eapply extends_trans; [exact E | apply IH, H].
Qed.

End BuilderFrame.

(** ** An empty Data Table *)

Section EmptyData.

Import ASTCompiler.

Lemma add_globals_frame names s :
  let s' := foldl (fun s name => snd (add_global name s)) s names in
  program s' = program s ∧ next_ssa_reg s' = next_ssa_reg s ∧
  constants s' = constants s.
Proof.
  revert s. induction names as [| name names IH]; intros s; simpl; [auto |].
  destruct (IH (add_global name s).2) as (Hp & Hn & Hc).
  simpl in *. rewrite Hp, Hn, Hc. auto.
Qed.

Lemma declare_globals_frame body s :
  program (declare_globals body s) = program s ∧
  next_ssa_reg (declare_globals body s) = next_ssa_reg s ∧
  constants (declare_globals body s) = constants s.
Proof.
  revert s. induction body as [| node body IH]; intros s; simpl; [auto |].
  destruct node; try apply IH.
  destruct (IH (foldl (fun s name => snd (add_global name s)) s names0))
    as (Hp & Hn & Hc).
  destruct (add_globals_frame names0 s) as (Hp' & Hn' & Hc').
  simpl in *. rewrite Hp, Hn, Hc. auto.
Qed.

Lemma declare_globals_none body s :
  global_names body = [] → declare_globals body s = s.
Proof.
  revert s. induction body as [| node body IH]; intros s H; simpl; [reflexivity |].
  unfold global_names in H. simpl in H. apply app_eq_nil in H as [Hn Hb].
  destruct node; try (apply IH; exact Hb).
  subst names0. simpl. apply IH. exact Hb.
Qed.

Lemma emit_expr_no_literals e s r s' :
  expr_literals e = [] → emit_expr e s = Ok (r, s') → data s' = data s.
Proof.
  revert s r s'. induction e as [l IHl op rr IHr | n | id | | |];
    intros s r s' Hlit H; simpl in H; try discriminate.
  - simpl in Hlit. apply app_eq_nil in Hlit as [Hl Hr].
    bind_case H. destruct a as [lhs s1]. bind_case H. destruct a as [rhs s2].
    bind_case H. injection H as <- <-. simpl.
    rewrite (IHr _ _ _ Hr E0). apply (IHl _ _ _ Hl E).
  - destruct (names s !! id); [| discriminate]. injection H as <- <-. reflexivity.
Qed.

Lemma bind_targets_data targets output s s' :
  bind_targets targets output s = Ok s' → data s' = data s.
Proof.
  revert s. induction targets as [| target targets IH]; intros s H; simpl in H.
  - injection H as <-. reflexivity.
  - destruct target; try discriminate. apply IH in H. exact H.
Qed.

Lemma emit_no_literals node s s' :
  stmt_literals node = [] → emit node s = Ok s' → data s' = data s.
Proof.
  intros Hlit H. destruct node as [targets value | [value |] | names | | | | |];
    simpl in H; try discriminate.
  - bind_case H. destruct a as [output s1].
    rewrite (bind_targets_data _ _ _ _ H). eapply emit_expr_no_literals; eauto.
  - bind_case H. destruct a as [v s1]. injection H as <-. simpl.
    eapply emit_expr_no_literals; eauto.
  - injection H as <-. reflexivity.
Qed.

Lemma emit_body_no_literals body s s' :
  body_literals body = [] → emit_body body s = Ok s' → data s' = data s.
Proof.
  revert s. induction body as [| node body IH]; intros s Hlit H; simpl in H.
  - injection H as <-. reflexivity.
  - unfold body_literals in Hlit. simpl in Hlit.
    apply app_eq_nil in Hlit as [Hn Hb].
    bind_case H. apply (emit_no_literals _ _ _ Hn) in E.
    destruct (is_return node).
    + injection H as <-. exact E.
    + rewrite (IH _ Hb H). exact E.
Qed.

(** The program the builder returns always opens with the input
    instruction, which defines the first SSA register. *)
Lemma build_ir_head arg body s :
  build_ir arg body = Ok s →
  ∃ rest, program s = mkIsn InputIsn None [] [-1] :: rest.
Proof.
  unfold build_ir. intros H. apply emit_body_extends in H as ([added Hp] & _).
  destruct (declare_globals_frame body init) as (Hp0 & Hn0 & _).
  unfold input in Hp. simpl in Hp. rewrite Hp0, Hn0 in Hp. simpl in Hp.
  exists added. exact Hp.
Qed.

Lemma build_ir_empty_data arg body s :
  global_names body = [] → body_literals body = [] →
  build_ir arg body = Ok s → data s = [].
Proof.
  unfold build_ir. intros Hg Hl H.
  rewrite (declare_globals_none _ _ Hg) in H.
  apply (emit_body_no_literals _ _ _ Hl) in H. exact H.
Qed.

End EmptyData.

(** C10.  When the function declares no globals and holds no numeric
    literal, the Data Table the builder returns is empty, the scheduler
    starts with an empty set of used registers, and scheduling the input
    instruction (the first instruction of every program, and one with an
    output) raises the [ValueError] of [max] over that empty set in
    [allocate_register]; [compile] ends in that exception whatever the
    target and the fuel. *)
Theorem compile_empty_data_fails (fuel : nat) (processor : Processor.t)
    (arg : string) (body : list stmt) (ir : ASTCompiler.t) :
  global_names body = [] →
  body_literals body = [] →
  build_ir arg body = Ok ir →
  let s := Scheduler.init processor
             (Z.of_nat (length (ASTCompiler.data ir))) (ASTCompiler.program ir) in
  ASTCompiler.data ir = [] ∧
  Scheduler.used_registers s = ∅ ∧
  Scheduler.allocate_register s = Raise ValueError ∧
  (∃ rest, ASTCompiler.program ir = mkIsn InputIsn None [] [-1] :: rest ∧
           Scheduler.schedule_one (mkIsn InputIsn None [] [-1]) s = Raise ValueError) ∧
  compile (S fuel) processor arg body = Some (Raise ValueError).
Proof.
  intros Hg Hl Hir s.
  pose proof (build_ir_empty_data _ _ _ Hg Hl Hir) as Hdata.
  destruct (build_ir_head _ _ _ Hir) as [rest Hprog].
  assert (Hs : s = Scheduler.init processor 0
                     (mkIsn InputIsn None [] [-1] :: rest)).
  { subst s. rewrite Hdata, Hprog. reflexivity. }
  clearbody s.
  assert (Hused : Scheduler.used_registers s = ∅) by (subst s; reflexivity).
  assert (Halloc : ∀ s0, Scheduler.used_registers s0 = ∅ →
                         Scheduler.allocate_register s0 = Raise ValueError).
  { intros s0 H0. unfold Scheduler.allocate_register.
    rewrite H0, elements_empty. reflexivity. }
  assert (Hone : Scheduler.schedule_one (mkIsn InputIsn None [] [-1]) s
                 = Raise ValueError).
  { unfold Scheduler.schedule_one, Scheduler.find_inputs. subst s. simpl.
    rewrite lookup_empty. simpl.
    rewrite Halloc; reflexivity. }
  split; [exact Hdata |]. split; [exact Hused |].
  split; [apply Halloc, Hused |]. split; [exists rest; auto |].
  unfold compile. rewrite Hir, Hdata, Hprog. simpl length.
  change (Z.of_nat 0) with 0. rewrite <- Hs.
  assert (Hloop : Scheduler.schedule_loop (S fuel) s = Some (Raise ValueError)).
  { assert (Hrem : Scheduler.remaining s = mkIsn InputIsn None [] [-1] :: rest)
      by (subst s; reflexivity).
    cbn [Scheduler.schedule_loop]. rewrite Hrem.
    cbn [Scheduler.scan]. rewrite Hone. reflexivity. }
  unfold Scheduler.schedule. rewrite Hloop. reflexivity.
Qed.

(** [def f(x): return x] is such a function. *)
Lemma compile_empty_data_fails_witness :
  compile 1 default_processor "x" identity_example = Some (Raise ValueError).
Proof.
  refine (proj2 (proj2 (proj2 (proj2
    (compile_empty_data_fails 0 default_processor "x" identity_example
       {| ASTCompiler.program :=
            [mkIsn InputIsn None [] [-1]; mkIsn OutputIsn None [-1] []];
          ASTCompiler.data := [];
          ASTCompiler.next_ssa_reg := -2;
          ASTCompiler.constants := ∅;
          ASTCompiler.names := {[ "x" := -1 ]};
          ASTCompiler.globals := ∅ |} _ _ _))))); reflexivity.
Defined.

(** ** Declared globals *)

(** C2 (as amended).  Declaring a global reserves the next Data Table slot,
    zero-initialised, records it in the globals map and binds the name to
    it, so a reference before any assignment reads that slot.  An
    assignment to the global only rebinds the name to the reference of the
    assigned value: it emits no instruction of its own, stores nothing and
    leaves the globals map alone, and later references read the new
    binding.  For [global g; g = x + 1; return g + g] the slot of [g] is 0
    and stays 0 in the data image; both operands of [g + g] read the same
    physical register 2, the one [x + 1] retires into, and the scheduled
    program is as listed. *)
Theorem global_assignment_rebinds :
  (∀ (s : ASTCompiler.t) (g : string),
     let '(r, s') := ASTCompiler.add_global g s in
     r = Z.of_nat (length (ASTCompiler.data s)) ∧
     ASTCompiler.data s' = ASTCompiler.data s ++ [0] ∧
     ASTCompiler.globals s' !! g = Some r ∧
     ASTCompiler.emit_expr (Name g) s' = Ok (r, s')) ∧
  (∀ (s s' : ASTCompiler.t) (g : string) (v : expr),
     ASTCompiler.emit (Assign [Name g] v) s = Ok s' →
     ∃ r s1, ASTCompiler.emit_expr v s = Ok (r, s1) ∧
             ASTCompiler.names s' !! g = Some r ∧
             ASTCompiler.emit_expr (Name g) s' = Ok (r, s') ∧
             ASTCompiler.program s' = ASTCompiler.program s1 ∧
             ASTCompiler.data s' = ASTCompiler.data s1 ∧
             ASTCompiler.globals s' = ASTCompiler.globals s) ∧
  (∃ ir, build_ir "x" global_example = Ok ir ∧
         ASTCompiler.globals ir !! "g" = Some 0 ∧
         ASTCompiler.names ir !! "g" = Some (-2) ∧
         ASTCompiler.data ir = [0; 1] ∧
         ASTCompiler.program ir =
           [mkIsn InputIsn None [] [-1]; mkIsn AddIsn None [-1; 1] [-2];
            mkIsn AddIsn None [-2; -2] [-3]; mkIsn OutputIsn None [-3] []]) ∧
  (∀ n : nat,
     ∃ cp, compile (10 + n) default_processor "x" global_example = Some (Ok cp) ∧
           CompiledProgram.globals cp !! "g" = Some 0 ∧
           CompiledProgram.data cp = [0; 1; 0] ∧
           CompiledProgram.program cp =
             [mkIsn InputIsn None [] []; Scheduler.nop;
              mkIsn AddIsn None [2; 1] []; Scheduler.nop; Scheduler.nop;
              mkIsn AddIsn None [2; 2] []; Scheduler.nop; Scheduler.nop;
              mkIsn OutputIsn None [2] []] ∧
           CompiledProgram.exits cp = {[ 1%nat := 2; 4%nat := 2; 7%nat := 2 ]}).
Proof.
  split; [| split; [| split]].
  - intros s g. simpl. repeat split.
    + apply lookup_insert_eq.
    + rewrite lookup_insert_eq. reflexivity.
  - intros s s' g v H. simpl in H. bind_case H. destruct a as [r s1].
    injection H as <-. exists r, s1. simpl.
    rewrite lookup_insert_eq.
    pose proof (emit_expr_extends _ _ _ _ E) as [(_ & _ & _ & _ & Hg) _].
    repeat split; auto.
  - eexists. split; [vm_compute; reflexivity |]. repeat split.
  - intros n. eexists. split.
    + apply (compile_mono 10); [vm_compute; reflexivity | lia].
    + repeat split; vm_compute; reflexivity.
Qed.

(** The assignment of the example, from the state the builder has reached
    when it meets it. *)
Lemma global_assignment_rebinds_witness :
  let s := ASTCompiler.input "x" (declare_globals global_example ASTCompiler.init) in
  let v := BinOp (Name "x") Add (Num 1) in
  ∃ s', ASTCompiler.emit (Assign [Name "g"] v) s = Ok s' ∧
  ∃ r s1, ASTCompiler.emit_expr v s = Ok (r, s1) ∧
          ASTCompiler.names s' !! "g" = Some r ∧
          ASTCompiler.emit_expr (Name "g") s' = Ok (r, s') ∧
          ASTCompiler.program s' = ASTCompiler.program s1 ∧
          ASTCompiler.data s' = ASTCompiler.data s1 ∧
          ASTCompiler.globals s' = ASTCompiler.globals s.
Proof.
  intros s v. eexists. split; [vm_compute; reflexivity |].
  apply (proj1 (proj2 global_assignment_rebinds)). vm_compute. reflexivity.
Defined.

(** The claim as worded fails on the example: the compiled program never
    writes the slot reserved for [g] and never reads it. *)
Lemma global_example_slot_counterexample :
  ∃ cp, compile 10 default_processor "x" global_example = Some (Ok cp) ∧
        CompiledProgram.globals cp !! "g" = Some 0 ∧
        ¬ stores_to cp 0 ∧ ¬ reads_from cp 0.
Proof.
  eexists. split; [vm_compute; reflexivity |].
  split; [vm_compute; reflexivity |]. split.
  - intros [cycle H]. simpl in H.
    assert (Hex : ∀ c r, ({[ 1%nat := 2; 4%nat := 2; 7%nat := 2 ]} : gmap nat Z) !! c = Some r → r = 2).
    { intros c r Hc.
      apply lookup_insert_Some in Hc as [[_ ?] | [_ Hc]]; [congruence |].
      apply lookup_insert_Some in Hc as [[_ ?] | [_ Hc]]; [congruence |].
      apply lookup_singleton_Some in Hc as [_ ?]. congruence. }
    apply (Hex cycle 0) in H. discriminate H.
  - intros (isn & Hin & H0).
    apply list_elem_of_In in Hin. apply list_elem_of_In in H0.
    vm_compute in Hin.
    repeat (destruct Hin as [<- | Hin];
            [vm_compute in H0; intuition discriminate |]).
    exact Hin.
Qed.

(** ** Constant interning *)

Section Interning.

Import ASTCompiler.

Lemma emit_num_total s n :
  ∃ r s', emit_expr (Num n) s = Ok (r, s') ∧
          program s' = program s ∧ constants s' !! n = Some r ∧
          match constants s !! n with
          | Some r0 => r = r0 ∧ s' = s
          | None => r = Z.of_nat (length (data s)) ∧ data s' = data s ++ [n]
          end.
Proof.
  simpl. destruct (constants s !! n) as [r0 |] eqn:Hc.
  - exists r0, s. auto.
  - eexists _, _. split; [reflexivity |]. simpl.
    rewrite lookup_insert_eq. auto.
Qed.

(** After a walk that met the literal, the constants map holds the slot the
    occurrence was resolved to. *)
Lemma expr_resolves_interned s e n r v s' :
  expr_resolves s e n r → emit_expr e s = Ok (v, s') →
  constants s' !! n = Some r.
Proof.
  intros Hres. revert v s'.
  induction Hres as [s n r s1 Hnum | s l op rr n r Hres IH
                    | s l op rr n r lhs s1 Hl Hres IH]; intros v s' H.
  - rewrite Hnum in H. injection H as <- <-.
    destruct (emit_num_total s n) as (r' & s2 & He & _ & Hc & _).
    rewrite Hnum in He. injection He as <- <-. exact Hc.
  - simpl in H. bind_case H. destruct a as [lhs s1].
    bind_case H. destruct a as [rhs s2]. bind_case H. injection H as <- <-.
    simpl. apply emit_expr_extends in E0 as [(_ & _ & _ & Hc & _) _].
    apply Hc. eapply IH. reflexivity.
  - simpl in H. rewrite Hl in H. simpl in H.
    bind_case H. destruct a as [rhs s2]. bind_case H. injection H as <- <-.
    simpl. eapply IH. reflexivity.
Qed.

(** A literal that is interned before the walk resolves to its slot at
    every occurrence. *)
Lemma expr_resolves_reuses s e n r r0 :
  expr_resolves s e n r → constants s !! n = Some r0 → r = r0.
Proof.
  intros Hres. induction Hres as [s n r s1 Hnum | s l op rr n r Hres IH
                                 | s l op rr n r lhs s1 Hl Hres IH]; intros Hc.
  - simpl in Hnum. rewrite Hc in Hnum. congruence.
  - auto.
  - apply IH. apply emit_expr_extends in Hl as [(_ & _ & _ & Hmono & _) _]. auto.
Qed.

Lemma expr_resolves_same s e n r1 r2 :
  expr_resolves s e n r1 → expr_resolves s e n r2 → r1 = r2.
Proof.
  revert s. induction e as [l IHl op rr IHr | m | id | | |]; intros s H1 H2;
    inversion H1; subst; inversion H2; subst.
  - eauto.
  - symmetry. eapply expr_resolves_reuses; [eassumption |].
    eapply expr_resolves_interned; eassumption.
  - eapply expr_resolves_reuses; [eassumption |].
    eapply expr_resolves_interned; eassumption.
  - match goal with
    | Ha : emit_expr l s = _, Hb : emit_expr l s = _ |- _ =>
        rewrite Ha in Hb; injection Hb as <- <-
    end. eauto.
  - congruence.
Qed.

Lemma stmt_resolves_interned s node n r s' :
  stmt_resolves s node n r → emit node s = Ok s' →
  constants s' !! n = Some r.
Proof.
  intros Hres H. destruct Hres as [targets value n r Hres | value n r Hres];
    simpl in H; bind_case H; destruct a as [v s1].
  - apply bind_targets_extends in H as (_ & _ & _ & Hc & _).
    apply Hc. eapply expr_resolves_interned; eassumption.
  - injection H as <-. simpl. eapply expr_resolves_interned; eassumption.
Qed.

Lemma stmt_resolves_reuses s node n r r0 :
  stmt_resolves s node n r → constants s !! n = Some r0 → r = r0.
Proof. intros [? ? ? ? Hres | ? ? ? Hres]; eapply expr_resolves_reuses; exact Hres. Qed.

Lemma stmt_resolves_same s node n r1 r2 :
  stmt_resolves s node n r1 → stmt_resolves s node n r2 → r1 = r2.
Proof.
  intros H1 H2. inversion H1; subst; inversion H2; subst;
    eapply expr_resolves_same; eassumption.
Qed.

Lemma body_resolves_reuses s body n r r0 :
  body_resolves s body n r → constants s !! n = Some r0 → r = r0.
Proof.
  intros Hres. induction Hres as [s node body n r Hst
                                 | s node body n r s1 He Hret Hres IH]; intros Hc.
  - eapply stmt_resolves_reuses; eassumption.
  - apply IH. apply emit_extends in He as (_ & _ & _ & Hmono & _). auto.
Qed.

Lemma body_resolves_same s body n r1 r2 :
  body_resolves s body n r1 → body_resolves s body n r2 → r1 = r2.
Proof.
  revert s. induction body as [| node body IH]; intros s H1 H2;
    inversion H1; subst; inversion H2; subst.
  - eapply stmt_resolves_same; eassumption.
  - symmetry. eapply body_resolves_reuses; [eassumption |].
    eapply stmt_resolves_interned; eassumption.
  - eapply body_resolves_reuses; [eassumption |].
    eapply stmt_resolves_interned; eassumption.
  - match goal with
    | Ha : emit node s = _, Hb : emit node s = _ |- _ =>
        rewrite Ha in Hb; injection Hb as <-
    end. eauto.
Qed.

End Interning.

Section InternedData.

Import ASTCompiler.

Lemma constants_in_data_add_globals names s :
  constants_in_data s →
  constants_in_data (foldl (fun s name => snd (add_global name s)) s names).
Proof.
  revert s. induction names as [| name names IH]; intros s Hs; simpl; [exact Hs |].
  apply IH. intros n r Hc. simpl in Hc. destruct (Hs n r Hc) as [H0 Hd].
  split; [exact H0 |]. simpl. apply lookup_app_l_Some. exact Hd.
Qed.

Lemma constants_in_data_declare body s :
  constants_in_data s → constants_in_data (declare_globals body s).
Proof.
  revert s. induction body as [| node body IH]; intros s Hs; simpl; [exact Hs |].
  destruct node; try (apply IH; exact Hs).
  apply IH, constants_in_data_add_globals, Hs.
Qed.

Lemma constants_in_data_emit_expr e s r s' :
  emit_expr e s = Ok (r, s') → constants_in_data s → constants_in_data s'.
Proof.
  revert s r s'. induction e as [l IHl op rr IHr | n | id | | |];
    intros s r s' H Hs; simpl in H; try discriminate.
  - bind_case H. destruct a as [lhs s1]. bind_case H. destruct a as [rhs s2].
    bind_case H. injection H as <- <-.
    apply (IHl _ _ _ E) in Hs. apply (IHr _ _ _ E0) in Hs. exact Hs.
  - destruct (constants s !! n) as [r0 |] eqn:Hc.
    + injection H as <- <-. exact Hs.
    + injection H as <- <-. intros m q Hm. simpl in *.
      apply lookup_insert_Some in Hm as [[-> <-] | [Hne Hm]].
      * split; [lia |]. rewrite Nat2Z.id.
        rewrite lookup_app_r by lia. rewrite Nat.sub_diag. reflexivity.
      * destruct (Hs m q Hm) as [H0 Hd]. split; [exact H0 |].
        apply lookup_app_l_Some. exact Hd.
  - destruct (names s !! id); [| discriminate]. injection H as <- <-. exact Hs.
Qed.

Lemma constants_in_data_bind_targets targets output s s' :
  bind_targets targets output s = Ok s' →
  constants_in_data s → constants_in_data s'.
Proof.
  revert s. induction targets as [| target targets IH]; intros s H Hs; simpl in H.
  - injection H as <-. exact Hs.
  - destruct target; try discriminate. eapply IH; [exact H |]. exact Hs.
Qed.

Lemma constants_in_data_emit node s s' :
  emit node s = Ok s' → constants_in_data s → constants_in_data s'.
Proof.
  intros H Hs. destruct node as [targets value | [value |] | names | | | | |];
    simpl in H; try discriminate.
  - bind_case H. destruct a as [output s1].
    eapply constants_in_data_bind_targets; [exact H |].
    eapply constants_in_data_emit_expr; eassumption.
  - bind_case H. destruct a as [v s1]. injection H as <-.
    apply (constants_in_data_emit_expr _ _ _ _ E) in Hs. exact Hs.
  - injection H as <-. exact Hs.
Qed.

Lemma constants_in_data_emit_body body s s' :
  emit_body body s = Ok s' → constants_in_data s → constants_in_data s'.
Proof.
  revert s. induction body as [| node body IH]; intros s H Hs; simpl in H.
  - injection H as <-. exact Hs.
  - bind_case H. apply (constants_in_data_emit _ _ _ E) in Hs.
    destruct (is_return node).
    + injection H as <-. exact Hs.
    + eapply IH; eassumption.
Qed.

Lemma build_ir_constants_in_data arg body ir :
  build_ir arg body = Ok ir → constants_in_data ir.
Proof.
  unfold build_ir. intros H. eapply constants_in_data_emit_body; [exact H |].
  assert (Hd : constants_in_data (declare_globals body init)).
  { apply constants_in_data_declare. intros n r Hc. simpl in Hc.
    rewrite lookup_empty in Hc. discriminate. }
  exact Hd.
Qed.

Lemma body_resolves_interned s body n r s' :
  body_resolves s body n r → emit_body body s = Ok s' →
  constants s' !! n = Some r.
Proof.
  intros Hres. revert s'.
  induction Hres as [s node body n r Hst | s node body n r s1 He Hret Hres IH];
    intros s' H; simpl in H.
  - bind_case H. pose proof (stmt_resolves_interned _ _ _ _ _ Hst E) as Hc.
    destruct (is_return node).
    + injection H as <-. exact Hc.
    + apply emit_body_extends in H as (_ & _ & _ & Hmono & _). auto.
  - rewrite He in H. simpl in H. rewrite Hret in H. auto.
Qed.

End InternedData.

(** C7.  A numeric literal always resolves, and without emitting an
    instruction: the first occurrence of a value takes the next Data Table
    slot and stores the value there, an occurrence of a value that is
    already interned returns the recorded slot and changes nothing.  Any two
    occurrences of the same literal value met by one walk of a function body
    resolve to the same slot, and when the walk succeeds that slot of the
    returned Data Table holds the value. *)
Theorem constant_interning :
  (∀ (s : ASTCompiler.t) (n : Z),
     ∃ r s', ASTCompiler.emit_expr (Num n) s = Ok (r, s') ∧
             ASTCompiler.program s' = ASTCompiler.program s ∧
             ASTCompiler.constants s' !! n = Some r ∧
             match ASTCompiler.constants s !! n with
             | Some r0 => r = r0 ∧ s' = s
             | None => r = Z.of_nat (length (ASTCompiler.data s)) ∧
                       ASTCompiler.data s' = ASTCompiler.data s ++ [n]
             end) ∧
  (∀ (arg : string) (body : list stmt) (n r1 r2 : Z),
     let s0 := ASTCompiler.input arg (declare_globals body ASTCompiler.init) in
     body_resolves s0 body n r1 → body_resolves s0 body n r2 → r1 = r2) ∧
  (∀ (arg : string) (body : list stmt) (ir : ASTCompiler.t) (n r : Z),
     let s0 := ASTCompiler.input arg (declare_globals body ASTCompiler.init) in
     build_ir arg body = Ok ir → body_resolves s0 body n r →
     0 ≤ r ∧ ASTCompiler.data ir !! Z.to_nat r = Some n).
Proof.
  split; [exact emit_num_total |]. split.
  - intros arg body n r1 r2 s0. apply body_resolves_same.
  - intros arg body ir n r s0 Hir Hres.
    apply (build_ir_constants_in_data _ _ _ Hir).
    eapply body_resolves_interned; [exact Hres |]. exact Hir.
Qed.

(** The two literals of [a = 2 + 2] share slot 0, which holds 2. *)
Lemma constant_interning_witness :
  let s0 := ASTCompiler.input "x"
              (declare_globals equal_literals_example ASTCompiler.init) in
  ∃ r1 r2 ir,
    body_resolves s0 equal_literals_example 2 r1 ∧
    body_resolves s0 equal_literals_example 2 r2 ∧
    build_ir "x" equal_literals_example = Ok ir ∧
    r1 = r2 ∧ r1 = 0 ∧ ASTCompiler.data ir = [2] ∧
    ASTCompiler.data ir !! Z.to_nat r1 = Some 2.
Proof.
  intros s0.
  assert (H1 : body_resolves s0 equal_literals_example 2 0).
  { apply resolves_here, resolves_assign, resolves_left.
    eapply resolves_num. vm_compute. reflexivity. }
  assert (H2 : body_resolves s0 equal_literals_example 2 0).
  { apply resolves_here, resolves_assign.
    eapply resolves_right; [vm_compute; reflexivity |].
    eapply resolves_num. vm_compute. reflexivity. }
  exists 0, 0. eexists. split; [exact H1 |]. split; [exact H2 |].
  split; [vm_compute; reflexivity |].
  split; [exact (proj1 (proj2 constant_interning) "x" equal_literals_example 2 0 0 H1 H2) |].
  split; [reflexivity |]. split; [reflexivity |].
  apply (proj2 (proj2 constant_interning) "x" equal_literals_example _ 2 0);
    [vm_compute; reflexivity | exact H1].
Defined.

(** ** Single static assignment of the IR *)

Section SSA.

Import ASTCompiler.

Lemma producers_app r p q : producers r (p ++ q) = producers r p ++ producers r q.
Proof. unfold producers. apply filter_app. Qed.

Lemma producers_elem r prog :
  (0 < length (producers r prog))%nat → ∃ q, q ∈ prog ∧ r ∈ outputs q.
Proof.
  unfold producers. intros H.
  destruct (filter _ prog) as [| q l] eqn:Hf; [simpl in H; lia |].
  assert (Hq : q ∈ filter (fun isn => r ∈ outputs isn) prog) by (rewrite Hf; left).
  apply list_elem_of_filter in Hq as [Hr Hq]. exists q. auto.
Qed.

Lemma elem_producers r prog q :
  q ∈ prog → r ∈ outputs q → (0 < length (producers r prog))%nat.
Proof.
  intros Hq Hr.
  assert (Hin : q ∈ producers r prog).
  { apply (list_elem_of_filter (fun isn => r ∈ outputs isn)). auto. }
  destruct (producers r prog); [inversion Hin | simpl; lia].
Qed.

Lemma def_before_use_snoc prog i :
  def_before_use prog →
  (∀ inp, inp ∈ inputs i → inp < 0 → ∃ q, q ∈ prog ∧ inp ∈ outputs q) →
  def_before_use (prog ++ [i]).
Proof.
  intros Hp Hi pre isn post Heq inp Hin Hneg.
  destruct post as [| x post _] using rev_ind.
  - apply app_inj_tail in Heq as [-> ->]. auto.
  - change (pre ++ isn :: post ++ [x]) with (pre ++ (isn :: post) ++ [x]) in Heq.
    rewrite app_assoc in Heq. apply app_inj_tail in Heq as [-> ->].
    eapply Hp; eauto.
Qed.

Ltac ssa_split :=
  unfold ssa_state; refine (conj _ (conj _ (conj _ (conj _ (conj _ _)))));
  cbn [program next_ssa_reg names constants data globals
       append set_name get_ssa_reg add_global snd].

Lemma ssa_state_set_name name r s :
  ssa_state s → (r < 0 → next_ssa_reg s < r) → ssa_state (set_name name r s).
Proof.
  intros (Hn & Hc & Hi & Hnames & Hk & Hd) Hr. ssa_split; auto.
  intros name' r' Hl Hneg.
  apply lookup_insert_Some in Hl as [[_ <-] | [_ Hl]]; eauto.
Qed.

(** Appending an instruction without output. *)
Lemma ssa_state_append_sink c imm ins s :
  ssa_state s → (∀ inp, inp ∈ ins → inp < 0 → next_ssa_reg s < inp) →
  ssa_state (append (mkIsn c imm ins []) s).
Proof.
  intros (Hn & Hc & Hi & Hnames & Hk & Hd) Hins. ssa_split; auto.
  - intros r. rewrite producers_app, length_app, Hc.
    unfold producers. rewrite filter_cons_False, filter_nil; [simpl; lia |].
    simpl. apply not_elem_of_nil.
  - intros isn H. apply elem_of_app in H as [H | H]; [apply Hi, H |].
    apply list_elem_of_singleton in H as ->. simpl. split; [lia | exact Hins].
  - apply def_before_use_snoc; [exact Hd |]. simpl. intros inp Hin Hneg.
    apply producers_elem. rewrite Hc. rewrite decide_True; [lia |].
    split; [apply Hins; assumption | assumption].
Qed.

(** Taking a fresh SSA register and appending the instruction that
    defines it. *)
Lemma ssa_state_append_def c imm ins s :
  ssa_state s → (∀ inp, inp ∈ ins → inp < 0 → next_ssa_reg s < inp) →
  ssa_state (append (mkIsn c imm ins [next_ssa_reg s]) (get_ssa_reg s).2).
Proof.
  intros (Hn & Hc & Hi & Hnames & Hk & Hd) Hins. ssa_split; auto.
  - lia.
  - intros r. rewrite producers_app, length_app, Hc.
    unfold producers. destruct (decide (r = next_ssa_reg s)) as [-> | Hne].
    + rewrite filter_cons_True by (simpl; left). rewrite filter_nil. simpl.
      rewrite decide_False by lia. rewrite decide_True by lia. reflexivity.
    + rewrite filter_cons_False, filter_nil.
      2:{ simpl. intros Hin. apply list_elem_of_singleton in Hin. contradiction. }
      simpl. destruct (decide (next_ssa_reg s < r < 0)).
      * rewrite decide_True by lia. reflexivity.
      * rewrite decide_False by lia. reflexivity.
  - intros isn H. apply elem_of_app in H as [H | H].
    + split; [apply Hi, H |]. intros inp Hin Hneg.
      pose proof (proj2 (Hi isn H) inp Hin Hneg). lia.
    + apply list_elem_of_singleton in H as ->. simpl. split; [lia |].
      intros inp Hin Hneg. pose proof (Hins inp Hin Hneg). lia.
  - intros name r Hl Hneg. pose proof (Hnames name r Hl Hneg). lia.
  - apply def_before_use_snoc; [exact Hd |]. simpl. intros inp Hin Hneg.
    apply producers_elem. rewrite Hc. rewrite decide_True; [lia |].
    split; [apply Hins; assumption | assumption].
Qed.

Lemma emit_expr_ssa e s r s' :
  emit_expr e s = Ok (r, s') → ssa_state s →
  ssa_state s' ∧ (r < 0 → next_ssa_reg s' < r).
Proof.
  revert s r s'. induction e as [l IHl op rr IHr | n | id | | |];
    intros s r s' H Hs; simpl in H; try discriminate.
  - bind_case H. destruct a as [lhs s1]. bind_case H. destruct a as [rhs s2].
    bind_case H. injection H as <- <-.
    destruct (IHl _ _ _ E Hs) as [Hs1 Hlhs].
    destruct (IHr _ _ _ E0 Hs1) as [Hs2 Hrhs].
    pose proof (emit_expr_extends _ _ _ _ E0) as [(_ & _ & Hnext & _) _].
    split.
    + apply ssa_state_append_def; [exact Hs2 |].
      intros inp Hin Hneg. apply elem_of_cons in Hin as [-> | Hin]; [lia |].
      apply list_elem_of_singleton in Hin as ->. auto.
    + simpl. lia.
  - destruct Hs as (Hn & Hc & Hi & Hnames & Hk & Hd).
    destruct (constants s !! n) as [r0 |] eqn:Hcn; injection H as <- <-.
    + split; [ssa_split; auto |].
      intros Hneg. pose proof (Hk n r0 Hcn). lia.
    + split; [| lia]. ssa_split; auto.
      intros m q Hm. apply lookup_insert_Some in Hm as [[_ <-] | [_ Hm]]; [lia | eauto].
  - destruct (names s !! id) as [r0 |] eqn:Hid; [| discriminate].
    injection H as <- <-. split; [exact Hs |].
    destruct Hs as (_ & _ & _ & Hnames & _). eauto.
Qed.

Lemma bind_targets_ssa targets output s s' :
  bind_targets targets output s = Ok s' → ssa_state s →
  (output < 0 → next_ssa_reg s < output) → ssa_state s'.
Proof.
  revert s. induction targets as [| target targets IH]; intros s H Hs Ho; simpl in H.
  - injection H as <-. exact Hs.
  - destruct target; try discriminate.
    eapply IH; [exact H | apply ssa_state_set_name; assumption | exact Ho].
Qed.

Lemma emit_ssa node s s' : emit node s = Ok s' → ssa_state s → ssa_state s'.
Proof.
  intros H Hs. destruct node as [targets value | [value |] | names | | | | |];
    simpl in H; try discriminate.
  - bind_case H. destruct a as [output s1].
    destruct (emit_expr_ssa _ _ _ _ E Hs) as [Hs1 Ho].
    eapply bind_targets_ssa; eassumption.
  - bind_case H. destruct a as [v s1]. injection H as <-.
    destruct (emit_expr_ssa _ _ _ _ E Hs) as [Hs1 Ho].
    apply ssa_state_append_sink; [exact Hs1 |].
    intros inp Hin Hneg. apply list_elem_of_singleton in Hin as ->. auto.
  - injection H as <-. exact Hs.
Qed.

Lemma emit_body_ssa body s s' : emit_body body s = Ok s' → ssa_state s → ssa_state s'.
Proof.
  revert s. induction body as [| node body IH]; intros s H Hs; simpl in H.
  - injection H as <-. exact Hs.
  - bind_case H. apply (emit_ssa _ _ _ E) in Hs.
    destruct (is_return node).
    + injection H as <-. exact Hs.
    + eapply IH; eassumption.
Qed.

Lemma add_globals_ssa names s :
  ssa_state s → ssa_state (foldl (fun s name => snd (add_global name s)) s names).
Proof.
  revert s. induction names as [| name names IH]; intros s Hs; simpl; [exact Hs |].
  apply IH. destruct Hs as (Hn & Hc & Hi & Hnames & Hk & Hd).
  ssa_split; auto.
  intros name' r' Hl Hneg.
  apply lookup_insert_Some in Hl as [[_ <-] | [_ Hl]]; [lia | eauto].
Qed.

Lemma declare_globals_ssa body s : ssa_state s → ssa_state (declare_globals body s).
Proof.
  revert s. induction body as [| node body IH]; intros s Hs; simpl; [exact Hs |].
  destruct node; try (apply IH; exact Hs). apply IH, add_globals_ssa, Hs.
Qed.

Lemma init_ssa : ssa_state init.
Proof.
  ssa_split; unfold init; cbn [program next_ssa_reg names constants].
  - lia.
  - intros r. rewrite decide_False by lia. reflexivity.
  - intros isn H. inversion H.
  - intros name r H. rewrite lookup_empty in H. discriminate.
  - intros n r H. rewrite lookup_empty in H. discriminate.
  - intros pre isn post Heq. destruct pre; discriminate.
Qed.

Lemma input_ssa name s : ssa_state s → ssa_state (input name s).
Proof.
  intros Hs. unfold input.
  change (ssa_state (set_name name (next_ssa_reg s)
            (append (mkIsn InputIsn None [] [next_ssa_reg s]) (get_ssa_reg s).2))).
  apply ssa_state_set_name.
  - apply ssa_state_append_def; [exact Hs |]. intros inp Hin. inversion Hin.
  - simpl. lia.
Qed.

Lemma build_ir_ssa arg body ir : build_ir arg body = Ok ir → ssa_state ir.
Proof.
  unfold build_ir. intros H. eapply emit_body_ssa; [exact H |].
  apply input_ssa, declare_globals_ssa, init_ssa.
Qed.

End SSA.

(** C6.  In the IR instruction list the builder returns, the SSA registers
    in use are exactly those handed out, the ones strictly between the
    final [next_ssa_reg] and 0; each of them is the output of exactly one
    instruction of the list and no other register is the output of any; so
    every negative register that occurs as an operand or as an output has
    exactly one producer.  No instruction has more than one output. *)
Theorem ssa_uniqueness (arg : string) (body : list stmt) (ir : ASTCompiler.t) :
  build_ir arg body = Ok ir →
  (∀ r, length (producers r (ASTCompiler.program ir)) =
        if decide (ASTCompiler.next_ssa_reg ir < r < 0) then 1%nat else 0%nat) ∧
  (∀ isn r, isn ∈ ASTCompiler.program ir →
            r ∈ inputs isn ∨ r ∈ outputs isn → r < 0 →
            length (producers r (ASTCompiler.program ir)) = 1%nat) ∧
  (∀ isn, isn ∈ ASTCompiler.program ir → (length (outputs isn) ≤ 1)%nat).
Proof.
  intros Hir. destruct (build_ir_ssa _ _ _ Hir) as (Hn & Hc & Hi & Hnames & Hk & Hd).
  split; [exact Hc |]. split.
  - intros isn r Hisn [Hin | Hout] Hneg.
    + rewrite Hc. rewrite decide_True; [reflexivity |].
      split; [| exact Hneg]. exact (proj2 (Hi isn Hisn) r Hin Hneg).
    + pose proof (elem_producers r _ isn Hisn Hout) as Hpos.
      rewrite Hc in Hpos |- *.
      destruct (decide (ASTCompiler.next_ssa_reg ir < r < 0)); [reflexivity | lia].
  - intros isn Hisn. exact (proj1 (Hi isn Hisn)).
Qed.

(** In the IR of [simple_test] the register -2, an operand of the multiply,
    is produced by the add alone. *)
Lemma ssa_uniqueness_witness :
  ∃ ir, build_ir "x" simple_test = Ok ir ∧
        length (producers (-2) (ASTCompiler.program ir)) = 1%nat ∧
        producers (-2) (ASTCompiler.program ir) = [mkIsn AddIsn None [0; 1] [-2]].
Proof.
  eexists. split; [vm_compute; reflexivity |]. split; [| vm_compute; reflexivity].
  refine (proj1 (proj2 (ssa_uniqueness "x" simple_test _ _))
            (mkIsn MulIsn None [-2; 2] [-3]) (-2) _ _ _).
  - vm_compute. reflexivity.
  - apply list_elem_of_In. vm_compute. auto.
  - left. apply list_elem_of_In. vm_compute. auto.
  - lia.
Defined.

(** ** Nodes outside the vocabulary *)

Section Vocabulary.

Import ASTCompiler.

Lemma operator_class op :
  operator_in_vocabulary op = true →
  ∃ c, match op with
       | Add => Ok AddIsn
       | Sub => Ok SubIsn
       | Mult => Ok MulIsn
       | _ => Raise NotImplementedError
       end = Ok c.
Proof. destruct op; simpl; intros H; try discriminate; eauto. Qed.

Lemma operator_no_class op :
  operator_in_vocabulary op = false →
  match op with
  | Add => Ok AddIsn
  | Sub => Ok SubIsn
  | Mult => Ok MulIsn
  | _ => Raise NotImplementedError
  end = Raise NotImplementedError.
Proof. destruct op; simpl; intros H; try discriminate; reflexivity. Qed.

Lemma emit_expr_in_vocabulary e s r s' :
  emit_expr e s = Ok (r, s') → expr_in_vocabulary e = true.
Proof.
  revert s r s'. induction e as [l IHl op rr IHr | n | id | | |];
    intros s r s' H; simpl in H; try discriminate; try reflexivity.
  bind_case H. destruct a as [lhs s1]. bind_case H. destruct a as [rhs s2].
  bind_case H. simpl. rewrite (IHl _ _ _ E), (IHr _ _ _ E0).
  destruct op; try discriminate; reflexivity.
Qed.

Lemma emit_in_vocabulary node s s' :
  emit node s = Ok s' → stmt_in_vocabulary node = true.
Proof.
  intros H. destruct node as [targets value | [value |] | names | | | | |];
    simpl in H; try discriminate; try reflexivity.
  - bind_case H. destruct a. eapply emit_expr_in_vocabulary; eassumption.
  - bind_case H. destruct a. eapply emit_expr_in_vocabulary; eassumption.
Qed.

Lemma emit_body_in_vocabulary body s s' :
  emit_body body s = Ok s' → forallb stmt_in_vocabulary (walked body) = true.
Proof.
  revert s. induction body as [| node body IH]; intros s H; simpl in H |- *;
    [reflexivity |].
  bind_case H. apply emit_in_vocabulary in E.
  destruct (is_return node); simpl; rewrite E; simpl; [reflexivity |].
  eapply IH; eassumption.
Qed.

Lemma expr_hits_raises s e :
  expr_hits s e ↔ emit_expr e s = Raise NotImplementedError.
Proof.
  split.
  - intros H. induction H as [s | s | s | s l op r Hl IH
                             | s l op r lhs s1 El Hr IH
                             | s l op r lhs s1 rhs s2 El Er Hop];
      simpl; try reflexivity.
    + rewrite IH. reflexivity.
    + rewrite El. simpl. rewrite IH. reflexivity.
    + rewrite El. simpl. rewrite Er. simpl.
      rewrite (operator_no_class _ Hop). reflexivity.
  - revert s. induction e as [l IHl op rr IHr | n | id | | |]; intros s H;
      simpl in H; [| | | apply hits_call | apply hits_ifexp | apply hits_tuple].
    + destruct (emit_expr l s) as [[lhs s1] |] eqn:El; simpl in H.
      2:{ apply hits_left, IHl. congruence. }
      destruct (emit_expr rr s1) as [[rhs s2] |] eqn:Er; simpl in H.
      2:{ eapply hits_right; [exact El |]. apply IHr. congruence. }
      eapply hits_operator; [exact El | exact Er |].
      destruct op; simpl in H; try discriminate; reflexivity.
    + destruct (constants s !! n); discriminate.
    + destruct (names s !! id); discriminate.
Qed.

Lemma bind_targets_not_unsupported targets output s :
  bind_targets targets output s ≠ Raise NotImplementedError.
Proof.
  revert s. induction targets as [| target targets IH]; intros s; simpl;
    [discriminate |].
  destruct target; try discriminate. apply IH.
Qed.

Lemma stmt_hits_raises s node :
  stmt_hits s node ↔ emit node s = Raise NotImplementedError.
Proof.
  split.
  - intros [targets value H | value H | | | | | |]; simpl; try reflexivity;
      apply expr_hits_raises in H; rewrite H; reflexivity.
  - intros H. destruct node as [targets value | [value |] | names | | | | |];
      simpl in H; try discriminate; try constructor.
    + destruct (emit_expr value s) as [[output s1] |] eqn:E; simpl in H.
      * exfalso. eapply bind_targets_not_unsupported. exact H.
      * apply expr_hits_raises. congruence.
    + destruct (emit_expr value s) as [[v s1] |] eqn:E; simpl in H;
        [discriminate |]. apply expr_hits_raises. congruence.
Qed.

Lemma body_hits_raises s body :
  body_hits s body ↔ emit_body body s = Raise NotImplementedError.
Proof.
  split.
  - intros H. induction H as [s node body H | s node body s1 He Hret H IH]; simpl.
    + apply stmt_hits_raises in H. rewrite H. reflexivity.
    + rewrite He. simpl. rewrite Hret. exact IH.
  - revert s. induction body as [| node body IH]; intros s H; simpl in H;
      [discriminate |].
    destruct (emit node s) as [s1 |] eqn:He; simpl in H.
    + destruct (is_return node) eqn:Hret; [discriminate |].
      eapply hits_later; eauto.
    + apply hits_here, stmt_hits_raises. congruence.
Qed.

Lemma bind_targets_names ids output s :
  bind_targets (Name <$> ids) output s =
    Ok (foldl (fun s id => set_name id output s) s ids).
Proof.
  revert s. induction ids as [| id ids IH]; intros s; simpl; [reflexivity |].
  apply IH.
Qed.

End Vocabulary.

(** C9 (as amended).  When the walked part of the body (the statements up
    to and including the first [return]) holds a node outside the
    vocabulary (a loop, a conditional, a call or another statement or
    expression kind [emit] has no branch for, a [return] without value, or
    an operator other than [+], [-], [*]) IR building fails and returns no
    program.  The failure is [NotImplementedError] exactly when the walk
    reaches such a node with everything walked before it built; a name
    without binding or an assignment target that is not a name, met
    earlier, fail with their own error.  An assignment to several names is
    inside the vocabulary: it binds every target to the value. *)
Theorem unsupported_construct_fails :
  (∀ (arg : string) (body : list stmt),
     existsb (fun node => negb (stmt_in_vocabulary node)) (walked body) = true →
     ∃ e, build_ir arg body = Raise e) ∧
  (∀ (arg : string) (body : list stmt),
     body_hits (ASTCompiler.input arg (declare_globals body ASTCompiler.init)) body
     ↔ build_ir arg body = Raise NotImplementedError) ∧
  (∀ (ids : list string) (value : expr) (s : ASTCompiler.t) (output : Z)
     (s1 : ASTCompiler.t),
     ASTCompiler.emit_expr value s = Ok (output, s1) →
     ASTCompiler.emit (Assign (Name <$> ids) value) s =
       Ok (foldl (fun s id => ASTCompiler.set_name id output s) s1 ids)).
Proof.
  split; [| split].
  - intros arg body Hex. destruct (build_ir arg body) as [ir |] eqn:Hir; [| eauto].
    apply emit_body_in_vocabulary in Hir.
    apply existsb_exists in Hex as (node & Hin & Hnode).
    rewrite forallb_forall in Hir. rewrite (Hir node Hin) in Hnode. discriminate.
  - intros arg body. apply body_hits_raises.
  - intros ids value s output s1 H. simpl. rewrite H. simpl.
    apply bind_targets_names.
Qed.

(** A body with a loop as its first statement. *)
Lemma unsupported_construct_fails_witness :
  let body := [While; Return (Some (Name "x"))] in
  (∃ e, build_ir "x" body = Raise e) ∧
  build_ir "x" body = Raise NotImplementedError.
Proof.
  intros body. split.
  - apply (proj1 unsupported_construct_fails "x" body). reflexivity.
  - apply (proj1 (proj2 unsupported_construct_fails) "x" body).
    apply hits_here. constructor.
Defined.

(** The claim as worded fails three ways: a multi-target assignment to
    names builds; a loop placed after the [return] is never walked; and an
    unbound name walked before a call fails with [KeyError] instead. *)
Lemma unsupported_construct_counterexample :
  (let body := [Assign [Name "a"; Name "b"] (Num 5); Return (Some (Name "b"))] in
   existsb listed_as_unsupported body = true ∧
   ∃ ir, build_ir "x" body = Ok ir ∧
         ASTCompiler.program ir =
           [mkIsn InputIsn None [] [-1]; mkIsn OutputIsn None [0] []]) ∧
  (let body := [Return (Some (Name "x")); While] in
   existsb listed_as_unsupported body = true ∧
   ∃ ir, build_ir "x" body = Ok ir) ∧
  (let body := [Return (Some (BinOp (Name "y") Add Call))] in
   existsb listed_as_unsupported body = true ∧
   build_ir "x" body = Raise KeyError ∧
   build_ir "x" body ≠ Raise NotImplementedError).
Proof.
  split; [| split].
  - split; [reflexivity |]. eexists. split; vm_compute; reflexivity.
  - split; [reflexivity |]. eexists. vm_compute. reflexivity.
  - split; [reflexivity |]. split; [vm_compute; reflexivity |].
    vm_compute. discriminate.
Qed.

(** ** Scheduler: one placement *)

Section ScheduleOne.

Import Scheduler.

Lemma same_but_used_refl s : same_but_used s s.
Proof. repeat split. Qed.

Lemma same_but_used_trans s1 s2 s3 :
  same_but_used s1 s2 → same_but_used s2 s3 → same_but_used s1 s3.
Proof.
  intros (? & ? & ? & ? & ? & ?) (? & ? & ? & ? & ? & ?).
  repeat split; congruence.
Qed.

Lemma free_register_frame r s s' : free_register r s = Ok s' → same_but_used s s'.
Proof.
  unfold free_register, assert. intros H.
  destruct (bool_decide _); simpl in H; [| discriminate].
  injection H as <-. repeat split.
Qed.

Lemma free_inputs_frame pairs s s' : free_inputs pairs s = Ok s' → same_but_used s s'.
Proof.
  revert s. induction pairs as [| [inp minp] pairs IH]; intros s H; simpl in H.
  - injection H as <-. apply same_but_used_refl.
  - bind_case H. eapply same_but_used_trans; [| apply IH, H].
    destruct (_ && _).
    + eapply free_register_frame. exact E.
    + injection E as <-. apply same_but_used_refl.
Qed.

Lemma allocate_register_frame s r s' :
  allocate_register s = Ok (r, s') → same_but_used s s'.
Proof.
  unfold allocate_register. intros H. bind_case H. bind_case H.
  injection H as <- <-. repeat split.
Qed.

Lemma schedule_one_inv isn s b s' :
  schedule_one isn s = Ok (b, s') →
  (b = false ∧ s' = s) ∨
  (b = true ∧
   ∃ mapped,
     map_inputs (exits s) (length (output s)) (inputs isn) = Some mapped ∧
     list_remove isn (remaining s) = Ok (remaining s') ∧
     output s' = output s ++ [mkIsn (cls isn) (immediate isn) mapped []] ∧
     processor s' = processor s ∧ reserved_data s' = reserved_data s ∧
     program s' = program s ∧
     ((outputs isn = [] ∧ exits s' = exits s) ∨
      (∃ o lat reg,
         outputs isn = [o] ∧
         Processor.get_instruction_latency (processor s) isn = Ok lat ∧
         exits s !! (length (output s) + lat)%nat = None ∧
         exits s' = <[(length (output s) + lat)%nat := (o, reg)]> (exits s)))).
Proof.
  unfold schedule_one, find_inputs. intros H.
  destruct (map_inputs _ _ _) as [mapped |] eqn:Hmap.
  2:{ injection H as <- <-. left. auto. }
  bind_case_as H Hexit. rename a into exit.
  destruct (match exit with Some e => bool_decide (is_Some (exits s !! e)) | None => false end)
    eqn:Htaken.
  { injection H as <- <-. left. auto. }
  bind_case_as H Hrem. rename a into rem. bind_case_as H Hfree. rename a into s1.
  apply free_inputs_frame in Hfree as (Hp1 & Hr1 & He1 & Hg1 & Hrem1 & Ho1).
  simpl in *. bind_case_as H Hexits. rename a into s2. injection H as <- <-.
  right. split; [reflexivity |]. exists mapped. simpl.
  destruct (outputs isn) as [| o os] eqn:Hout.
  - injection Hexit as <-. injection Hexits as <-.
    repeat split; try congruence. left. split; [reflexivity | congruence].
  - bind_case_as Hexit Hlat. rename a into lat. injection Hexit as <-.
    destruct os as [| o' os]; [| discriminate Hexits].
    simpl in Hexits.
    bind_case_as Hexits Halloc. destruct a as [reg s3]. injection Hexits as <-.
    apply allocate_register_frame in Halloc as (Hp3 & Hr3 & He3 & Hg3 & Hrem3 & Ho3).
    simpl. apply bool_decide_eq_false in Htaken.
    repeat split; try congruence.
    right. exists o, lat, reg. repeat split.
    + destruct (exits s !! (length (output s) + lat)%nat) eqn:Hl; [| reflexivity].
      exfalso. apply Htaken. eauto.
    + congruence.
Qed.

Lemma scan_inv cands s b s' :
  scan cands s = Ok (b, s') →
  (b = false ∧ s' = s) ∨
  (b = true ∧ ∃ isn, isn ∈ cands ∧ schedule_one isn s = Ok (true, s')).
Proof.
  revert s. induction cands as [| isn cands IH]; intros s H; simpl in H.
  - injection H as <- <-. left. auto.
  - bind_case H. destruct a as [[] s1].
    + injection H as <- <-. right. split; [reflexivity |].
      exists isn. split; [left | exact E].
    + apply schedule_one_inv in E as [[_ ->] | [? _]]; [| discriminate].
      apply IH in H as [? | (-> & isn' & Hin & Hone)]; [left; assumption |].
      right. split; [reflexivity |]. exists isn'. split; [right; exact Hin | exact Hone].
Qed.

Lemma list_remove_split isn l l' :
  list_remove isn l = Ok l' →
  ∃ l1 l2, l = l1 ++ isn :: l2 ∧ l' = l1 ++ l2.
Proof.
  revert l'. induction l as [| x l IH]; intros l' H; simpl in H; [discriminate |].
  destruct (decide (x = isn)) as [-> | Hne].
  - injection H as <-. exists [], l. auto.
  - bind_case H. injection H as <-.
    destruct (IH _ eq_refl) as (l1 & l2 & -> & ->).
    exists (x :: l1), l2. auto.
Qed.

Lemma list_remove_elem isn l : isn ∈ l → ∃ l', list_remove isn l = Ok l'.
Proof.
  induction l as [| x l IH]; intros H; [inversion H |]. simpl.
  destruct (decide (x = isn)); [eauto |].
  apply elem_of_cons in H as [-> | H]; [contradiction |].
  destruct (IH H) as [l' ->]. simpl. eauto.
Qed.

Lemma lookup_exit_found e inp cycles rm :
  lookup_exit e inp cycles = Some rm →
  ∃ i, i ∈ cycles ∧ e !! i = Some (inp, rm).
Proof.
  induction cycles as [| i cycles IH]; intros H; simpl in H; [discriminate |].
  destruct (e !! i) as [[r rm'] |] eqn:Hi.
  - destruct (decide (r = inp)) as [-> | Hne].
    + injection H as ->. exists i. split; [left | exact Hi].
    + destruct (IH H) as (j & Hj & He). exists j. split; [right; exact Hj | exact He].
  - destruct (IH H) as (j & Hj & He). exists j. split; [right; exact Hj | exact He].
Qed.

Lemma lookup_exit_exists e inp cycles i rm :
  i ∈ cycles → e !! i = Some (inp, rm) → is_Some (lookup_exit e inp cycles).
Proof.
  induction cycles as [| j cycles IH]; intros Hi He; [inversion Hi |]. simpl.
  apply elem_of_cons in Hi as [<- | Hi].
  - rewrite He. rewrite decide_True by reflexivity. eauto.
  - destruct (e !! j) as [[r rm'] |]; [| auto].
    destruct (decide (r = inp)); [eauto | auto].
Qed.

(** What [find_inputs] returns: the operands in order, non-negative ones
    kept, SSA registers replaced by the register of an exit entry of an
    earlier cycle that carries them. *)
Lemma map_inputs_spec e cycle inps mapped :
  map_inputs e cycle inps = Some mapped →
  length mapped = length inps ∧
  ∀ k inp, inps !! k = Some inp →
    (0 ≤ inp → mapped !! k = Some inp) ∧
    (inp < 0 → ∃ i rm, (i < cycle)%nat ∧ e !! i = Some (inp, rm) ∧
                       mapped !! k = Some rm).
Proof.
  revert mapped. induction inps as [| inp0 inps IH]; intros mapped H; simpl in H.
  - injection H as <-. split; [reflexivity |]. intros k inp Hk. discriminate.
  - assert (Hrest : ∀ m0, (cons m0 <$> map_inputs e cycle inps) = Some mapped →
              ∃ rest, mapped = m0 :: rest ∧ map_inputs e cycle inps = Some rest).
    { intros m0 Hm. destruct (map_inputs e cycle inps) as [rest |]; [| discriminate].
      injection Hm as <-. eauto. }
    destruct (decide (0 ≤ inp0)) as [Hnn | Hneg].
    + destruct (Hrest _ H) as (rest & -> & Hr). destruct (IH _ Hr) as [Hlen Hk].
      split; [simpl; congruence |]. intros [| k] inp Hl; simpl in Hl.
      * injection Hl as <-. split; [reflexivity | lia].
      * apply Hk, Hl.
    + destruct (lookup_exit e inp0 (seq 0 cycle)) as [rm0 |] eqn:Hle; [| discriminate].
      destruct (Hrest _ H) as (rest & -> & Hr). destruct (IH _ Hr) as [Hlen Hk].
      split; [simpl; congruence |]. intros [| k] inp Hl; simpl in Hl.
      * injection Hl as <-. split; [lia |]. intros _.
        apply lookup_exit_found in Hle as (i & Hi & He).
        apply elem_of_seq in Hi. exists i, rm0. split; [lia | auto].
      * apply Hk, Hl.
Qed.

End ScheduleOne.

(** ** Scheduler: the whole loop *)

Section ScheduleLoop.

Import Scheduler.

(** A property kept by every placement and by every stall holds when the
    loop ends, and the working set is empty then. *)
Lemma schedule_loop_invariant (P : t → Prop) :
  (∀ isn s s', P s → isn ∈ remaining s →
               schedule_one isn s = Ok (true, s') → P s') →
  (∀ s, P s → P (append_output nop s)) →
  ∀ fuel s final,
    P s → schedule_loop fuel s = Some (Ok final) →
    P final ∧ remaining final = [].
Proof.
  intros Hplace Hstall. induction fuel as [| fuel IH]; intros s final HP H;
    simpl in H; [discriminate |].
  destruct (remaining s) as [| isn0 rem] eqn:Hrem.
  - injection H as <-. auto.
  - destruct (scan (isn0 :: rem) s) as [[b s1] | e] eqn:Hscan; [| discriminate].
    apply scan_inv in Hscan as [[-> ->] | (-> & isn & Hin & Hone)].
    + eapply IH; [| exact H]. auto.
    + eapply IH; [| exact H]. eapply Hplace; [exact HP | | exact Hone].
      rewrite Hrem. exact Hin.
Qed.

Lemma pad_inv s s' :
  pad s = Ok s' →
  ∃ n, output s' = output s ++ replicate n nop ∧
       exits s' = exits s ∧ program s' = program s ∧
       remaining s' = remaining s ∧ processor s' = processor s ∧
       reserved_data s' = reserved_data s.
Proof.
  unfold pad. intros H. bind_case_as H Hmax. injection H as <-. simpl. eauto 10.
Qed.

Lemma schedule_inv fuel s final :
  schedule fuel s = Some (Ok final) →
  ∃ s1, schedule_loop fuel s = Some (Ok s1) ∧ pad s1 = Ok final.
Proof.
  unfold schedule. intros H.
  destruct (schedule_loop fuel s) as [[s1 | e] |]; simpl in H; try discriminate.
  injection H as H. eauto.
Qed.

Lemma schedule_one_exits_mono isn s b s' i v :
  schedule_one isn s = Ok (b, s') →
  exits s !! i = Some v → exits s' !! i = Some v.
Proof.
  intros H Hi. apply schedule_one_inv in H as [[_ ->] | (_ & mapped & _ & _ & _ & _ & _ & _ & He)];
    [exact Hi |].
  destruct He as [[_ ->] | (o & lat & reg & _ & _ & Hfree & ->)]; [exact Hi |].
  rewrite lookup_insert_ne; [exact Hi |]. intros <-. congruence.
Qed.

Lemma schedule_exits_mono fuel s final i v :
  schedule fuel s = Some (Ok final) →
  exits s !! i = Some v → exits final !! i = Some v.
Proof.
  intros H Hi. apply schedule_inv in H as (s1 & Hloop & Hpad).
  apply pad_inv in Hpad as (n & _ & -> & _).
  refine (proj1 (schedule_loop_invariant (fun s => exits s !! i = Some v)
                   _ _ fuel s s1 Hi Hloop)).
  - intros isn s0 s0' H0 _ Hone. eapply schedule_one_exits_mono; eassumption.
  - intros s0 H0. exact H0.
Qed.

Lemma resolved_from_mono e e' cycle isn placed :
  (∀ i v, e !! i = Some v → e' !! i = Some v) →
  resolved_from e cycle isn placed → resolved_from e' cycle isn placed.
Proof.
  intros Hsub (Hc & Hi & Hl & Hk). repeat split; auto.
  - apply Hk. assumption.
  - intros Hneg. destruct (proj2 (Hk k inp H) Hneg) as (w & rm & Hw & He & Hp).
    exists w, rm. auto.
Qed.

Lemma hazard_free_placement isn s s' :
  hazard_free s → isn ∈ program s →
  schedule_one isn s = Ok (true, s') → hazard_free s'.
Proof.
  intros Hs Hin Hone cycle placed Hl.
  pose proof (schedule_one_exits_mono isn s true s') as Hmono.
  apply schedule_one_inv in Hone as Hinv.
  destruct Hinv as [[? _] | (_ & mapped & Hmap & _ & Hout & _ & _ & Hprog & _)];
    [discriminate |].
  rewrite Hout in Hl. rewrite Hprog.
  destruct (decide (cycle < length (output s))%nat) as [Hlt | Hge].
  - rewrite lookup_app_l in Hl by exact Hlt.
    destruct (Hs cycle placed Hl) as [-> | (isn0 & Hin0 & Hres)]; [left; reflexivity |].
    right. exists isn0. split; [exact Hin0 |].
    eapply resolved_from_mono; [| exact Hres]. intros i v. apply Hmono. exact Hone.
  - rewrite lookup_app_r in Hl by lia.
    destruct (cycle - length (output s))%nat as [| k] eqn:Hk; [| discriminate].
    injection Hl as <-. assert (cycle = length (output s)) as -> by lia.
    right. exists isn. split; [exact Hin |].
    apply map_inputs_spec in Hmap as [Hlen Hspec].
    eapply resolved_from_mono; [intros i v; apply Hmono; exact Hone |].
    repeat split; simpl; auto; apply Hspec; assumption.
Qed.

Lemma hazard_free_append_nops s n :
  hazard_free s →
  ∀ s', output s' = output s ++ replicate n nop → exits s' = exits s →
        program s' = program s → hazard_free s'.
Proof.
  intros Hs s' Hout He Hp cycle placed Hl. rewrite Hout in Hl. rewrite He, Hp.
  apply lookup_app_Some in Hl as [Hl | [_ Hl]]; [apply Hs, Hl |].
  apply lookup_replicate in Hl as [-> _]. left. reflexivity.
Qed.

Lemma list_remove_subset isn l l' x :
  list_remove isn l = Ok l' → x ∈ l' → x ∈ l.
Proof.
  intros H Hx. apply list_remove_split in H as (l1 & l2 & -> & ->).
  apply elem_of_app in Hx as [Hx | Hx]; apply elem_of_app; [left | right; right];
    exact Hx.
Qed.

Lemma schedule_loop_hazard_free fuel s final :
  hazard_free s → (∀ isn, isn ∈ remaining s → isn ∈ program s) →
  schedule_loop fuel s = Some (Ok final) →
  hazard_free final ∧ program final = program s.
Proof.
  intros Hs Hsub Hloop.
  pose (P := fun s0 => hazard_free s0 ∧ program s0 = program s ∧
                       ∀ isn, isn ∈ remaining s0 → isn ∈ program s0).
  assert (HP : P final ∧ remaining final = []).
  { apply (schedule_loop_invariant P) with fuel s; [| | repeat split; auto | exact Hloop].
    - intros isn s0 s0' (Hh & Hp & Hr) Hin Hone. repeat split.
      + eapply hazard_free_placement; [exact Hh | apply Hr, Hin | exact Hone].
      + apply schedule_one_inv in Hone as [[? _] | (_ & m & _ & _ & _ & _ & _ & Hp' & _)];
          [discriminate | congruence].
      + apply schedule_one_inv in Hone as [[? _] | (_ & m & _ & Hrem & _ & _ & _ & Hp' & _)];
          [discriminate |].
        intros x Hx. rewrite Hp'. apply Hr.
        eapply list_remove_subset; eassumption.
    - intros s0 (Hh & Hp & Hr). repeat split; auto.
      eapply (hazard_free_append_nops s0 1); [exact Hh | | |]; reflexivity. }
  destruct HP as [(Hh & Hp & _) _]. auto.
Qed.

End ScheduleLoop.

(** C1.  In every schedule the scheduler returns, each slot is a no-op or
    one of the program's instructions with its operands resolved: a
    non-negative operand is kept, and every SSA (negative) operand is
    replaced by a physical register that the Exit Map records as written,
    for that very SSA register, at a cycle before (hence not after) the
    cycle at which the consuming instruction is issued. *)
Theorem schedule_hazard_free (fuel : nat) (p : Processor.t) (reserved : Z)
    (prog : list Isn) (final : Scheduler.t) :
  Scheduler.schedule fuel (Scheduler.init p reserved prog) = Some (Ok final) →
  ∀ cycle placed, Scheduler.output final !! cycle = Some placed →
    placed = Scheduler.nop ∨
    ∃ isn, isn ∈ prog ∧ cls placed = cls isn ∧
           length (inputs placed) = length (inputs isn) ∧
           ∀ k inp, inputs isn !! k = Some inp →
             (0 ≤ inp → inputs placed !! k = Some inp) ∧
             (inp < 0 →
              ∃ written rm,
                (written ≤ cycle)%nat ∧ (written < cycle)%nat ∧
                Scheduler.exits final !! written = Some (inp, rm) ∧
                inputs placed !! k = Some rm).
Proof.
  intros H cycle placed Hl.
  apply schedule_inv in H as (s1 & Hloop & Hpad).
  apply schedule_loop_hazard_free in Hloop as [Hh Hp].
  2:{ intros c pl Hc. discriminate. }
  2:{ auto. }
  apply pad_inv in Hpad as (n & Hout & He & Hprog & _).
  pose proof (hazard_free_append_nops s1 n Hh final Hout He Hprog) as Hfinal.
  destruct (Hfinal cycle placed Hl) as [-> | (isn & Hin & Hc & _ & Hlen & Hk)];
    [left; reflexivity |].
  right. exists isn. rewrite Hprog, Hp in Hin. simpl in Hin.
  split; [exact Hin |]. split; [exact Hc |]. split; [exact Hlen |].
  intros k inp Hinp. split; [apply Hk, Hinp |].
  intros Hneg. destruct (proj2 (Hk k inp Hinp) Hneg) as (w & rm & Hw & He' & Hp').
  exists w, rm. repeat split; auto. lia.
Qed.

(** The multiply of [simple_test], issued at cycle 4, reads register 4,
    which the Exit Map gives to SSA register -2 at cycle 3. *)
Lemma schedule_hazard_free_witness :
  let placed := mkIsn MulIsn None [4; 2] [] in
  ∃ final,
    Scheduler.schedule 10 (Scheduler.init default_processor 3 simple_test_ir)
      = Some (Ok final) ∧
    Scheduler.output final !! 4%nat = Some placed ∧
    Scheduler.exits final !! 3%nat = Some (-2, 4) ∧
    (placed = Scheduler.nop ∨
     ∃ isn, isn ∈ simple_test_ir ∧ cls placed = cls isn ∧
            length (inputs placed) = length (inputs isn) ∧
            ∀ k inp, inputs isn !! k = Some inp →
              (0 ≤ inp → inputs placed !! k = Some inp) ∧
              (inp < 0 →
               ∃ written rm,
                 (written ≤ 4)%nat ∧ (written < 4)%nat ∧
                 Scheduler.exits final !! written = Some (inp, rm) ∧
                 inputs placed !! k = Some rm)).
Proof.
  intros placed. eexists. split; [vm_compute; reflexivity |].
  split; [vm_compute; reflexivity |]. split; [vm_compute; reflexivity |].
  apply (schedule_hazard_free 10 default_processor 3 simple_test_ir).
  - vm_compute. reflexivity.
  - vm_compute. reflexivity.
Defined.

(** ** Single retirement port *)

Section RetirementPort.

Import Scheduler.

Lemma with_output_app l1 l2 : with_output (l1 ++ l2) = with_output l1 ++ with_output l2.
Proof. unfold with_output. apply filter_app. Qed.

Lemma with_output_remove isn l l' :
  list_remove isn l = Ok l' →
  length (with_output l) =
    (length (with_output l') + if decide (outputs isn ≠ []) then 1 else 0)%nat.
Proof.
  intros H. apply list_remove_split in H as (l1 & l2 & -> & ->).
  rewrite !with_output_app, !length_app.
  change (isn :: l2) with ([isn] ++ l2). rewrite with_output_app, length_app.
  unfold with_output at 2.
  destruct (decide (outputs isn ≠ [])) as [Hne | He].
  - rewrite filter_cons_True by exact Hne. rewrite filter_nil. simpl. lia.
  - rewrite filter_cons_False by exact He. rewrite filter_nil. simpl. lia.
Qed.

(** Each placement of an instruction with an output adds one entry to the
    map, at a cycle that had none. *)
Lemma schedule_one_exits_count isn s s' :
  schedule_one isn s = Ok (true, s') →
  (size (exits s') + length (with_output (remaining s')) =
   size (exits s) + length (with_output (remaining s)))%nat.
Proof.
  intros H.
  apply schedule_one_inv in H as [[? _] | (_ & mapped & _ & Hrem & _ & _ & _ & _ & He)];
    [discriminate |].
  rewrite (with_output_remove _ _ _ Hrem).
  destruct He as [[Hout ->] | (o & lat & reg & Hout & _ & Hfree & ->)].
  - rewrite decide_False; [lia |]. intros Hne. apply Hne, Hout.
  - rewrite decide_True by (rewrite Hout; discriminate).
    rewrite map_size_insert_None by exact Hfree. lia.
Qed.

Lemma schedule_one_deferred isn s lat :
  outputs isn ≠ [] →
  Processor.get_instruction_latency (processor s) isn = Ok lat →
  is_Some (exits s !! (length (output s) + lat)%nat) →
  schedule_one isn s = Ok (false, s).
Proof.
  intros Hout Hlat Htaken. unfold schedule_one.
  destruct (find_inputs _ isn s); [| reflexivity].
  destruct (outputs isn); [contradiction |].
  rewrite Hlat. simpl. rewrite bool_decide_eq_true_2 by exact Htaken. reflexivity.
Qed.

Lemma schedule_loop_exits_count fuel p reserved prog s1 :
  schedule_loop fuel (init p reserved prog) = Some (Ok s1) →
  size (exits s1) = length (with_output prog).
Proof.
  intros Hloop.
  pose (P := fun s : t =>
               (size (exits s) + length (with_output (remaining s)))%nat
               = length (with_output prog)).
  destruct (schedule_loop_invariant P) with fuel (init p reserved prog) s1
    as [HP Hrem]; [| | | exact Hloop |].
  - intros isn s s' HPs _ Hone. unfold P in *.
    rewrite (schedule_one_exits_count _ _ _ Hone). exact HPs.
  - intros s HPs. exact HPs.
  - unfold P. simpl. rewrite map_size_empty. reflexivity.
  - unfold P in HP. rewrite Hrem in HP. simpl in HP. lia.
Qed.

End RetirementPort.

(** C3.  In every run of the scheduler the Exit Map ends with exactly as
    many entries as the program has instructions with an output, so no two
    of them retire on the same cycle; an entry, once made, is kept unchanged
    by every later placement and to the end of the run; and a candidate
    with an output whose retirement cycle already has an entry is deferred:
    [schedule_one] returns [False] and leaves the state as it was. *)
Theorem single_retirement_port :
  (∀ (fuel : nat) (p : Processor.t) (reserved : Z) (prog : list Isn)
     (final : Scheduler.t),
     Scheduler.schedule fuel (Scheduler.init p reserved prog) = Some (Ok final) →
     size (Scheduler.exits final) = length (with_output prog)) ∧
  (∀ (isn : Isn) (s s' : Scheduler.t) (b : bool) (cycle : nat) (v : Z * Z),
     Scheduler.schedule_one isn s = Ok (b, s') →
     Scheduler.exits s !! cycle = Some v → Scheduler.exits s' !! cycle = Some v) ∧
  (∀ (fuel : nat) (s final : Scheduler.t) (cycle : nat) (v : Z * Z),
     Scheduler.schedule fuel s = Some (Ok final) →
     Scheduler.exits s !! cycle = Some v →
     Scheduler.exits final !! cycle = Some v) ∧
  (∀ (isn : Isn) (s : Scheduler.t) (lat : nat),
     outputs isn ≠ [] →
     Processor.get_instruction_latency (Scheduler.processor s) isn = Ok lat →
     is_Some (Scheduler.exits s !! (length (Scheduler.output s) + lat)%nat) →
     Scheduler.schedule_one isn s = Ok (false, s)).
Proof.
  split; [| split; [| split]].
  - intros fuel p reserved prog final H.
    apply schedule_inv in H as (s1 & Hloop & Hpad).
    apply pad_inv in Hpad as (n & _ & -> & _).
    eapply schedule_loop_exits_count. exact Hloop.
  - intros isn s s' b cycle v. apply schedule_one_exits_mono.
  - intros fuel s final cycle v. apply schedule_exits_mono.
  - exact schedule_one_deferred.
Qed.

(** A waiting add whose retirement cycle 3 is taken by a multiply issued
    the cycle before is deferred; the run of [simple_test] ends with one
    exit entry for each of its three instructions with an output. *)
Lemma single_retirement_port_witness :
  let add := mkIsn AddIsn None [0; 1] [-2] in
  let s := {| Scheduler.processor := default_processor;
              Scheduler.reserved_data := 3;
              Scheduler.used_registers := list_to_set [0; 1; 2; 3];
              Scheduler.exits := {[ 3%nat := (-1, 3) ]};
              Scheduler.program := [mkIsn MulIsn None [0; 1] [-1]; add];
              Scheduler.remaining := [add];
              Scheduler.output := [mkIsn MulIsn None [0; 1] []] |} in
  Scheduler.schedule_one add s = Ok (false, s) ∧
  ∃ final,
    Scheduler.schedule 10 (Scheduler.init default_processor 3 simple_test_ir)
      = Some (Ok final) ∧
    size (Scheduler.exits final) = 3%nat.
Proof.
  intros add s. split.
  - apply (proj2 (proj2 (proj2 single_retirement_port)) add s 2%nat).
    + discriminate.
    + reflexivity.
    + vm_compute. eauto.
  - eexists. split; [vm_compute; reflexivity |].
    apply (proj1 single_retirement_port 10%nat default_processor 3 simple_test_ir).
    vm_compute. reflexivity.
Defined.

(** ** Termination of the scheduling loop *)

Section Termination.

Import Scheduler.

Lemma latency_bound p isn lat :
  Processor.get_instruction_latency p isn = Ok lat → (lat ≤ max_latency p)%nat.
Proof.
  unfold Processor.get_instruction_latency, max_latency.
  destruct (cls isn); intros H; try discriminate; injection H as <-; lia.
Qed.

Lemma map_inputs_total e cycle inps :
  (∀ inp, inp ∈ inps → inp < 0 →
          ∃ i rm, (i < cycle)%nat ∧ e !! i = Some (inp, rm)) →
  is_Some (map_inputs e cycle inps).
Proof.
  induction inps as [| inp inps IH]; intros H; simpl; [eauto |].
  destruct IH as [rest Hrest].
  { intros inp' Hin. apply H. right. exact Hin. }
  rewrite Hrest. destruct (decide (0 ≤ inp)); [simpl; eauto |].
  destruct (H inp) as (i & rm & Hi & He); [left | lia |].
  destruct (lookup_exit_exists e inp (seq 0 cycle) i rm) as [rm' ->];
    [apply elem_of_seq; lia | exact He |]. simpl. eauto.
Qed.

(** Why [schedule_one] may answer [False]. *)
Lemma schedule_one_false isn s s' :
  schedule_one isn s = Ok (false, s') →
  find_inputs (length (output s)) isn s = None ∨
  ∃ lat, Processor.get_instruction_latency (processor s) isn = Ok lat ∧
         is_Some (exits s !! (length (output s) + lat)%nat).
Proof.
  unfold schedule_one. intros H.
  destruct (find_inputs _ isn s) as [mapped |]; [| left; reflexivity].
  right. bind_case_as H Hexit. rename a into exit.
  destruct exit as [exit |].
  - destruct (bool_decide (is_Some (exits s !! exit))) eqn:Htaken.
    + apply bool_decide_eq_true in Htaken.
      destruct (outputs isn); [discriminate |].
      bind_case_as Hexit Hlat. injection Hexit as <-. eauto.
    + bind_case_as H Hrem; bind_case_as H Hfree; bind_case_as H Hexits;
        discriminate H.
  - bind_case_as H Hrem; bind_case_as H Hfree; bind_case_as H Hexits;
      discriminate H.
Qed.

(** Once the current cycle is past every exit entry, the first waiting
    instruction is not turned down. *)
Lemma first_ready s isn rest horizon s' :
  remaining s = isn :: rest → inputs_available s →
  (∀ i, is_Some (exits s !! i) → (i < horizon)%nat) →
  (horizon ≤ length (output s))%nat →
  schedule_one isn s ≠ Ok (false, s').
Proof.
  intros Hrem Hav Hhor Hle H.
  apply schedule_one_false in H as [Hnone | (lat & _ & Htaken)].
  - unfold find_inputs in Hnone.
    destruct (map_inputs_total (exits s) (length (output s)) (inputs isn))
      as [m Hm]; [| congruence].
    intros inp Hin Hneg.
    destruct (Hav [] isn rest Hrem inp Hin Hneg) as [(i & rm & He) | (q & Hq & _)];
      [| inversion Hq].
    exists i, rm. split; [| exact He].
    assert (i < horizon)%nat by (apply Hhor; eauto). lia.
  - apply Hhor in Htaken. lia.
Qed.

Lemma scan_head_false isn rest s s' :
  scan (isn :: rest) s = Ok (false, s') →
  ∃ s1, schedule_one isn s = Ok (false, s1).
Proof.
  simpl. intros H. bind_case_as H Hone. destruct a as [[] s1]; [discriminate |].
  eauto.
Qed.

Lemma inputs_available_placement isn s s' :
  inputs_available s → schedule_one isn s = Ok (true, s') →
  inputs_available s'.
Proof.
  intros Hav Hone pre j post Hsplit inp Hin Hneg.
  pose proof (schedule_one_exits_mono isn s true s') as Hmono.
  apply schedule_one_inv in Hone as Hinv.
  destruct Hinv as [[? _] | (_ & mapped & _ & Hrem & _ & _ & _ & _ & He)];
    [discriminate |].
  apply list_remove_split in Hrem as (l1 & l2 & Hl & Hl').
  assert (Hold : ∀ pre0 post0, remaining s = pre0 ++ j :: post0 →
            (∀ q, q ∈ pre0 → q ∈ pre ∨ q = isn) →
            (∃ i rm, exits s' !! i = Some (inp, rm)) ∨
            (∃ q, q ∈ pre ∧ inp ∈ outputs q)).
  { intros pre0 post0 Hs0 Hsub.
    destruct (Hav pre0 j post0 Hs0 inp Hin Hneg) as [(i & rm & Hi) | (q & Hq & Ho)].
    - left. exists i, rm. eapply Hmono; eassumption.
    - destruct (Hsub q Hq) as [Hpre | ->]; [right; eauto |].
      left. destruct He as [[Hout _] | (o & lat & reg & Hout & _ & _ & ->)].
      + rewrite Hout in Ho. inversion Ho.
      + rewrite Hout in Ho. apply list_elem_of_singleton in Ho as ->.
        eexists _, reg. apply lookup_insert_eq. }
  rewrite Hl' in Hsplit.
  apply app_eq_inv in Hsplit as [(k & Hk1 & Hk2) | (k & Hk1 & Hk2)].
  - (* the split falls inside [l1] or at its end *)
    destruct k as [| x k].
    + rewrite app_nil_r in Hk1. subst l1. simpl in Hk2. subst l2.
      apply (Hold (pre ++ [isn]) post).
      * rewrite Hl, <- app_assoc. reflexivity.
      * intros q Hq. apply elem_of_app in Hq as [Hq | Hq]; [left; exact Hq |].
        apply list_elem_of_singleton in Hq. right. exact Hq.
    + simpl in Hk2. injection Hk2 as <- ->.
      apply (Hold pre (k ++ isn :: l2)).
      * rewrite Hl, Hk1, <- app_assoc. reflexivity.
      * auto.
  - (* the split falls inside [l2] *)
    subst pre. apply (Hold (l1 ++ isn :: k) post).
    + rewrite Hl, Hk2, <- app_assoc. reflexivity.
    + intros q Hq. apply elem_of_app in Hq as [Hq | Hq].
      * left. apply elem_of_app. left. exact Hq.
      * apply elem_of_cons in Hq as [-> | Hq]; [right; reflexivity |].
        left. apply elem_of_app. right. exact Hq.
Qed.

End Termination.

Section TerminationLoop.

Import Scheduler.

Lemma list_remove_length isn l l' :
  list_remove isn l = Ok l' → length l = S (length l').
Proof.
  intros H. apply list_remove_split in H as (l1 & l2 & -> & ->).
  rewrite !length_app. simpl. lia.
Qed.

Lemma schedule_loop_terminates fuel s horizon :
  inputs_available s →
  (∀ i, is_Some (exits s !! i) → (i < horizon)%nat) →
  (enough_fuel s horizon ≤ fuel)%nat →
  ∃ r, schedule_loop fuel s = Some r.
Proof.
  revert s horizon. induction fuel as [| fuel IH]; intros s horizon Hav Hhor Hfuel.
  { unfold enough_fuel in Hfuel. lia. }
  simpl. destruct (remaining s) as [| isn0 rest] eqn:Hrem; [eauto |].
  destruct (scan (isn0 :: rest) s) as [[b s1] | e] eqn:Hscan; [| eauto].
  destruct b.
  - apply scan_inv in Hscan as [[? _] | (_ & isn & Hin & Hone)]; [discriminate |].
    pose proof (inputs_available_placement _ _ _ Hav Hone) as Hav1.
    apply schedule_one_inv in Hone as Hinv.
    destruct Hinv as [[? _] | (_ & mapped & _ & Hrm & Hout & Hproc & _ & _ & He)];
      [discriminate |].
    pose (m := max_latency (processor s)).
    apply (IH s1 (Nat.max horizon (S (length (output s) + m)))); [exact Hav1 | |].
    + intros i Hi. destruct He as [[_ Heq] | (o & lat & reg & _ & Hlat & _ & Heq)];
        rewrite Heq in Hi.
      * apply Hhor in Hi. lia.
      * apply latency_bound in Hlat. fold m in Hlat.
        destruct (decide (i = (length (output s) + lat)%nat)) as [-> | Hne]; [lia |].
        rewrite lookup_insert_ne in Hi by congruence. apply Hhor in Hi. lia.
    + unfold enough_fuel in *. rewrite Hproc, Hout, length_app. fold m.
      rewrite Hrem in Hrm. apply list_remove_length in Hrm.
      rewrite Hrem in Hfuel. simpl length in *. injection Hrm as Hrm.
      rewrite Hrm in Hfuel. fold m in Hfuel.
      remember (length (remaining s1)) as n.
      remember (length (output s)) as c.
      assert (S n * (m + 2) = n * (m + 2) + (m + 2))%nat as Hmul by lia.
      rewrite Hmul in Hfuel. remember (n * (m + 2))%nat as nm. lia.
  - assert (s1 = s) as ->.
    { apply scan_inv in Hscan as [[_ ->] | [? _]]; [reflexivity | discriminate]. }
    apply scan_head_false in Hscan as [s2 Hone].
    assert (Hlt : (length (output s) < horizon)%nat).
    { destruct (decide (horizon ≤ length (output s))%nat) as [Hle | Hgt]; [| lia].
      exfalso. eapply first_ready; eauto. }
    apply (IH (append_output nop s) horizon).
    + intros pre j post Hsplit. apply (Hav pre j post Hsplit).
    + exact Hhor.
    + unfold enough_fuel in *. cbn [remaining processor output append_output].
      rewrite length_app. cbn [length].
      remember (length (remaining s) * (max_latency (processor s) + 2))%nat as nm.
      lia.
Qed.

Lemma inputs_available_init p reserved prog :
  def_before_use prog → inputs_available (init p reserved prog).
Proof.
  intros Hd pre isn post Hsplit inp Hin Hneg. right.
  eapply Hd; eassumption.
Qed.

Lemma schedule_terminates p reserved prog fuel :
  def_before_use prog →
  (enough_fuel (init p reserved prog) 0 ≤ fuel)%nat →
  ∃ r, schedule fuel (init p reserved prog) = Some r.
Proof.
  intros Hd Hfuel.
  destruct (schedule_loop_terminates fuel (init p reserved prog) 0) as [r Hr].
  - apply inputs_available_init, Hd.
  - intros i Hi. simpl in Hi. rewrite lookup_empty in Hi.
    destruct Hi as [? Hi]. discriminate.
  - exact Hfuel.
  - unfold schedule. rewrite Hr. simpl. eauto.
Qed.

End TerminationLoop.

(** ** Register allocation never fails on a non-empty Data Table *)

Section Registers.

Import Scheduler.

Lemma foldl_max_spec x xs :
  foldl Z.max x xs ∈ x :: xs ∧ ∀ y, y ∈ x :: xs → y ≤ foldl Z.max x xs.
Proof.
  revert x. induction xs as [| z xs IH]; intros x; simpl.
  - split; [left |]. intros y Hy. apply list_elem_of_singleton in Hy as ->. lia.
  - destruct (IH (Z.max x z)) as [Hin Hle]. split.
    + apply elem_of_cons in Hin as [Heq | Hin].
      * rewrite Heq. destruct (Z.max_spec x z) as [[_ ->] | [_ ->]];
          [right; left | left].
      * right. right. exact Hin.
    + intros y Hy. apply elem_of_cons in Hy as [-> | Hy].
      * pose proof (Hle (Z.max x z) ltac:(left)). lia.
      * apply elem_of_cons in Hy as [-> | Hy].
        -- pose proof (Hle (Z.max x z) ltac:(left)). lia.
        -- apply Hle. right. exact Hy.
Qed.

Lemma foldl_min_elem x xs : foldl Z.min x xs ∈ x :: xs.
Proof.
  revert x. induction xs as [| z xs IH]; intros x; simpl; [left |].
  pose proof (IH (Z.min x z)) as Hin.
  apply elem_of_cons in Hin as [Heq | Hin].
  - rewrite Heq. destruct (Z.min_spec x z) as [[_ ->] | [_ ->]];
      [left | right; left].
  - right. right. exact Hin.
Qed.

Lemma py_max_spec xs :
  xs ≠ [] → ∃ m, py_max xs = Ok m ∧ m ∈ xs ∧ ∀ y, y ∈ xs → y ≤ m.
Proof.
  destruct xs as [| x xs]; [contradiction |]. intros _.
  exists (foldl Z.max x xs). split; [reflexivity |]. apply foldl_max_spec.
Qed.

Lemma py_min_spec xs : xs ≠ [] → ∃ m, py_min xs = Ok m ∧ m ∈ xs.
Proof.
  destruct xs as [| x xs]; [contradiction |]. intros _.
  exists (foldl Z.min x xs). split; [reflexivity |]. apply foldl_min_elem.
Qed.

Lemma allocate_register_ok s :
  registers_sound s →
  ∃ r s', allocate_register s = Ok (r, s') ∧
          reserved_data s ≤ r ∧
          s' = set_used ({[r]} ∪ used_registers s) s.
Proof.
  intros (Hres & Hin & Hnn & _ & _). unfold allocate_register.
  assert (H0 : 0 ∈ used_registers s) by (apply Hin; lia).
  destruct (py_max_spec (elements (used_registers s))) as (m & -> & Hm & Hmax).
  { intros Hnil. apply elem_of_elements in H0. rewrite Hnil in H0. inversion H0. }
  simpl. apply elem_of_elements in Hm.
  assert (Hm0 : 0 ≤ m) by (apply Hnn, Hm).
  set (free := filter (fun x => x ∉ used_registers s) (seqZ 0 (m + 2))).
  assert (Hfree : m + 1 ∈ free).
  { apply list_elem_of_filter. split.
    - intros Hu. apply elem_of_elements, Hmax in Hu. lia.
    - apply elem_of_seqZ. lia. }
  destruct (py_min_spec free) as (r & -> & Hr).
  { intros Hnil. rewrite Hnil in Hfree. inversion Hfree. }
  simpl. exists r, (set_used ({[r]} ∪ used_registers s) s).
  split; [reflexivity |]. split; [| reflexivity].
  apply list_elem_of_filter in Hr as [Hnot Hseq]. apply elem_of_seqZ in Hseq.
  destruct (decide (reserved_data s ≤ r)) as [Hle | Hlt]; [exact Hle |].
  exfalso. apply Hnot, Hin. lia.
Qed.

Lemma registers_sound_set_used u s :
  registers_sound s →
  (∀ r, 0 ≤ r < reserved_data s → r ∈ u) → (∀ r, r ∈ u → 0 ≤ r) →
  registers_sound (set_used u s).
Proof.
  intros (Hres & _ & _ & He & Hrem) Hin Hnn.
  unfold registers_sound. simpl. auto.
Qed.

Lemma free_inputs_ok pairs s :
  registers_sound s →
  (∀ inp minp, (inp, minp) ∈ pairs → inp < 0 → reserved_data s ≤ minp) →
  ∃ s', free_inputs pairs s = Ok s' ∧ registers_sound s'.
Proof.
  revert s. induction pairs as [| [inp minp] pairs IH]; intros s Hs Hp; simpl;
    [eauto |].
  assert (Hstep : ∃ s1, (if bool_decide (inp < 0) && unreferenced inp (remaining s)
                         then free_register minp s else Ok s) = Ok s1 ∧
                        registers_sound s1 ∧ same_but_used s s1).
  { destruct (bool_decide (inp < 0)) eqn:Hneg; simpl.
    2:{ exists s. split; [reflexivity |]. split; [exact Hs | apply same_but_used_refl]. }
    apply bool_decide_eq_true in Hneg.
    destruct (unreferenced inp (remaining s)).
    2:{ exists s. split; [reflexivity |]. split; [exact Hs | apply same_but_used_refl]. }
    pose proof (Hp inp minp ltac:(left) Hneg) as Hle.
    unfold free_register, assert. rewrite bool_decide_eq_true_2 by exact Hle.
    simpl. eexists. split; [reflexivity |]. split; [| repeat split].
    destruct Hs as (Hres & Hin & Hnn & He & Hrem).
    apply registers_sound_set_used; [repeat split; assumption | |].
    - intros r Hr. apply elem_of_difference. split; [apply Hin, Hr |].
      intros Heq. apply elem_of_singleton in Heq. lia.
    - intros r Hr. apply elem_of_difference in Hr as [Hr _]. apply Hnn, Hr. }
  destruct Hstep as (s1 & -> & Hs1 & (_ & Hres1 & _)). simpl.
  apply IH; [exact Hs1 |]. intros inp' minp' Hin' Hneg'. rewrite Hres1.
  apply (Hp inp' minp'); [right; exact Hin' | exact Hneg'].
Qed.

Lemma builder_shaped_latency p isn :
  builder_shaped isn = true → outputs isn ≠ [] →
  ∃ o lat, outputs isn = [o] ∧ Processor.get_instruction_latency p isn = Ok lat.
Proof.
  unfold builder_shaped, Processor.get_instruction_latency.
  destruct (cls isn), (outputs isn) as [| o [| o' os]]; intros H Hne;
    try discriminate; try contradiction; eauto.
Qed.

Lemma builder_shaped_no_output isn :
  builder_shaped isn = true → outputs isn = [] ∨ ∃ o, outputs isn = [o].
Proof.
  unfold builder_shaped.
  destruct (cls isn), (outputs isn) as [| o [| o' os]]; intros H;
    try discriminate; eauto.
Qed.

Lemma schedule_one_ok isn s :
  registers_sound s → isn ∈ remaining s →
  ∃ b s', schedule_one isn s = Ok (b, s') ∧ registers_sound s'.
Proof.
  intros Hs Hin. unfold schedule_one, find_inputs.
  destruct (map_inputs _ _ _) as [mapped |] eqn:Hmap; [| eauto].
  pose proof Hs as (Hres & Hused & Hnn & He & Hrem).
  assert (Hshape : builder_shaped isn = true).
  { rewrite Forall_forall in Hrem. apply Hrem, Hin. }
  destruct (list_remove_elem _ _ Hin) as [rem Hremove].
  assert (Hrem' : Forall (fun i => builder_shaped i = true) rem).
  { rewrite Forall_forall in Hrem |- *. intros x Hx. apply Hrem.
    eapply list_remove_subset; eassumption. }
  assert (Hs1 : registers_sound (set_remaining rem s)).
  { unfold registers_sound. simpl. auto. }
  destruct (free_inputs_ok (zip (inputs isn) mapped) (set_remaining rem s) Hs1)
    as (s2 & Hfree & Hs2).
  { intros inp minp Hz Hneg. simpl.
    apply list_elem_of_lookup in Hz as [k Hk].
    apply lookup_zip_with_Some in Hk as (a & b & Heq & Ha & Hb).
    injection Heq as <- <-.
    apply map_inputs_spec in Hmap as [_ Hspec].
    destruct (proj2 (Hspec k inp Ha) Hneg) as (i & rm & _ & Hi & Hm).
    rewrite Hb in Hm. injection Hm as ->. eapply He. exact Hi. }
  pose proof (free_inputs_frame _ _ _ Hfree) as (Hp2 & Hr2 & He2 & Hg2 & Hrem2 & Ho2).
  destruct (builder_shaped_no_output _ Hshape) as [Hout | [o Hout]].
  - rewrite Hout. simpl. rewrite Hremove. simpl. rewrite Hfree. simpl.
    eexists _, _. split; [reflexivity |].
    destruct Hs2 as (? & ? & ? & ? & ?). unfold registers_sound. simpl. auto.
  - destruct (builder_shaped_latency (processor s) isn Hshape) as (o' & lat & Ho' & Hlat).
    { rewrite Hout. discriminate. }
    rewrite Hout. rewrite Hlat. simpl.
    destruct (bool_decide (is_Some (exits s !! (length (output s) + lat)%nat)));
      [eauto |].
    rewrite Hremove. simpl. rewrite Hfree. simpl.
    destruct (allocate_register_ok s2 Hs2) as (r & s3 & Halloc & Hle & ->).
    rewrite Halloc. simpl. eexists _, _. split; [reflexivity |].
    destruct Hs2 as (Hres2 & Hused2 & Hnn2 & Hex2 & Hrm2).
    unfold registers_sound. simpl. repeat split; auto.
    + intros r0 Hr0. apply elem_of_union. right. apply Hused2, Hr0.
    + intros r0 Hr0. apply elem_of_union in Hr0 as [Hr0 | Hr0]; [| apply Hnn2, Hr0].
      apply elem_of_singleton in Hr0 as ->. lia.
    + intros i o0 rm Hi.
      apply lookup_insert_Some in Hi as [[_ Heq] | [_ Hi]]; [| eapply Hex2, Hi].
      injection Heq as <- <-. exact Hle.
Qed.

Lemma scan_ok cands s :
  registers_sound s → (∀ isn, isn ∈ cands → isn ∈ remaining s) →
  ∃ b s', scan cands s = Ok (b, s') ∧ registers_sound s'.
Proof.
  induction cands as [| isn cands IH]; intros Hs Hsub; simpl; [eauto |].
  destruct (schedule_one_ok isn s Hs) as (b & s1 & Hone & Hs1); [apply Hsub; left |].
  rewrite Hone. simpl. destruct b; [eauto |].
  apply schedule_one_inv in Hone as [[_ ->] | [? _]]; [| discriminate].
  apply IH; [exact Hs |]. intros x Hx. apply Hsub. right. exact Hx.
Qed.

Lemma schedule_loop_ok fuel s r :
  registers_sound s → schedule_loop fuel s = Some r → ∃ final, r = Ok final.
Proof.
  revert s. induction fuel as [| fuel IH]; intros s Hs H; simpl in H; [discriminate |].
  destruct (remaining s) as [| isn0 rest] eqn:Hrem.
  - injection H as <-. eauto.
  - destruct (scan_ok (isn0 :: rest) s Hs) as (b & s1 & Hscan & Hs1).
    { intros x Hx. rewrite Hrem. exact Hx. }
    rewrite Hscan in H. destruct b; [eapply IH; eassumption |].
    eapply IH; [| exact H].
    destruct Hs1 as (? & ? & ? & ? & ?). unfold registers_sound. simpl. auto.
Qed.

End Registers.

Section BuilderShapes.

Import ASTCompiler.

Lemma emit_expr_shaped e s r s' :
  emit_expr e s = Ok (r, s') →
  Forall (fun isn => builder_shaped isn = true) (program s) →
  Forall (fun isn => builder_shaped isn = true) (program s').
Proof.
  revert s r s'. induction e as [l IHl op rr IHr | n | id | | |];
    intros s r s' H Hs; simpl in H; try discriminate.
  - bind_case_as H El. destruct a as [lhs s1].
    bind_case_as H Er. destruct a as [rhs s2].
    bind_case_as H Hop. injection H as <- <-. simpl.
    apply Forall_app. split; [eapply IHr; [exact Er |]; eapply IHl; eassumption |].
    constructor; [| constructor].
    destruct op; try discriminate; injection Hop as <-; reflexivity.
  - destruct (constants s !! n); injection H as <- <-; exact Hs.
  - destruct (names s !! id); [| discriminate]. injection H as <- <-. exact Hs.
Qed.

Lemma bind_targets_program targets output s s' :
  bind_targets targets output s = Ok s' → program s' = program s.
Proof.
  revert s. induction targets as [| target targets IH]; intros s H; simpl in H.
  - injection H as <-. reflexivity.
  - destruct target; try discriminate. apply IH in H. exact H.
Qed.

Lemma emit_shaped node s s' :
  emit node s = Ok s' →
  Forall (fun isn => builder_shaped isn = true) (program s) →
  Forall (fun isn => builder_shaped isn = true) (program s').
Proof.
  intros H Hs. destruct node as [targets value | [value |] | names | | | | |];
    simpl in H; try discriminate.
  - bind_case_as H Hv. destruct a as [output s1].
    rewrite (bind_targets_program _ _ _ _ H). eapply emit_expr_shaped; eassumption.
  - bind_case_as H Hv. destruct a as [v s1]. injection H as <-. simpl.
    apply Forall_app. split; [eapply emit_expr_shaped; eassumption |].
    constructor; [reflexivity | constructor].
  - injection H as <-. exact Hs.
Qed.

Lemma emit_body_shaped body s s' :
  emit_body body s = Ok s' →
  Forall (fun isn => builder_shaped isn = true) (program s) →
  Forall (fun isn => builder_shaped isn = true) (program s').
Proof.
  revert s. induction body as [| node body IH]; intros s H Hs; simpl in H.
  - injection H as <-. exact Hs.
  - bind_case_as H He. apply (emit_shaped _ _ _ He) in Hs.
    destruct (is_return node).
    + injection H as <-. exact Hs.
    + eapply IH; eassumption.
Qed.

Lemma build_ir_shaped arg body ir :
  build_ir arg body = Ok ir →
  Forall (fun isn => builder_shaped isn = true) (program ir).
Proof.
  unfold build_ir. intros H. eapply emit_body_shaped; [exact H |].
  unfold input. simpl.
  destruct (declare_globals_frame body init) as (-> & _ & _). simpl.
  constructor; [reflexivity | constructor].
Qed.

End BuilderShapes.

Section SchedulerSucceeds.

Import Scheduler.

Lemma registers_sound_init p reserved prog :
  0 < reserved → Forall (fun isn => builder_shaped isn = true) prog →
  registers_sound (init p reserved prog).
Proof.
  intros Hres Hshape. unfold registers_sound. simpl.
  split; [exact Hres |]. split; [| split; [| split]].
  - intros r Hr. apply elem_of_list_to_set, elem_of_seqZ. lia.
  - intros r Hr. apply elem_of_list_to_set, elem_of_seqZ in Hr. lia.
  - intros i o rm Hi. rewrite lookup_empty in Hi. discriminate.
  - exact Hshape.
Qed.

Lemma pad_ok s : exits s ≠ ∅ → ∃ s', pad s = Ok s'.
Proof.
  intros Hne. unfold pad.
  destruct (py_max_spec (Z.of_nat <$> elements (dom (exits s)))) as (m & -> & _).
  - intros Hnil. apply fmap_nil_inv in Hnil.
    apply elements_empty_iff in Hnil. apply Hne.
    apply dom_empty_iff_L. apply leibniz_equiv. exact Hnil.
  - simpl. eauto.
Qed.

Lemma schedule_succeeds p reserved prog fuel :
  def_before_use prog →
  Forall (fun isn => builder_shaped isn = true) prog →
  with_output prog ≠ [] → 0 < reserved →
  (enough_fuel (init p reserved prog) 0 ≤ fuel)%nat →
  ∃ final, schedule fuel (init p reserved prog) = Some (Ok final) ∧
           remaining final = [].
Proof.
  intros Hd Hshape Hout Hres Hfuel.
  destruct (schedule_loop_terminates fuel (init p reserved prog) 0) as [r Hr].
  - apply inputs_available_init, Hd.
  - intros i Hi. simpl in Hi. rewrite lookup_empty in Hi.
    destruct Hi as [? Hi]. discriminate.
  - exact Hfuel.
  - destruct (schedule_loop_ok _ _ _ (registers_sound_init p reserved prog Hres Hshape) Hr)
      as [s1 ->].
    pose proof (schedule_loop_exits_count _ _ _ _ _ Hr) as Hcount.
    pose proof (schedule_loop_invariant (fun _ => True)
                  (fun _ _ _ _ _ _ => I) (fun _ _ => I) _ _ _ I Hr) as [_ Hrem].
    destruct (pad_ok s1) as [final Hpad].
    + intros Hempty. rewrite Hempty, map_size_empty in Hcount.
      destruct (with_output prog); [contradiction | discriminate].
    + exists final. split.
      * unfold schedule. rewrite Hr. simpl. rewrite Hpad. reflexivity.
      * apply pad_inv in Hpad as (n & _ & _ & _ & -> & _). exact Hrem.
Qed.

End SchedulerSucceeds.

(** C8.  The scheduling loop ends on every instruction list in which each
    SSA operand is the output of an earlier instruction: with
    [enough_fuel] iterations or more, [schedule] gives an answer.  The list
    the builder returns is such a list, so [schedule] gives an answer on
    it; and when the Data Table is not empty the answer is a finished
    schedule whose working set is empty. *)
Theorem scheduler_terminates :
  (∀ (p : Processor.t) (reserved : Z) (prog : list Isn) (fuel : nat),
     def_before_use prog →
     (enough_fuel (Scheduler.init p reserved prog) 0 ≤ fuel)%nat →
     ∃ r, Scheduler.schedule fuel (Scheduler.init p reserved prog) = Some r) ∧
  (∀ (arg : string) (body : list stmt) (ir : ASTCompiler.t) (p : Processor.t)
     (fuel : nat),
     build_ir arg body = Ok ir →
     let s0 := Scheduler.init p (Z.of_nat (length (ASTCompiler.data ir)))
                 (ASTCompiler.program ir) in
     (enough_fuel s0 0 ≤ fuel)%nat →
     def_before_use (ASTCompiler.program ir) ∧
     (∃ r, Scheduler.schedule fuel s0 = Some r) ∧
     (ASTCompiler.data ir ≠ [] →
      ∃ final, Scheduler.schedule fuel s0 = Some (Ok final) ∧
               Scheduler.remaining final = [])).
Proof.
  split.
  - intros p reserved prog fuel Hd Hfuel. apply schedule_terminates; assumption.
  - intros arg body ir p fuel Hir s0 Hfuel.
    pose proof (build_ir_ssa _ _ _ Hir) as (_ & _ & _ & _ & _ & Hd).
    split; [exact Hd |]. split; [apply schedule_terminates; assumption |].
    intros Hdata. apply schedule_succeeds; try assumption.
    + eapply build_ir_shaped. exact Hir.
    + destruct (build_ir_head _ _ _ Hir) as [rest ->]. discriminate.
    + destruct (ASTCompiler.data ir); [contradiction | simpl; lia].
Qed.

(** The IR of [simple_test]: 21 iterations are enough and the scheduler
    returns a schedule. *)
Lemma scheduler_terminates_witness :
  ∃ ir, build_ir "x" simple_test = Ok ir ∧
        enough_fuel (Scheduler.init default_processor 3 (ASTCompiler.program ir)) 0
          = 21%nat ∧
        def_before_use (ASTCompiler.program ir) ∧
        ∃ final,
          Scheduler.schedule 21
            (Scheduler.init default_processor
               (Z.of_nat (length (ASTCompiler.data ir))) (ASTCompiler.program ir))
            = Some (Ok final) ∧
          Scheduler.remaining final = [].
Proof.
  eexists. split; [vm_compute; reflexivity |]. split; [reflexivity |].
  pose proof (proj2 scheduler_terminates "x" simple_test _ default_processor
                21%nat ltac:(vm_compute; reflexivity)) as H.
  simpl in H. specialize (H ltac:(vm_compute; lia)).
  destruct H as (Hd & _ & Hok). split; [exact Hd |].
  apply Hok. discriminate.
Defined.

(** * Further properties of the scheduler's register allocator *)

Section Allocator.

Import Scheduler.

Lemma foldl_min_le_init x xs : foldl Z.min x xs ≤ x.
Proof.
  revert x. induction xs as [| z xs IH]; intros x; simpl; [lia |].
  pose proof (IH (Z.min x z)). lia.
Qed.

Lemma foldl_min_lower x xs y : y ∈ x :: xs → foldl Z.min x xs ≤ y.
Proof.
  revert x. induction xs as [| z xs IH]; intros x Hy; simpl.
  - apply list_elem_of_singleton in Hy as ->. lia.
  - pose proof (foldl_min_le_init (Z.min x z) xs) as Hinit.
    apply elem_of_cons in Hy as [-> | Hy]; [lia |].
    apply elem_of_cons in Hy as [-> | Hy]; [lia |].
    apply IH. right. exact Hy.
Qed.

Lemma py_min_inv xs m : py_min xs = Ok m → m ∈ xs ∧ ∀ y, y ∈ xs → m ≤ y.
Proof.
  destruct xs as [| x xs]; [discriminate |]. simpl. intros H. injection H as <-.
  split; [apply foldl_min_elem | apply foldl_min_lower].
Qed.

Lemma py_max_inv xs m : py_max xs = Ok m → m ∈ xs ∧ ∀ y, y ∈ xs → y ≤ m.
Proof.
  destruct xs as [| x xs]; [discriminate |]. simpl. intros H. injection H as <-.
  apply foldl_max_spec.
Qed.

Lemma py_max_raise xs e : py_max xs = Raise e → xs = [] ∧ e = ValueError.
Proof. destruct xs; [intros H; injection H as <-; auto | discriminate]. Qed.

Lemma py_min_raise xs e : py_min xs = Raise e → xs = [] ∧ e = ValueError.
Proof. destruct xs; [intros H; injection H as <-; auto | discriminate]. Qed.

Lemma allocate_register_inv s r s' :
  allocate_register s = Ok (r, s') →
  s' = set_used ({[r]} ∪ used_registers s) s ∧
  (r ∉ used_registers s) ∧ 0 ≤ r ∧
  ∀ r', 0 ≤ r' < r → r' ∈ used_registers s.
Proof.
  unfold allocate_register. intros H.
  bind_case_as H Hmax. rename a into m. bind_case_as H Hmin. injection H as <- <-.
  apply py_min_inv in Hmin as [Hin Hlow].
  apply list_elem_of_filter in Hin as [Hnot Hseq]. apply elem_of_seqZ in Hseq.
  split; [reflexivity |]. split; [exact Hnot |]. split; [lia |].
  intros r' Hr'. destruct (decide (r' ∈ used_registers s)) as [Hu | Hu]; [exact Hu |].
  assert (a ≤ r'); [| lia].
  apply Hlow, list_elem_of_filter. split; [exact Hu |]. apply elem_of_seqZ. lia.
Qed.

Lemma allocate_register_raises s :
  (used_registers s = ∅ ∨ (∀ x, x ∈ used_registers s → x < -1)) ↔
  allocate_register s = Raise ValueError.
Proof.
  unfold allocate_register. split.
  - intros [Hempty | Hlow].
    + rewrite Hempty, elements_empty. reflexivity.
    + destruct (py_max (elements (used_registers s))) as [m |] eqn:Hmax; simpl.
      * apply py_max_inv in Hmax as [Hm _]. apply elem_of_elements, Hlow in Hm.
        rewrite seqZ_nil by lia. reflexivity.
      * apply py_max_raise in Hmax as [_ ->]. reflexivity.
  - intros H. destruct (py_max (elements (used_registers s))) as [m |] eqn:Hmax;
      simpl in H.
    + right. apply py_max_inv in Hmax as [Hm Hmax].
      destruct (py_min _) as [r |] eqn:Hmin; simpl in H; [discriminate |].
      apply py_min_raise in Hmin as [Hnil _].
      intros x Hx. apply elem_of_elements, Hmax in Hx.
      destruct (decide (m < -1)) as [Hlt | Hge]; [lia |]. exfalso.
      assert (Hin : m + 1 ∈ filter (fun x => x ∉ used_registers s) (seqZ 0 (m + 2))).
      { apply list_elem_of_filter. split; [| apply elem_of_seqZ; lia].
        intros Hu. apply elem_of_elements, Hmax in Hu. lia. }
      rewrite Hnil in Hin. inversion Hin.
    + left. apply py_max_raise in Hmax as [Hnil _].
      apply elements_empty_iff in Hnil. apply leibniz_equiv. exact Hnil.
Qed.

Lemma set_used_same s : set_used (used_registers s) s = s.
Proof. destruct s. reflexivity. Qed.

End Allocator.

(** X1.  [allocate_register] hands out the lowest non-negative register that
    is not in use and marks it used, leaving the rest of the state alone;
    it fails, with the [ValueError] of [max] or [min] over an empty
    collection, exactly when no register is in use or every register in use
    lies below -1. *)
Theorem allocate_register_lowest_free (s : Scheduler.t) :
  (∀ r s', Scheduler.allocate_register s = Ok (r, s') →
     s' = Scheduler.set_used ({[r]} ∪ Scheduler.used_registers s) s ∧
     (r ∉ Scheduler.used_registers s) ∧ 0 ≤ r ∧
     ∀ r', 0 ≤ r' < r → r' ∈ Scheduler.used_registers s) ∧
  ((Scheduler.used_registers s = ∅ ∨
    (∀ x, x ∈ Scheduler.used_registers s → x < -1)) ↔
   Scheduler.allocate_register s = Raise ValueError) ∧
  (∀ e, Scheduler.allocate_register s = Raise e → e = ValueError).
Proof.
  split; [intros r s'; apply allocate_register_inv |].
  split; [apply allocate_register_raises |].
  intros e H. unfold Scheduler.allocate_register in H.
  destruct (py_max _) as [m |] eqn:Hmax; simpl in H.
  - destruct (py_min _) as [r |] eqn:Hmin; simpl in H; [discriminate |].
    apply py_min_raise in Hmin as [_ ->]. congruence.
  - apply py_max_raise in Hmax as [_ ->]. congruence.
Qed.

(** With registers 0, 1 and 3 in use the allocator returns 2. *)
Lemma allocate_register_lowest_free_witness :
  let s := {| Scheduler.processor := default_processor;
              Scheduler.reserved_data := 2;
              Scheduler.used_registers := list_to_set [0; 1; 3];
              Scheduler.exits := ∅; Scheduler.program := [];
              Scheduler.remaining := []; Scheduler.output := [] |} in
  ∃ s', Scheduler.allocate_register s = Ok (2, s') ∧
        (2 ∉ Scheduler.used_registers s) ∧
        ∀ r', 0 ≤ r' < 2 → r' ∈ Scheduler.used_registers s.
Proof.
  intros s. eexists. split; [vm_compute; reflexivity |].
  destruct (proj1 (allocate_register_lowest_free s) 2 _ ltac:(vm_compute; reflexivity))
    as (_ & Hnot & _ & Hlow).
  split; assumption.
Defined.

(** X2.  [free_register] refuses, by its assertion, a register of the
    reserved region and otherwise only drops the register from the set in
    use; freeing a register that is not in use changes nothing; and freeing
    the register [allocate_register] has just returned restores the state
    from before the allocation, whenever the reserved region is in use. *)
Theorem free_register_round_trip (s : Scheduler.t) :
  (∀ r, r < Scheduler.reserved_data s →
        Scheduler.free_register r s = Raise AssertionError) ∧
  (∀ r, Scheduler.reserved_data s ≤ r →
        Scheduler.free_register r s =
          Ok (Scheduler.set_used (Scheduler.used_registers s ∖ {[r]}) s)) ∧
  (∀ r, Scheduler.reserved_data s ≤ r → r ∉ Scheduler.used_registers s →
        Scheduler.free_register r s = Ok s) ∧
  (∀ r s1,
     (∀ x, 0 ≤ x < Scheduler.reserved_data s → x ∈ Scheduler.used_registers s) →
     Scheduler.allocate_register s = Ok (r, s1) →
     Scheduler.reserved_data s ≤ r ∧ Scheduler.free_register r s1 = Ok s).
Proof.
  split; [| split; [| split]].
  - intros r Hr. unfold Scheduler.free_register, assert.
    rewrite bool_decide_eq_false_2 by lia. reflexivity.
  - intros r Hr. unfold Scheduler.free_register, assert.
    rewrite bool_decide_eq_true_2 by lia. reflexivity.
  - intros r Hr Hnot. unfold Scheduler.free_register, assert.
    rewrite bool_decide_eq_true_2 by lia. simpl.
    replace (Scheduler.used_registers s ∖ {[r]}) with (Scheduler.used_registers s)
      by set_solver.
    rewrite set_used_same. reflexivity.
  - intros r s1 Hres Halloc.
    apply allocate_register_inv in Halloc as (-> & Hnot & H0 & Hlow).
    assert (Hle : Scheduler.reserved_data s ≤ r).
    { destruct (decide (Scheduler.reserved_data s ≤ r)) as [? | Hlt]; [assumption |].
      exfalso. apply Hnot, Hres. lia. }
    split; [exact Hle |].
    unfold Scheduler.free_register, assert. simpl.
    rewrite bool_decide_eq_true_2 by lia. simpl.
    unfold Scheduler.set_used. simpl.
    replace (({[r]} ∪ Scheduler.used_registers s) ∖ {[r]})
      with (Scheduler.used_registers s) by set_solver.
    destruct s. reflexivity.
Qed.

(** Allocating from the state with registers 0, 1, 3 in use and freeing the
    result again. *)
Lemma free_register_round_trip_witness :
  let s := {| Scheduler.processor := default_processor;
              Scheduler.reserved_data := 2;
              Scheduler.used_registers := list_to_set [0; 1; 3];
              Scheduler.exits := ∅; Scheduler.program := [];
              Scheduler.remaining := []; Scheduler.output := [] |} in
  Scheduler.free_register 1 s = Raise AssertionError ∧
  ∃ s1, Scheduler.allocate_register s = Ok (2, s1) ∧
        Scheduler.free_register 2 s1 = Ok s.
Proof.
  intros s. split.
  - apply (proj1 (free_register_round_trip s)). simpl. lia.
  - eexists. split; [vm_compute; reflexivity |].
    refine (proj2 (proj2 (proj2 (proj2 (free_register_round_trip s))) 2 _ _ _)).
    + intros x Hx. simpl in Hx. simpl.
      assert (x = 0 ∨ x = 1) as [-> | ->] by lia; set_solver.
    + vm_compute. reflexivity.
Defined.

(** * Further properties of readiness and of the scan *)

Section Readiness.

Import Scheduler.

Lemma lookup_exit_first e inp cycles rm :
  lookup_exit e inp cycles = Some rm →
  ∃ pre i post, cycles = pre ++ i :: post ∧ e !! i = Some (inp, rm) ∧
                ∀ j rm', j ∈ pre → e !! j ≠ Some (inp, rm').
Proof.
  induction cycles as [| c cycles IH]; intros H; simpl in H; [discriminate |].
  assert (Hskip : (∀ rm', e !! c ≠ Some (inp, rm')) →
                  lookup_exit e inp cycles = Some rm →
                  ∃ pre i post, c :: cycles = pre ++ i :: post ∧
                                e !! i = Some (inp, rm) ∧
                                ∀ j rm', j ∈ pre → e !! j ≠ Some (inp, rm')).
  { intros Hc Hrest. destruct (IH Hrest) as (pre & i & post & -> & Hi & Hpre).
    exists (c :: pre), i, post. split; [reflexivity |]. split; [exact Hi |].
    intros j rm' Hj. apply elem_of_cons in Hj as [-> | Hj]; [apply Hc | eauto]. }
  destruct (e !! c) as [[r rm0] |] eqn:Hc.
  - destruct (decide (r = inp)) as [-> | Hne].
    + injection H as ->. exists [], c, cycles.
      split; [reflexivity |]. split; [exact Hc |]. intros j rm' Hj. inversion Hj.
    + apply Hskip; [| exact H]. intros rm' Heq. congruence.
  - apply Hskip; [| exact H]. intros rm' Heq. discriminate.
Qed.

Lemma seq_split_before cycle pre i post j :
  seq 0 cycle = pre ++ i :: post → (j < i)%nat → j ∈ pre.
Proof.
  intros Hsplit Hj.
  assert (Hi : seq 0 cycle !! length pre = Some i).
  { rewrite Hsplit. rewrite lookup_app_r by lia. rewrite Nat.sub_diag. reflexivity. }
  apply lookup_seq in Hi as [Hi _]. simpl in Hi. subst i.
  assert (Hl : seq 0 cycle !! j = Some j).
  { apply lookup_seq. split; [reflexivity |].
    assert (length (seq 0 cycle) = length (pre ++ length pre :: post)) as Hlen
      by (rewrite Hsplit; reflexivity).
    rewrite length_seq, length_app in Hlen. simpl in Hlen. lia. }
  rewrite Hsplit, lookup_app_l in Hl by exact Hj.
  apply list_elem_of_lookup. eauto.
Qed.

(** [find_inputs] resolves an SSA operand to the entry of the earliest
    cycle that carries it. *)
Lemma map_inputs_earliest e cycle inps mapped :
  map_inputs e cycle inps = Some mapped →
  ∀ k inp, inps !! k = Some inp → inp < 0 →
    ∃ i rm, (i < cycle)%nat ∧ e !! i = Some (inp, rm) ∧ mapped !! k = Some rm ∧
            ∀ j rm', (j < i)%nat → e !! j ≠ Some (inp, rm').
Proof.
  revert mapped. induction inps as [| inp0 inps IH]; intros mapped H k inp Hk Hneg;
    simpl in H; [discriminate |].
  assert (Hrest : ∀ m0, (cons m0 <$> map_inputs e cycle inps) = Some mapped →
            ∃ rest, mapped = m0 :: rest ∧ map_inputs e cycle inps = Some rest).
  { intros m0 Hm. destruct (map_inputs e cycle inps) as [rest |]; [| discriminate].
    injection Hm as <-. eauto. }
  destruct (decide (0 ≤ inp0)) as [Hnn | Hneg0].
  - destruct (Hrest _ H) as (rest & -> & Hr). destruct k as [| k]; simpl in Hk.
    + injection Hk as <-. lia.
    + apply (IH rest Hr k inp Hk Hneg).
  - destruct (lookup_exit e inp0 (seq 0 cycle)) as [rm0 |] eqn:Hle; [| discriminate].
    destruct (Hrest _ H) as (rest & -> & Hr). destruct k as [| k]; simpl in Hk.
    + injection Hk as <-.
      apply lookup_exit_first in Hle as (pre & i & post & Hsplit & Hi & Hpre).
      exists i, rm0. split; [| split; [exact Hi | split; [reflexivity |]]].
      * assert (i ∈ seq 0 cycle) as Hin
          by (rewrite Hsplit; apply elem_of_app; right; left).
        apply elem_of_seq in Hin. lia.
      * intros j rm' Hj. apply Hpre. eapply seq_split_before; eassumption.
    + apply (IH rest Hr k inp Hk Hneg).
Qed.

Lemma schedule_one_refused isn s s' :
  schedule_one isn s = Ok (false, s') →
  find_inputs (length (output s)) isn s = None ∨
  (outputs isn ≠ [] ∧
   ∃ lat, Processor.get_instruction_latency (processor s) isn = Ok lat ∧
          is_Some (exits s !! (length (output s) + lat)%nat)).
Proof.
  unfold schedule_one. intros H.
  destruct (find_inputs _ isn s) as [mapped |]; [| left; reflexivity].
  right. bind_case_as H Hexit. rename a into exit.
  destruct exit as [exit |].
  - destruct (bool_decide (is_Some (exits s !! exit))) eqn:Htaken.
    + apply bool_decide_eq_true in Htaken.
      destruct (outputs isn); [discriminate |].
      bind_case_as Hexit Hlat. injection Hexit as <-.
      split; [discriminate | eauto].
    + bind_case_as H Hrem; bind_case_as H Hfree; bind_case_as H Hexits;
        discriminate H.
  - bind_case_as H Hrem; bind_case_as H Hfree; bind_case_as H Hexits;
      discriminate H.
Qed.

Lemma scan_first cands s s' :
  scan cands s = Ok (true, s') →
  ∃ pre isn post, cands = pre ++ isn :: post ∧
                  (∀ q, q ∈ pre → schedule_one q s = Ok (false, s)) ∧
                  schedule_one isn s = Ok (true, s').
Proof.
  revert s. induction cands as [| c cands IH]; intros s H; simpl in H;
    [discriminate |].
  bind_case_as H Hone. destruct a as [[] s1].
  - injection H as <-. exists [], c, cands.
    split; [reflexivity |]. split; [| exact Hone]. intros q Hq. inversion Hq.
  - apply schedule_one_inv in Hone as Hinv.
    destruct Hinv as [[_ ->] | [? _]]; [| discriminate].
    destruct (IH _ H) as (pre & isn & post & -> & Hpre & Hisn).
    exists (c :: pre), isn, post. split; [reflexivity |]. split; [| exact Hisn].
    intros q Hq. apply elem_of_cons in Hq as [-> | Hq]; [exact Hone | eauto].
Qed.

Lemma scan_none cands s s' :
  scan cands s = Ok (false, s') →
  s' = s ∧ ∀ q, q ∈ cands → schedule_one q s = Ok (false, s).
Proof.
  revert s. induction cands as [| c cands IH]; intros s H; simpl in H.
  - injection H as <-. split; [reflexivity |]. intros q Hq. inversion Hq.
  - bind_case_as H Hone. destruct a as [[] s1]; [discriminate |].
    apply schedule_one_inv in Hone as Hinv.
    destruct Hinv as [[_ ->] | [? _]]; [| discriminate].
    destruct (IH _ H) as [-> Hall]. split; [reflexivity |].
    intros q Hq. apply elem_of_cons in Hq as [-> | Hq]; [exact Hone | eauto].
Qed.

End Readiness.

(** X3.  [find_inputs] answers with a list exactly when every SSA operand of
    the instruction has an exit entry at a cycle strictly before the
    current one; an entry at the current cycle itself does not count.  The
    list has one register per operand: a non-negative operand unchanged,
    an SSA operand replaced by the register of the earliest entry that
    carries it. *)
Theorem find_inputs_ready (cycle : nat) (isn : Isn) (s : Scheduler.t) :
  (is_Some (Scheduler.find_inputs cycle isn s) ↔
   ∀ inp, inp ∈ inputs isn → inp < 0 →
          ∃ i rm, (i < cycle)%nat ∧ Scheduler.exits s !! i = Some (inp, rm)) ∧
  (∀ mapped, Scheduler.find_inputs cycle isn s = Some mapped →
     length mapped = length (inputs isn) ∧
     ∀ k inp, inputs isn !! k = Some inp →
       (0 ≤ inp → mapped !! k = Some inp) ∧
       (inp < 0 →
        ∃ i rm, (i < cycle)%nat ∧ Scheduler.exits s !! i = Some (inp, rm) ∧
                mapped !! k = Some rm ∧
                ∀ j rm', (j < i)%nat → Scheduler.exits s !! j ≠ Some (inp, rm'))).
Proof.
  unfold Scheduler.find_inputs. split.
  - split.
    + intros [mapped Hm] inp Hin Hneg.
      apply list_elem_of_lookup in Hin as [k Hk].
      destruct (proj2 (proj2 (map_inputs_spec _ _ _ _ Hm) k inp Hk) Hneg)
        as (i & rm & Hi & He & _). eauto.
    + apply map_inputs_total.
  - intros mapped Hm. pose proof (map_inputs_spec _ _ _ _ Hm) as [Hlen Hspec].
    split; [exact Hlen |]. intros k inp Hk. split; [apply Hspec, Hk |].
    intros Hneg. eapply map_inputs_earliest; eassumption.
Qed.

(** At cycle 4 of the [simple_test] run the multiply is ready; at cycle 3,
    the cycle its operand retires, it is not. *)
Lemma find_inputs_ready_witness :
  let s := {| Scheduler.processor := default_processor;
              Scheduler.reserved_data := 3;
              Scheduler.used_registers := list_to_set [0; 1; 2; 3; 4];
              Scheduler.exits := {[ 1%nat := (-1, 3); 3%nat := (-2, 4) ]};
              Scheduler.program := simple_test_ir;
              Scheduler.remaining := [mkIsn MulIsn None [-2; 2] [-3];
                                      mkIsn OutputIsn None [-3] []];
              Scheduler.output := [] |} in
  let mul := mkIsn MulIsn None [-2; 2] [-3] in
  Scheduler.find_inputs 4 mul s = Some [4; 2] ∧
  Scheduler.find_inputs 3 mul s = None ∧
  length [4; 2] = length (inputs mul) ∧
  ∃ i rm, (i < 4)%nat ∧ Scheduler.exits s !! i = Some (-2, rm) ∧
          [4; 2] !! 0%nat = Some rm.
Proof.
  intros s mul. split; [vm_compute; reflexivity |].
  split; [vm_compute; reflexivity |].
  destruct (proj2 (find_inputs_ready 4 mul s) [4; 2] ltac:(vm_compute; reflexivity))
    as [Hlen Hk].
  split; [exact Hlen |].
  destruct (proj2 (Hk 0%nat (-2) eq_refl) ltac:(lia)) as (i & rm & Hi & He & Hm & _).
  eauto.
Defined.

(** X4.  A candidate that [schedule_one] turns down leaves the scheduler
    state exactly as it was, and it is turned down precisely when one of
    its inputs is not ready or when it has an output, a latency, and its
    retirement cycle already has an exit entry. *)
Theorem schedule_one_refusal (isn : Isn) (s : Scheduler.t) :
  (∀ s', Scheduler.schedule_one isn s = Ok (false, s') → s' = s) ∧
  (Scheduler.schedule_one isn s = Ok (false, s) ↔
   Scheduler.find_inputs (length (Scheduler.output s)) isn s = None ∨
   (outputs isn ≠ [] ∧
    ∃ lat, Processor.get_instruction_latency (Scheduler.processor s) isn = Ok lat ∧
           is_Some (Scheduler.exits s
                      !! (length (Scheduler.output s) + lat)%nat))).
Proof.
  split.
  - intros s' H. apply schedule_one_inv in H as [[_ ->] | [? _]];
      [reflexivity | discriminate].
  - split; [apply schedule_one_refused |].
    intros [Hnone | (Hout & lat & Hlat & Htaken)].
    + unfold Scheduler.schedule_one. rewrite Hnone. reflexivity.
    + eapply schedule_one_deferred; eassumption.
Qed.

(** X5.  The scan of one cycle places the first instruction of the working
    set, in list order, that [schedule_one] accepts, every instruction
    before it having been turned down without effect; when the scan places
    nothing, every instruction was turned down and the state is
    unchanged. *)
Theorem scan_first_ready (cands : list Isn) (s : Scheduler.t) :
  (∀ s', Scheduler.scan cands s = Ok (true, s') →
     ∃ pre isn post,
       cands = pre ++ isn :: post ∧
       (∀ q, q ∈ pre → Scheduler.schedule_one q s = Ok (false, s)) ∧
       Scheduler.schedule_one isn s = Ok (true, s')) ∧
  (∀ s', Scheduler.scan cands s = Ok (false, s') →
     s' = s ∧ ∀ q, q ∈ cands → Scheduler.schedule_one q s = Ok (false, s)).
Proof. split; intros s'; [apply scan_first | apply scan_none]. Qed.

(** At cycle 4 of the [simple_test] run the scan places the multiply and
    leaves the output instruction waiting. *)
Lemma scan_first_ready_witness :
  let s := {| Scheduler.processor := default_processor;
              Scheduler.reserved_data := 3;
              Scheduler.used_registers := list_to_set [0; 1; 2; 3; 4];
              Scheduler.exits := {[ 1%nat := (-1, 3); 3%nat := (-2, 4) ]};
              Scheduler.program := simple_test_ir;
              Scheduler.remaining := [mkIsn MulIsn None [-2; 2] [-3];
                                      mkIsn OutputIsn None [-3] []];
              Scheduler.output :=
                [mkIsn InputIsn None [] []; mkIsn AddIsn None [0; 1] [];
                 Scheduler.nop; Scheduler.nop] |} in
  ∃ s' pre isn post,
    Scheduler.scan (Scheduler.remaining s) s = Ok (true, s') ∧
    Scheduler.remaining s = pre ++ isn :: post ∧
    (∀ q, q ∈ pre → Scheduler.schedule_one q s = Ok (false, s)) ∧
    Scheduler.schedule_one isn s = Ok (true, s').
Proof.
  intros s.
  destruct (Scheduler.scan (Scheduler.remaining s) s) as [[[] s'] |] eqn:Hscan;
    try (vm_compute in Hscan; discriminate Hscan).
  destruct (proj1 (scan_first_ready _ s) s' Hscan) as (pre & isn & post & H1 & H2 & H3).
  exists s', pre, isn, post. auto.
Defined.

(** The output instruction of [simple_test] at cycle 4: its operand -3 has
    no exit entry yet, so it is turned down. *)
Lemma schedule_one_refusal_witness :
  let s := {| Scheduler.processor := default_processor;
              Scheduler.reserved_data := 3;
              Scheduler.used_registers := list_to_set [0; 1; 2; 3; 4];
              Scheduler.exits := {[ 1%nat := (-1, 3); 3%nat := (-2, 4) ]};
              Scheduler.program := simple_test_ir;
              Scheduler.remaining := [mkIsn MulIsn None [-2; 2] [-3];
                                      mkIsn OutputIsn None [-3] []];
              Scheduler.output :=
                [mkIsn InputIsn None [] []; mkIsn AddIsn None [0; 1] [];
                 Scheduler.nop; Scheduler.nop] |} in
  Scheduler.schedule_one (mkIsn OutputIsn None [-3] []) s = Ok (false, s).
Proof.
  intros s.
  apply (proj2 (schedule_one_refusal (mkIsn OutputIsn None [-3] []) s)).
  left. vm_compute. reflexivity.
Defined.

(** * Further properties of a scheduler run *)

Section RunInvariants.

Import Scheduler.

(** The steps of a successful placement, in order. *)
Lemma schedule_one_steps isn s s' :
  schedule_one isn s = Ok (true, s') →
  ∃ mapped rem s1,
    map_inputs (exits s) (length (output s)) (inputs isn) = Some mapped ∧
    list_remove isn (remaining s) = Ok rem ∧
    free_inputs (zip (inputs isn) mapped) (set_remaining rem s) = Ok s1 ∧
    ((outputs isn = [] ∧
      s' = append_output (mkIsn (cls isn) (immediate isn) mapped []) s1) ∨
     (∃ o lat reg s2,
        outputs isn = [o] ∧
        Processor.get_instruction_latency (processor s) isn = Ok lat ∧
        exits s !! (length (output s) + lat)%nat = None ∧
        allocate_register s1 = Ok (reg, s2) ∧
        s' = append_output (mkIsn (cls isn) (immediate isn) mapped [])
               (set_exits (<[(length (output s) + lat)%nat := (o, reg)]> (exits s2))
                          s2))).
Proof.
  unfold schedule_one, find_inputs. intros H.
  destruct (map_inputs _ _ _) as [mapped |] eqn:Hmap; [| discriminate].
  bind_case_as H Hexit. rename a into exit.
  destruct (match exit with Some e => bool_decide (is_Some (exits s !! e)) | None => false end)
    eqn:Htaken; [discriminate |].
  bind_case_as H Hrem. rename a into rem. bind_case_as H Hfree. rename a into s1.
  bind_case_as H Hexits. rename a into s2. injection H as <-.
  exists mapped, rem, s1. split; [reflexivity |]. split; [reflexivity |].
  split; [exact Hfree |].
  destruct (outputs isn) as [| o os] eqn:Hout.
  - left. injection Hexits as <-. auto.
  - right. bind_case_as Hexit Hlat. rename a into lat. injection Hexit as <-.
    destruct os as [| o' os]; [| discriminate Hexits]. simpl in Hexits.
    bind_case_as Hexits Halloc. destruct a as [reg s3]. injection Hexits as <-.
    apply bool_decide_eq_false in Htaken.
    exists o, lat, reg, s3. split; [reflexivity |]. split; [reflexivity |].
    split; [| split; [reflexivity | reflexivity]].
    destruct (exits s !! (length (output s) + lat)%nat) eqn:Hl; [| reflexivity].
    exfalso. apply Htaken. eauto.
Qed.

(** What the freeing loop does to the set of used registers. *)
Lemma free_inputs_inv pairs s s' :
  free_inputs pairs s = Ok s' →
  same_but_used s s' ∧
  (∀ r, r ∈ used_registers s' → r ∈ used_registers s) ∧
  (∀ r, r ∈ used_registers s → r ∉ used_registers s' →
        reserved_data s ≤ r ∧
        ∃ inp, (inp, r) ∈ pairs ∧ inp < 0 ∧ unreferenced inp (remaining s) = true).
Proof.
  revert s. induction pairs as [| [inp minp] pairs IH]; intros s H; simpl in H.
  - injection H as <-. split; [apply same_but_used_refl |]. split; [auto |].
    intros r Hr Hnot. contradiction.
  - bind_case_as H Hstep. rename a into s1.
    destruct (IH _ H) as (Hsame2 & Hsub2 & Hgone2).
    assert (Hstep' : same_but_used s s1 ∧
              (∀ r, r ∈ used_registers s1 → r ∈ used_registers s) ∧
              (∀ r, r ∈ used_registers s → r ∉ used_registers s1 →
                    reserved_data s ≤ r ∧ r = minp ∧ inp < 0 ∧
                    unreferenced inp (remaining s) = true)).
    { destruct (bool_decide (inp < 0)) eqn:Hneg; simpl in Hstep.
      2:{ injection Hstep as <-. split; [apply same_but_used_refl |].
          split; [auto |]. intros r Hr Hnot. contradiction. }
      destruct (unreferenced inp (remaining s)) eqn:Hunref.
      2:{ injection Hstep as <-. split; [apply same_but_used_refl |].
          split; [auto |]. intros r Hr Hnot. contradiction. }
      apply bool_decide_eq_true in Hneg.
      unfold free_register, assert in Hstep.
      destruct (bool_decide (reserved_data s ≤ minp)) eqn:Hres; simpl in Hstep;
        [| discriminate].
      apply bool_decide_eq_true in Hres. injection Hstep as <-.
      split; [repeat split |]. simpl. split.
      - intros r Hr. apply elem_of_difference in Hr as [Hr _]. exact Hr.
      - intros r Hr Hnot.
        assert (r = minp) as ->.
        { destruct (decide (r = minp)) as [? | Hne]; [assumption |].
          exfalso. apply Hnot. apply elem_of_difference. split; [exact Hr |].
          intros Heq. apply elem_of_singleton in Heq. contradiction. }
        auto. }
    destruct Hstep' as (Hsame1 & Hsub1 & Hgone1).
    pose proof Hsame1 as (_ & Hres1 & _ & _ & Hrem1 & _).
    split; [eapply same_but_used_trans; eassumption |]. split; [auto |].
    intros r Hr Hnot. destruct (decide (r ∈ used_registers s1)) as [Hin1 | Hout1].
    + destruct (Hgone2 r Hin1 Hnot) as (Hle & inp' & Hin' & Hneg' & Hun').
      rewrite Hres1 in Hle. rewrite Hrem1 in Hun'.
      split; [exact Hle |]. exists inp'. split; [right; exact Hin' | auto].
    + destruct (Hgone1 r Hr Hout1) as (Hle & -> & Hneg & Hun).
      split; [exact Hle |]. exists inp. split; [left | auto].
Qed.

Lemma zip_elem_lookup {A B} (l : list A) (k : list B) a b :
  (a, b) ∈ zip l k → ∃ i, l !! i = Some a ∧ k !! i = Some b.
Proof.
  intros H. apply list_elem_of_lookup in H as [i Hi].
  apply lookup_zip_with_Some in Hi as (a' & b' & Heq & Ha & Hb).
  injection Heq as <- <-. eauto.
Qed.

Lemma latency_positive p isn lat :
  Processor.get_instruction_latency p isn = Ok lat → (1 ≤ lat)%nat.
Proof.
  unfold Processor.get_instruction_latency.
  destruct (cls isn); intros H; try discriminate; injection H as <-; lia.
Qed.

(** The padding makes the schedule longer than the last retirement cycle. *)
Lemma pad_covers s s' :
  pad s = Ok s' → ∀ i, is_Some (exits s !! i) → (i < length (output s'))%nat.
Proof.
  unfold pad. intros H i Hi. bind_case_as H Hmax. rename a into m.
  injection H as <-. simpl. rewrite length_app, length_replicate.
  apply py_max_inv in Hmax as [_ Hmax].
  assert (Z.of_nat i ≤ m); [| lia].
  apply Hmax. apply list_elem_of_fmap. exists i. split; [reflexivity |].
  apply elem_of_elements, elem_of_dom. exact Hi.
Qed.

Lemma pad_raises s e : pad s = Raise e → exits s = ∅ ∧ e = ValueError.
Proof.
  unfold pad. intros H.
  destruct (py_max _) as [m |] eqn:Hmax; simpl in H; [discriminate |].
  injection H as <-. apply py_max_raise in Hmax as [Hnil ->]. split; [| reflexivity].
  apply fmap_nil_inv in Hnil. apply elements_empty_iff in Hnil.
  apply dom_empty_iff_L. apply leibniz_equiv. exact Hnil.
Qed.

Lemma exits_timed_placement isn s s' :
  exits_timed s → isn ∈ program s →
  schedule_one isn s = Ok (true, s') → exits_timed s'.
Proof.
  intros Ht Hin Hone w o rm Hw.
  pose proof Hone as Hinv. apply schedule_one_inv in Hinv.
  destruct Hinv as [[? _] | (_ & mapped & _ & _ & Hout & Hproc & _ & Hprog & He)];
    [discriminate |].
  rewrite Hproc, Hprog, Hout.
  assert (Hold : ∀ w o rm, exits s !! w = Some (o, rm) →
            ∃ isn0 lat placed,
              isn0 ∈ program s ∧ outputs isn0 = [o] ∧
              Processor.get_instruction_latency (processor s) isn0 = Ok lat ∧
              (1 ≤ lat ≤ w)%nat ∧
              (output s ++ [mkIsn (cls isn) (immediate isn) mapped []])
                !! (w - lat)%nat = Some placed ∧
              cls placed = cls isn0).
  { intros w0 o0 rm0 H0.
    destruct (Ht w0 o0 rm0 H0) as (isn0 & lat & placed & H1 & H2 & H3 & H4 & H5 & H6).
    exists isn0, lat, placed. repeat split; auto; try lia.
    apply lookup_app_l_Some. exact H5. }
  destruct He as [[_ Heq] | (o' & lat & reg & Houts & Hlat & Hfree & Heq)];
    rewrite Heq in Hw; [apply (Hold w o rm Hw) |].
  apply lookup_insert_Some in Hw as [[<- Hv] | [_ Hw]]; [| apply (Hold w o rm Hw)].
  injection Hv as <- <-.
  exists isn, lat, (mkIsn (cls isn) (immediate isn) mapped []).
  pose proof (latency_positive _ _ _ Hlat).
  repeat split; auto; try lia.
  replace (length (output s) + lat - lat)%nat with (length (output s)) by lia.
  rewrite lookup_app_r by lia. rewrite Nat.sub_diag. reflexivity.
Qed.

Lemma exits_timed_append_nops s n s' :
  exits_timed s → output s' = output s ++ replicate n nop →
  exits s' = exits s → program s' = program s → processor s' = processor s →
  exits_timed s'.
Proof.
  intros Ht Hout He Hp Hproc w o rm Hw. rewrite He in Hw.
  destruct (Ht w o rm Hw) as (isn0 & lat & placed & H1 & H2 & H3 & H4 & H5 & H6).
  exists isn0, lat, placed. rewrite Hp, Hproc, Hout.
  repeat split; auto; try lia. apply lookup_app_l_Some. exact H5.
Qed.

(** The working set only ever holds instructions of the program. *)
Lemma remaining_in_program_placement isn s s' :
  (∀ x, x ∈ remaining s → x ∈ program s) →
  schedule_one isn s = Ok (true, s') →
  ∀ x, x ∈ remaining s' → x ∈ program s'.
Proof.
  intros Hsub Hone x Hx.
  apply schedule_one_inv in Hone as [[? _] | (_ & m & _ & Hrem & _ & _ & _ & Hp & _)];
    [discriminate |].
  rewrite Hp. apply Hsub. eapply list_remove_subset; eassumption.
Qed.

Lemma physical_only_placement isn s s' :
  0 ≤ reserved_data s → physical_only s →
  schedule_one isn s = Ok (true, s') → physical_only s'.
Proof.
  intros Hres0 (Hused & Hex & Hout) Hone.
  apply schedule_one_steps in Hone as (mapped & rem & s1 & Hmap & _ & Hfree & Hcase).
  apply free_inputs_inv in Hfree as ((Hp1 & Hr1 & He1 & Hg1 & Hrem1 & Ho1) & Hsub1 & Hgone1).
  simpl in *.
  assert (Hused1 : ∀ r, 0 ≤ r < reserved_data s → r ∈ used_registers s1).
  { intros r Hr. destruct (decide (r ∈ used_registers s1)) as [? | Hnot]; [assumption |].
    destruct (Hgone1 r (Hused r Hr) Hnot) as [Hle _]. lia. }
  assert (Hmapped : ∀ x, x ∈ mapped → 0 ≤ x).
  { intros x Hx. apply list_elem_of_lookup in Hx as [k Hk].
    apply map_inputs_spec in Hmap as [Hlen Hspec].
    destruct (inputs isn !! k) as [inp |] eqn:Hinp.
    2:{ apply lookup_ge_None in Hinp. apply lookup_lt_Some in Hk. lia. }
    destruct (decide (0 ≤ inp)) as [Hnn | Hneg].
    - rewrite (proj1 (Hspec k inp Hinp) Hnn) in Hk. injection Hk as <-. exact Hnn.
    - destruct (proj2 (Hspec k inp Hinp) ltac:(lia)) as (i & rm & _ & Hi & Hm).
      rewrite Hm in Hk. injection Hk as <-. pose proof (Hex i inp rm Hi). lia. }
  assert (Hnew : ∀ out0, (∀ placed, placed ∈ out0 →
                            outputs placed = [] ∧ ∀ x, x ∈ inputs placed → 0 ≤ x) →
            ∀ placed, placed ∈ out0 ++ [mkIsn (cls isn) (immediate isn) mapped []] →
              outputs placed = [] ∧ ∀ x, x ∈ inputs placed → 0 ≤ x).
  { intros out0 H0 placed Hp. apply elem_of_app in Hp as [Hp | Hp]; [apply H0, Hp |].
    apply list_elem_of_singleton in Hp as ->. simpl. auto. }
  destruct Hcase as [[_ ->] | (o & lat & reg & s2 & _ & _ & _ & Halloc & ->)].
  - unfold physical_only. simpl. rewrite Hr1, He1, Ho1.
    split; [exact Hused1 |]. split; [exact Hex |]. apply Hnew, Hout.
  - apply allocate_register_inv in Halloc as (-> & Hnot & H0 & Hlow).
    unfold physical_only. simpl. rewrite Hr1, He1, Ho1. split; [| split].
    + intros r Hr. apply elem_of_union. right. apply Hused1, Hr.
    + intros w o0 rm Hw.
      apply lookup_insert_Some in Hw as [[_ Hv] | [_ Hw]]; [| eapply Hex, Hw].
      injection Hv as <- <-.
      destruct (decide (reserved_data s ≤ reg)) as [? | Hlt]; [assumption |].
      exfalso. apply Hnot, Hused1. lia.
    + apply Hnew, Hout.
Qed.

End RunInvariants.

(** X6.  A schedule that [schedule] returns is longer than every cycle of
    its Exit Map, so each retirement falls inside the emitted program; the
    Exit Map is then not empty and the working set is.  A program without
    any output-producing instruction never yields a schedule: the padding
    takes [max] of no cycle at all. *)
Theorem schedule_covers_retirements :
  (∀ (fuel : nat) (s final : Scheduler.t),
     Scheduler.schedule fuel s = Some (Ok final) →
     (∀ i, is_Some (Scheduler.exits final !! i) →
           (i < length (Scheduler.output final))%nat) ∧
     Scheduler.exits final ≠ ∅ ∧ Scheduler.remaining final = []) ∧
  (∀ (fuel : nat) (p : Processor.t) (reserved : Z) (prog : list Isn)
     (r : result Scheduler.t),
     with_output prog = [] →
     Scheduler.schedule fuel (Scheduler.init p reserved prog) = Some r →
     ∃ e, r = Raise e) ∧
  (∀ (fuel : nat) (p : Processor.t) (reserved : Z),
     Scheduler.schedule (S fuel) (Scheduler.init p reserved [])
     = Some (Raise ValueError)).
Proof.
  split; [| split].
  - intros fuel s final H. apply schedule_inv in H as (s1 & Hloop & Hpad).
    pose proof (schedule_loop_invariant (fun _ => True)
                  (fun _ _ _ _ _ _ => I) (fun _ _ => I) _ _ _ I Hloop) as [_ Hrem].
    pose proof (pad_covers _ _ Hpad) as Hcov.
    pose proof Hpad as Hinv. apply pad_inv in Hinv as (n & _ & He & _ & Hr & _).
    split; [| split].
    + intros i Hi. apply Hcov. rewrite <- He. exact Hi.
    + rewrite He. intros Hempty. unfold Scheduler.pad in Hpad.
      rewrite Hempty, dom_empty_L, elements_empty in Hpad. discriminate.
    + rewrite Hr. exact Hrem.
  - intros fuel p reserved prog r Hnone H. unfold Scheduler.schedule in H.
    destruct (Scheduler.schedule_loop fuel _) as [[s1 | e] |] eqn:Hloop;
      simpl in H; try discriminate; injection H as <-; [| eauto].
    pose proof (schedule_loop_exits_count _ _ _ _ _ Hloop) as Hcount.
    rewrite Hnone in Hcount. simpl in Hcount. apply map_size_empty_iff in Hcount.
    unfold Scheduler.pad. rewrite Hcount, dom_empty_L, elements_empty. simpl. eauto.
  - intros fuel p reserved. reflexivity.
Qed.

(** The run of [simple_test]: the last retirement is at cycle 7 and the
    schedule has 9 slots. *)
Lemma schedule_covers_retirements_witness :
  ∃ final,
    Scheduler.schedule 10 (Scheduler.init default_processor 3 simple_test_ir)
      = Some (Ok final) ∧
    is_Some (Scheduler.exits final !! 7%nat) ∧
    length (Scheduler.output final) = 9%nat ∧
    (7 < length (Scheduler.output final))%nat.
Proof.
  destruct (Scheduler.schedule 10 (Scheduler.init default_processor 3 simple_test_ir))
    as [[final | e] |] eqn:Hrun; try (vm_compute in Hrun; discriminate Hrun).
  assert (Hi : is_Some (Scheduler.exits final !! 7%nat)).
  { vm_compute in Hrun. injection Hrun as <-. vm_compute. eauto. }
  assert (Hlen : length (Scheduler.output final) = 9%nat).
  { vm_compute in Hrun. injection Hrun as <-. reflexivity. }
  exists final. split; [reflexivity |]. split; [exact Hi |]. split; [exact Hlen |].
  exact (proj1 (proj1 schedule_covers_retirements 10%nat _ final Hrun) 7%nat Hi).
Defined.

(** X7.  Every entry of the final Exit Map is the retirement of one
    instruction of the program: the entry carries that instruction's output
    register, the instruction sits in the schedule exactly its latency
    before the entry's cycle, and that latency is at least one cycle. *)
Theorem retirement_timing (fuel : nat) (p : Processor.t) (reserved : Z)
    (prog : list Isn) (final : Scheduler.t) :
  Scheduler.schedule fuel (Scheduler.init p reserved prog) = Some (Ok final) →
  ∀ w o rm, Scheduler.exits final !! w = Some (o, rm) →
    ∃ isn lat placed,
      isn ∈ prog ∧ outputs isn = [o] ∧
      Processor.get_instruction_latency p isn = Ok lat ∧
      (1 ≤ lat ≤ w)%nat ∧
      Scheduler.output final !! (w - lat)%nat = Some placed ∧
      cls placed = cls isn.
Proof.
  intros H. apply schedule_inv in H as (s1 & Hloop & Hpad).
  pose (P := fun s : Scheduler.t =>
               exits_timed s ∧ Scheduler.program s = prog ∧
               Scheduler.processor s = p ∧
               ∀ x, x ∈ Scheduler.remaining s → x ∈ Scheduler.program s).
  destruct (schedule_loop_invariant P) with fuel (Scheduler.init p reserved prog) s1
    as [(Ht & Hprog & Hproc & _) _]; [| | | exact Hloop |].
  - intros isn s s' (Ht & Hprog & Hproc & Hsub) Hin Hone.
    pose proof Hone as Hinv. apply schedule_one_inv in Hinv.
    destruct Hinv as [[? _] | (_ & m & _ & _ & _ & Hproc' & _ & Hprog' & _)];
      [discriminate |].
    split; [eapply exits_timed_placement; eauto |].
    split; [congruence |]. split; [congruence |].
    eapply remaining_in_program_placement; eassumption.
  - intros s (Ht & Hprog & Hproc & Hsub). split; [| auto].
    eapply (exits_timed_append_nops s 1); [exact Ht | | | |]; reflexivity.
  - split; [| auto]. intros w o rm Hw. simpl in Hw. rewrite lookup_empty in Hw.
    discriminate.
  - apply pad_inv in Hpad as (n & Hout & He & Hp & _ & Hpr & _).
    pose proof (exits_timed_append_nops s1 n final Ht Hout He Hp Hpr) as Hfinal.
    intros w o rm Hw.
    destruct (Hfinal w o rm Hw) as (isn & lat & placed & H1 & H2 & H3 & H4 & H5 & H6).
    exists isn, lat, placed. rewrite Hp, Hprog in H1. rewrite Hpr, Hproc in H3. auto 10.
Qed.

(** The entry of cycle 3 in the run of [simple_test] is the add, issued at
    cycle 1 with latency 2. *)
Lemma retirement_timing_witness :
  ∃ final isn lat placed,
    Scheduler.schedule 10 (Scheduler.init default_processor 3 simple_test_ir)
      = Some (Ok final) ∧
    Scheduler.exits final !! 3%nat = Some (-2, 4) ∧
    isn ∈ simple_test_ir ∧ outputs isn = [-2] ∧
    Processor.get_instruction_latency default_processor isn = Ok lat ∧
    (1 ≤ lat ≤ 3)%nat ∧
    Scheduler.output final !! (3 - lat)%nat = Some placed ∧
    cls placed = cls isn.
Proof.
  destruct (Scheduler.schedule 10 (Scheduler.init default_processor 3 simple_test_ir))
    as [[final | e] |] eqn:Hrun; try (vm_compute in Hrun; discriminate Hrun).
  assert (He : Scheduler.exits final !! 3%nat = Some (-2, 4)).
  { vm_compute in Hrun. injection Hrun as <-. vm_compute. reflexivity. }
  destruct (retirement_timing _ _ _ _ _ Hrun 3%nat (-2) 4 He)
    as (isn & lat & placed & H1 & H2 & H3 & H4 & H5 & H6).
  exists final, isn, lat, placed. auto 10.
Defined.

Lemma schedule_loop_physical_only (fuel : nat) (p : Processor.t)
    (reserved : Z) (prog : list Isn) (s1 : Scheduler.t) :
  0 ≤ reserved →
  Scheduler.schedule_loop fuel (Scheduler.init p reserved prog) = Some (Ok s1) →
  physical_only s1 ∧ Scheduler.reserved_data s1 = reserved.
Proof.
  intros Hres Hloop.
  pose (P := fun s : Scheduler.t =>
               physical_only s ∧ Scheduler.reserved_data s = reserved).
  destruct (schedule_loop_invariant P) with fuel (Scheduler.init p reserved prog) s1
    as [HP _]; [| | | exact Hloop | exact HP].
  - intros isn s s' (Hph & Hr) _ Hone. split.
    + apply (physical_only_placement isn s s'); [lia | exact Hph | exact Hone].
    + apply schedule_one_inv in Hone as [[? _] | (_ & m & _ & _ & _ & _ & Hr' & _)];
        [discriminate | congruence].
  - intros s ((Hused & Hex & Hout) & Hr). split; [| exact Hr].
    unfold physical_only. simpl. split; [exact Hused |]. split; [exact Hex |].
    intros placed Hp. apply elem_of_app in Hp as [Hp | Hp]; [apply Hout, Hp |].
    apply list_elem_of_singleton in Hp as ->. simpl. split; [reflexivity |].
    intros x Hx. inversion Hx.
  - split; [| reflexivity]. unfold physical_only. simpl. split; [| split].
    + intros r Hr. apply elem_of_list_to_set, elem_of_seqZ. lia.
    + intros w o rm Hw. rewrite lookup_empty in Hw. discriminate.
    + intros placed Hp. inversion Hp.
Qed.

Lemma physical_only_pad s s' :
  Scheduler.pad s = Ok s' → physical_only s →
  physical_only s' ∧ Scheduler.reserved_data s' = Scheduler.reserved_data s.
Proof.
  intros Hpad (Hused & Hex & Hout).
  unfold Scheduler.pad in Hpad. bind_case_as Hpad Hmax. injection Hpad as <-.
  unfold physical_only. simpl. split; [| reflexivity].
  split; [exact Hused |]. split; [exact Hex |].
  intros placed Hp. apply elem_of_app in Hp as [Hp | Hp]; [apply Hout, Hp |].
  apply elem_of_replicate in Hp as [-> _]. simpl. split; [reflexivity |].
  intros x Hx. inversion Hx.
Qed.

(** X8.  When the reserved region is not of negative size, scheduling keeps
    it apart from the scratch registers: in every schedule returned the
    registers of the reserved region are still marked used, every exit
    entry writes a register at or above the region, every scheduled
    instruction has only non-negative operands (no SSA register is left)
    and carries no output list. *)
Theorem scheduled_registers_physical (fuel : nat) (p : Processor.t)
    (reserved : Z) (prog : list Isn) (final : Scheduler.t) :
  0 ≤ reserved →
  Scheduler.schedule fuel (Scheduler.init p reserved prog) = Some (Ok final) →
  (∀ r, 0 ≤ r < reserved → r ∈ Scheduler.used_registers final) ∧
  (∀ w o rm, Scheduler.exits final !! w = Some (o, rm) → reserved ≤ rm) ∧
  (∀ placed, placed ∈ Scheduler.output final →
             outputs placed = [] ∧ ∀ x, x ∈ inputs placed → 0 ≤ x).
Proof.
  intros Hres H. apply schedule_inv in H as (s1 & Hloop & Hpad).
  destruct (schedule_loop_physical_only _ _ _ _ _ Hres Hloop) as [Hph Hr].
  destruct (physical_only_pad _ _ Hpad Hph) as [(Hused & Hex & Hout) Hr'].
  rewrite Hr', Hr in Hused, Hex. auto.
Qed.

(** The run of [simple_test], with three reserved slots. *)
Lemma scheduled_registers_physical_witness :
  ∃ final,
    Scheduler.schedule 10 (Scheduler.init default_processor 3 simple_test_ir)
      = Some (Ok final) ∧
    (∀ r, 0 ≤ r < 3 → r ∈ Scheduler.used_registers final) ∧
    (∀ w o rm, Scheduler.exits final !! w = Some (o, rm) → 3 ≤ rm) ∧
    (∀ placed, placed ∈ Scheduler.output final →
               outputs placed = [] ∧ ∀ x, x ∈ inputs placed → 0 ≤ x).
Proof.
  destruct (Scheduler.schedule 10 (Scheduler.init default_processor 3 simple_test_ir))
    as [[final | e] |] eqn:Hrun; try (vm_compute in Hrun; discriminate Hrun).
  exists final. split; [reflexivity |].
  apply (scheduled_registers_physical 10 default_processor 3 simple_test_ir final);
    [lia | exact Hrun].
Defined.

(** * Register reuse *)

Section RegisterReuse.

Import Scheduler.

Lemma unreferenced_spec inp rem :
  unreferenced inp rem = true ↔ ¬ ∃ isn, isn ∈ rem ∧ inp ∈ inputs isn.
Proof.
  unfold unreferenced. rewrite forallb_forall. split.
  - intros H (isn & Hin & Hinp). apply list_elem_of_In in Hin.
    specialize (H isn Hin). rewrite forallb_forall in H.
    apply list_elem_of_In in Hinp. specialize (H inp Hinp).
    apply bool_decide_eq_true in H. contradiction.
  - intros H isn Hin. apply forallb_forall. intros rinp Hr.
    apply bool_decide_eq_true. intros <-. apply H. exists isn.
    split; apply list_elem_of_In; assumption.
Qed.

Lemma list_remove_elem_of isn l l' : list_remove isn l = Ok l' → isn ∈ l.
Proof.
  intros H. apply list_remove_split in H as (l1 & l2 & -> & _).
  apply elem_of_app. right. left.
Qed.

(** A register that the freeing loop of a placement released belonged to an
    operand of the placed instruction that nothing waits for any more. *)
Lemma placement_freed isn s mapped rem s1 r :
  map_inputs (exits s) (length (output s)) (inputs isn) = Some mapped →
  list_remove isn (remaining s) = Ok rem →
  free_inputs (zip (inputs isn) mapped) (set_remaining rem s) = Ok s1 →
  r ∈ used_registers s → r ∉ used_registers s1 →
  ∃ i inp, (i < length (output s))%nat ∧ exits s !! i = Some (inp, r) ∧
           live s inp ∧ ¬ live (set_remaining rem s) inp.
Proof.
  intros Hmap Hrem Hfree Hin Hnot.
  apply free_inputs_inv in Hfree as (_ & _ & Hgone).
  destruct (Hgone r Hin Hnot) as (_ & inp & Hz & Hneg & Hun).
  apply zip_elem_lookup in Hz as (k & Hk & Hm).
  apply map_inputs_spec in Hmap as [_ Hspec].
  destruct (proj2 (Hspec k inp Hk) Hneg) as (i & rm & Hi & He & Hm').
  rewrite Hm in Hm'. injection Hm' as <-.
  exists i, inp. split; [exact Hi |]. split; [exact He |]. split.
  - exists isn. split; [eapply list_remove_elem_of; exact Hrem |].
    apply list_elem_of_lookup. eauto.
  - simpl in Hun. apply unreferenced_spec in Hun. exact Hun.
Qed.

Lemma registers_exclusive_placement isn s s' :
  registers_exclusive s → schedule_one isn s = Ok (true, s') →
  registers_exclusive s'.
Proof.
  intros (K1 & K2 & K3) Hone.
  apply schedule_one_steps in Hone as (mapped & rem & s1 & Hmap & Hrem & Hfree & Hcase).
  pose proof (placement_freed isn s mapped rem s1) as Hfreed.
  specialize (fun r => Hfreed r Hmap Hrem Hfree).
  pose proof Hfree as Hinv.
  apply free_inputs_inv in Hinv as ((Hp1 & Hr1 & He1 & Hg1 & Hrem1 & Ho1) & Hsub1 & _).
  simpl in He1, Hrem1, Ho1.
  assert (Hlive : ∀ o, live (set_remaining rem s) o → live s o).
  { intros o (x & Hx & Ho). exists x. split; [| exact Ho].
    eapply list_remove_subset; eassumption. }
  (* the register of an entry still awaited after the placement stays in use *)
  assert (Hkeep : ∀ w o rm, exits s !! w = Some (o, rm) →
            live (set_remaining rem s) o → rm ∈ used_registers s1).
  { intros w o rm Hw Hl.
    destruct (decide (rm ∈ used_registers s1)) as [? | Hnot]; [assumption |].
    exfalso. pose proof (K1 w o rm Hw (Hlive o Hl)) as Hu.
    destruct (Hfreed rm Hu Hnot) as (i & inp & Hi & Hei & Hli & Hdead).
    destruct (decide (i = w)) as [-> | Hne].
    - rewrite Hw in Hei. injection Hei as <-. contradiction.
    - pose proof (K2 w o rm i inp Hw (Hlive o Hl) Hei Hne).
      pose proof (K2 i inp rm w o Hei Hli Hw ltac:(congruence)). lia. }
  (* an entry whose register has left the set in use belongs to the past *)
  assert (Hpast : ∀ w o rm, exits s !! w = Some (o, rm) →
            rm ∉ used_registers s1 → (w < length (output s))%nat).
  { intros w o rm Hw Hnot.
    destruct (K3 w o rm Hw) as [Hu | Hlt]; [| exact Hlt].
    destruct (Hfreed rm Hu Hnot) as (i & inp & Hi & Hei & Hli & _).
    destruct (decide (w = i)) as [-> | Hne]; [exact Hi |].
    pose proof (K2 i inp rm w o Hei Hli Hw Hne). lia. }
  destruct Hcase as [[_ ->] | (o & lat & reg & s2 & _ & _ & Hnone & Halloc & ->)].
  - unfold registers_exclusive. simpl. rewrite He1, Ho1, length_app. simpl.
    assert (Hl' : ∀ o, live s1 o → live (set_remaining rem s) o).
    { intros o0 (x & Hx & Ho0). exists x. simpl. rewrite <- Hrem1. auto. }
    split; [| split].
    + intros w o rm Hw Hl. eapply Hkeep; eauto.
    + intros w o rm w' o' Hw Hl Hw' Hne. eapply K2; eauto.
    + intros w o rm Hw.
      destruct (decide (rm ∈ used_registers s1)) as [? | Hnot]; [left; assumption |].
      right. pose proof (Hpast w o rm Hw Hnot). lia.
  - apply allocate_register_inv in Halloc as (-> & Hfresh & _ & _).
    unfold registers_exclusive. simpl. rewrite He1, Ho1, length_app. simpl.
    assert (Hl' : ∀ o, live s1 o → live (set_remaining rem s) o).
    { intros o0 (x & Hx & Ho0). exists x. simpl. rewrite <- Hrem1. auto. }
    split; [| split].
    + intros w o0 rm Hw Hl.
      apply lookup_insert_Some in Hw as [[_ Hv] | [_ Hw]].
      * injection Hv as <- <-. apply elem_of_union. left. apply elem_of_singleton.
        reflexivity.
      * apply elem_of_union. right. eapply Hkeep; eauto.
    + intros w o0 rm w' o' Hw Hl Hw' Hne.
      apply lookup_insert_Some in Hw as [[<- Hv] | [Hnw Hw]];
        apply lookup_insert_Some in Hw' as [[<- Hv'] | [Hnw' Hw']].
      * contradiction.
      * injection Hv as <- <-.
        pose proof (Hpast w' o' reg Hw' Hfresh). lia.
      * injection Hv' as <- <-. exfalso. apply Hfresh. eapply Hkeep; eauto.
      * eapply K2; eauto.
    + intros w o0 rm Hw.
      apply lookup_insert_Some in Hw as [[_ Hv] | [_ Hw]].
      * injection Hv as <- <-. left. apply elem_of_union. left.
        apply elem_of_singleton. reflexivity.
      * destruct (decide (rm ∈ used_registers s1)) as [? | Hnot].
        -- left. apply elem_of_union. right. assumption.
        -- right. pose proof (Hpast w o0 rm Hw Hnot). lia.
Qed.

Lemma registers_exclusive_stall s :
  registers_exclusive s → registers_exclusive (append_output nop s).
Proof.
  intros (K1 & K2 & K3). unfold registers_exclusive. simpl.
  split; [exact K1 |]. split; [exact K2 |].
  intros w o rm Hw. rewrite length_app. simpl.
  destruct (K3 w o rm Hw); [left; assumption | right; lia].
Qed.

Lemma reads_safe_placement isn s s' :
  registers_exclusive s → reads_safe s → isn ∈ program s →
  schedule_one isn s = Ok (true, s') → reads_safe s'.
Proof.
  intros (K1 & K2 & K3) Hsafe Hprog Hone c placed Hc.
  pose proof Hone as Hsteps.
  apply schedule_one_steps in Hsteps as (mapped0 & rem & s1 & Hmap0 & Hrem & _ & _).
  apply schedule_one_inv in Hone as [[? _] | (_ & mapped & Hmap & _ & Hout & _ & _ & Hp & He)];
    [discriminate |].
  rewrite Hp. rewrite Hout in Hc.
  (* how the exit map grows *)
  assert (Hgrow : ∀ w v, exits s !! w = Some v → exits s' !! w = Some v).
  { intros w v Hw. destruct He as [[_ ->] | (o & lat & reg & _ & _ & Hnone & ->)];
      [exact Hw |].
    rewrite lookup_insert_ne; [exact Hw | congruence]. }
  assert (Hnew : ∀ w' o' rm, exits s' !! w' = Some (o', rm) →
            exits s !! w' = Some (o', rm) ∨ (length (output s) < w')%nat).
  { intros w' o' rm Hw'.
    destruct He as [[_ Heq] | (o & lat & reg & _ & Hlat & _ & Heq)];
      rewrite Heq in Hw'; [left; exact Hw' |].
    apply lookup_insert_Some in Hw' as [[<- _] | [_ Hw']]; [| left; exact Hw'].
    right. apply latency_positive in Hlat. lia. }
  destruct (decide (c < length (output s))%nat) as [Hlt | Hge].
  - rewrite lookup_app_l in Hc by exact Hlt.
    destruct (Hsafe c placed Hc) as [-> | (isn0 & Hin0 & Hcls & Hk)];
      [left; reflexivity |].
    right. exists isn0. split; [exact Hin0 |]. split; [exact Hcls |].
    intros k inp Hinp Hneg.
    destruct (Hk k inp Hinp Hneg) as (w & rm & Hw & Hex & Hpl & Hsole).
    exists w, rm. split; [exact Hw |]. split; [apply Hgrow, Hex |].
    split; [exact Hpl |]. intros w' o' Hw'.
    destruct (Hnew w' o' rm Hw') as [Hold | Hlate]; [eapply Hsole, Hold |].
    right. right. lia.
  - rewrite lookup_app_r in Hc by lia.
    destruct (c - length (output s))%nat as [| n] eqn:Hn; [| discriminate].
    injection Hc as <-. assert (c = length (output s)) as -> by lia.
    right. exists isn. split; [exact Hprog |]. split; [reflexivity |].
    intros k inp Hinp Hneg. simpl.
    apply map_inputs_spec in Hmap as [_ Hspec].
    destruct (proj2 (Hspec k inp Hinp) Hneg) as (w & rm & Hw & Hex & Hm).
    exists w, rm. split; [exact Hw |]. split; [apply Hgrow, Hex |].
    split; [exact Hm |]. intros w' o' Hw'.
    destruct (Hnew w' o' rm Hw') as [Hold | Hlate]; [| right; right; lia].
    destruct (decide (w' = w)) as [-> | Hne]; [left; reflexivity |].
    right. left. eapply (K2 w inp rm w' o'); eauto.
    exists isn. split; [eapply list_remove_elem_of; exact Hrem |].
    apply list_elem_of_lookup. eauto.
Qed.

Lemma reads_safe_append_nops s n s' :
  reads_safe s → output s' = output s ++ replicate n nop →
  exits s' = exits s → program s' = program s → reads_safe s'.
Proof.
  intros Hs Hout He Hp c placed Hc. rewrite Hout in Hc. rewrite He, Hp.
  apply lookup_app_Some in Hc as [Hc | [_ Hc]]; [apply Hs, Hc |].
  apply lookup_replicate in Hc as [-> _]. left. reflexivity.
Qed.

End RegisterReuse.

(** X9.  Register reuse never clobbers a value that is still to be read.  In
    every schedule returned, each SSA operand of a scheduled instruction
    reads a register whose exit entry for that operand lies at an earlier
    cycle, and every other exit entry writing the same register lies before
    that entry or after the reading instruction's cycle: nothing else is
    written to the register between the producer's retirement and the
    read. *)
Theorem register_reuse_safe (fuel : nat) (p : Processor.t) (reserved : Z)
    (prog : list Isn) (final : Scheduler.t) :
  Scheduler.schedule fuel (Scheduler.init p reserved prog) = Some (Ok final) →
  ∀ c placed, Scheduler.output final !! c = Some placed →
    placed = Scheduler.nop ∨
    ∃ isn, isn ∈ prog ∧ cls placed = cls isn ∧
      ∀ k inp, inputs isn !! k = Some inp → inp < 0 →
        ∃ w rm, (w < c)%nat ∧ Scheduler.exits final !! w = Some (inp, rm) ∧
                inputs placed !! k = Some rm ∧
                ∀ w' o', Scheduler.exits final !! w' = Some (o', rm) →
                         w' = w ∨ (w' < w)%nat ∨ (c < w')%nat.
Proof.
  intros H. apply schedule_inv in H as (s1 & Hloop & Hpad).
  pose (P := fun s : Scheduler.t =>
               registers_exclusive s ∧ reads_safe s ∧
               Scheduler.program s = prog ∧
               ∀ x, x ∈ Scheduler.remaining s → x ∈ Scheduler.program s).
  destruct (schedule_loop_invariant P) with fuel (Scheduler.init p reserved prog) s1
    as [(_ & Hsafe & Hprog & _) _]; [| | | exact Hloop |].
  - intros isn s s' (Hx & Hs & Hp & Hsub) Hin Hone.
    split; [eapply registers_exclusive_placement; eassumption |].
    split; [eapply reads_safe_placement; eauto |].
    split; [| eapply remaining_in_program_placement; eassumption].
    apply schedule_one_inv in Hone as [[? _] | (_ & m & _ & _ & _ & _ & _ & Hp' & _)];
      [discriminate | congruence].
  - intros s (Hx & Hs & Hp & Hsub).
    split; [apply registers_exclusive_stall, Hx |]. split; [| auto].
    eapply (reads_safe_append_nops s 1); [exact Hs | | |]; reflexivity.
  - split; [| split; [| auto]].
    + unfold registers_exclusive. simpl. split; [| split].
      * intros w o rm Hw. rewrite lookup_empty in Hw. discriminate.
      * intros w o rm w' o' Hw. rewrite lookup_empty in Hw. discriminate.
      * intros w o rm Hw. rewrite lookup_empty in Hw. discriminate.
    + intros c placed Hc. discriminate.
  - apply pad_inv in Hpad as (n & Hout & He & Hp & _).
    pose proof (reads_safe_append_nops s1 n final Hsafe Hout He Hp) as Hfinal.
    intros c placed Hc.
    destruct (Hfinal c placed Hc) as [-> | (isn & Hin & Hcls & Hk)];
      [left; reflexivity |].
    right. exists isn. rewrite Hp, Hprog in Hin. auto.
Qed.

(** The run of [global_example] gives register 2 to all three results in
    turn; the add of cycle 5 reads it between the writes of cycles 4
    and 7. *)
Lemma register_reuse_safe_witness :
  let placed := mkIsn AddIsn None [2; 2] [] in
  ∃ final,
    Scheduler.schedule 10 (Scheduler.init default_processor 2 global_example_ir)
      = Some (Ok final) ∧
    Scheduler.exits final =
      {[ 1%nat := (-1, 2); 4%nat := (-2, 2); 7%nat := (-3, 2) ]} ∧
    Scheduler.output final !! 5%nat = Some placed ∧
    (placed = Scheduler.nop ∨
     ∃ isn, isn ∈ global_example_ir ∧ cls placed = cls isn ∧
       ∀ k inp, inputs isn !! k = Some inp → inp < 0 →
         ∃ w rm, (w < 5)%nat ∧ Scheduler.exits final !! w = Some (inp, rm) ∧
                 inputs placed !! k = Some rm ∧
                 ∀ w' o', Scheduler.exits final !! w' = Some (o', rm) →
                          w' = w ∨ (w' < w)%nat ∨ (5 < w')%nat).
Proof.
  intros placed.
  destruct (Scheduler.schedule 10 (Scheduler.init default_processor 2 global_example_ir))
    as [[final | e] |] eqn:Hrun; try (vm_compute in Hrun; discriminate Hrun).
  assert (He : Scheduler.exits final =
               {[ 1%nat := (-1, 2); 4%nat := (-2, 2); 7%nat := (-3, 2) ]}).
  { vm_compute in Hrun. injection Hrun as <-. vm_compute. reflexivity. }
  assert (Ho : Scheduler.output final !! 5%nat = Some placed).
  { vm_compute in Hrun. injection Hrun as <-. reflexivity. }
  exists final. split; [reflexivity |]. split; [exact He |]. split; [exact Ho |].
  exact (register_reuse_safe _ _ _ _ _ Hrun 5%nat placed Ho).
Defined.

(** * What a schedule holds *)

Section Placed.

Import Scheduler.






End Placed.



(** * Results of [compile] *)

Section CompileResults.

(** The stages of a successful [compile]. *)
Lemma compile_inv fuel processor arg body cp :
  compile fuel processor arg body = Some (Ok cp) →
  ∃ ir sched in_max out_max,
    build_ir arg body = Ok ir ∧
    Scheduler.schedule fuel
      (Scheduler.init processor (Z.of_nat (length (ASTCompiler.data ir)))
         (ASTCompiler.program ir)) = Some (Ok sched) ∧
    py_max ((fun isn => foldl Z.max 0 (inputs isn ++ [0]))
              <$> Scheduler.output sched) = Ok in_max ∧
    py_max ((fun kv => snd (snd kv)) <$> map_to_list (Scheduler.exits sched))
      = Ok out_max ∧
    cp = {| CompiledProgram.processor := processor;
            CompiledProgram.program := Scheduler.output sched;
            CompiledProgram.exits := snd <$> Scheduler.exits sched;
            CompiledProgram.data :=
              ASTCompiler.data ir ++
              replicate (Z.to_nat (Z.max in_max out_max
                                   - Z.of_nat (length (ASTCompiler.data ir)) + 1)) 0;
            CompiledProgram.globals := ASTCompiler.globals ir |}.
Proof.
  unfold compile. intros H.
  destruct (build_ir arg body) as [ir | e] eqn:Hir; [| discriminate].
  destruct (Scheduler.schedule fuel _) as [[sched | e] |] eqn:Hs; simpl in H;
    try discriminate.
  injection H as H.
  destruct (py_max (_ <$> Scheduler.output sched)) as [in_max |] eqn:Hin;
    simpl in H; [| discriminate].
  destruct (py_max (_ <$> map_to_list (Scheduler.exits sched))) as [out_max |] eqn:Hout;
    simpl in H; [| discriminate].
  injection H as <-. exists ir, sched, in_max, out_max. auto.
Qed.

Lemma allocate_initial s n r s' :
  Scheduler.used_registers s = list_to_set (seqZ 0 n) → 0 ≤ n →
  Scheduler.allocate_register s = Ok (r, s') → r = n ∧ 0 < n.
Proof.
  intros Hused Hn H.
  assert (Hpos : 0 < n).
  { destruct (decide (0 < n)) as [? | Hle]; [assumption |]. exfalso.
    assert (Hraise : Scheduler.allocate_register s = Raise ValueError).
    { apply allocate_register_raises. left. rewrite Hused.
      rewrite seqZ_nil by lia. reflexivity. }
    congruence. }
  split; [| exact Hpos].
  apply allocate_register_inv in H as (_ & Hnot & H0 & Hlow).
  rewrite Hused in Hnot, Hlow.
  assert (Hge : n ≤ r).
  { destruct (decide (n ≤ r)) as [? | Hlt]; [assumption |]. exfalso.
    apply Hnot. apply elem_of_list_to_set, elem_of_seqZ. lia. }
  destruct (decide (r = n)) as [? | Hne]; [assumption |]. exfalso.
  assert (Hin : n ∈ (list_to_set (seqZ 0 n) : gset Z)) by (apply Hlow; lia).
  apply elem_of_list_to_set, elem_of_seqZ in Hin. lia.
Qed.

(** The first iteration of the loop on a program that opens with the input
    instruction, and what the rest of the run keeps of it. *)
Lemma input_placed_first fuel p n o rest s1 :
  0 ≤ n →
  Scheduler.schedule_loop fuel
    (Scheduler.init p n (mkIsn InputIsn None [] [o] :: rest)) = Some (Ok s1) →
  0 < n ∧
  Scheduler.output s1 !! 0%nat = Some (mkIsn InputIsn None [] []) ∧
  Scheduler.exits s1 !! 1%nat = Some (o, n).
Proof.
  intros Hn H. destruct fuel as [| fuel]; [discriminate |].
  set (first := mkIsn InputIsn None [] [o]) in *.
  set (s0 := Scheduler.init p n (first :: rest)) in *.
  cbn [Scheduler.schedule_loop] in H.
  change (Scheduler.remaining s0) with (first :: rest) in H.
  cbn [Scheduler.scan] in H.
  destruct (Scheduler.schedule_one first s0) as [[b s'] | e] eqn:Hone;
    simpl in H; [| discriminate].
  destruct b.
  2:{ exfalso. apply schedule_one_refused in Hone as [Hnone | (_ & lat & _ & Htaken)].
      - discriminate Hnone.
      - simpl in Htaken. rewrite lookup_empty in Htaken.
        destruct Htaken as [? Ht]. discriminate. }
  apply schedule_one_steps in Hone
    as (mapped & rem & s1' & Hmap & Hrem & Hfree & Hcase).
  simpl in Hmap. injection Hmap as <-. simpl in Hfree. injection Hfree as <-.
  destruct Hcase as [[Hout _] | (o' & lat & reg & s2 & Hout & Hlat & _ & Halloc & ->)];
    [discriminate |].
  injection Hout as <-. injection Hlat as <-.
  destruct (allocate_initial (Scheduler.set_remaining rem s0) n reg s2
              ltac:(reflexivity) Hn Halloc) as [-> Hpos].
  apply allocate_register_frame in Halloc as (_ & _ & He2 & _ & _ & Ho2).
  simpl in He2, Ho2.
  split; [exact Hpos |].
  refine (proj1 (schedule_loop_invariant
            (fun s => Scheduler.output s !! 0%nat = Some (mkIsn InputIsn None [] []) ∧
                      Scheduler.exits s !! 1%nat = Some (o, n))
            _ _ fuel _ s1 _ H)).
  - intros isn s s'' [Ho He] _ Hone'. split.
    + apply schedule_one_inv in Hone' as [[? _] | (_ & m & _ & _ & Hout' & _)];
        [discriminate |].
      rewrite Hout'. apply lookup_app_l_Some. exact Ho.
    + eapply schedule_one_exits_mono; eassumption.
  - intros s [Ho He]. split; [| exact He]. simpl.
    apply lookup_app_l_Some. exact Ho.
  - simpl. rewrite He2, Ho2. simpl. split; [reflexivity |].
    apply lookup_insert_eq.
Qed.

End CompileResults.

(** X11.  Whenever [compile] returns a program, its first instruction is
    the input instruction and the Exit Map sends cycle 1 to the register
    just above the builder's Data Table: the function's argument arrives in
    register [len(data)] at cycle 1.  The builder's Data Table is then not
    empty. *)
Theorem argument_register (fuel : nat) (processor : Processor.t)
    (arg : string) (body : list stmt) (cp : CompiledProgram.t) :
  compile fuel processor arg body = Some (Ok cp) →
  ∃ ir, build_ir arg body = Ok ir ∧
        ASTCompiler.data ir ≠ [] ∧
        CompiledProgram.program cp !! 0%nat = Some (mkIsn InputIsn None [] []) ∧
        CompiledProgram.exits cp !! 1%nat
          = Some (Z.of_nat (length (ASTCompiler.data ir))) ∧
        CompiledProgram.globals cp = ASTCompiler.globals ir.
Proof.
  intros H. apply compile_inv in H as (ir & sched & in_max & out_max & Hir & Hs & _ & _ & ->).
  exists ir. split; [exact Hir |].
  destruct (build_ir_head _ _ _ Hir) as [rest Hprog]. rewrite Hprog in Hs.
  apply schedule_inv in Hs as (s1 & Hloop & Hpad).
  apply input_placed_first in Hloop as (Hpos & Ho & He); [| lia].
  apply pad_inv in Hpad as (n & Hout & Hex & _).
  simpl. split; [| split; [| split; [| reflexivity]]].
  - intros Hnil. rewrite Hnil in Hpos. simpl in Hpos. lia.
  - rewrite Hout. apply lookup_app_l_Some. exact Ho.
  - rewrite lookup_fmap, Hex, He. reflexivity.
Qed.

(** [simple_test]: three constants, so the argument arrives in
    register 3. *)
Lemma argument_register_witness :
  ∃ cp ir, compile 10 default_processor "x" simple_test = Some (Ok cp) ∧
           build_ir "x" simple_test = Ok ir ∧
           ASTCompiler.data ir = [5; 3; 4] ∧
           CompiledProgram.program cp !! 0%nat = Some (mkIsn InputIsn None [] []) ∧
           CompiledProgram.exits cp !! 1%nat = Some 3.
Proof.
  destruct (compile 10 default_processor "x" simple_test) as [[cp | e] |] eqn:Hrun;
    try (vm_compute in Hrun; discriminate Hrun).
  destruct (argument_register _ _ _ _ _ Hrun) as (ir & Hir & _ & Ho & He & _).
  exists cp, ir. split; [reflexivity |]. split; [exact Hir |].
  assert (Hd : ASTCompiler.data ir = [5; 3; 4]).
  { vm_compute in Hir. injection Hir as <-. reflexivity. }
  split; [exact Hd |]. split; [exact Ho |]. rewrite He, Hd. reflexivity.
Defined.

(** * Bodies the builder accepts *)

Section BuilderAccepts.

Import ASTCompiler.

Lemma emit_expr_accepts e s :
  (∃ r s', emit_expr e s = Ok (r, s')) ↔ expr_closed (dom (names s)) e = true.
Proof.
  revert s. induction e as [l IHl op rr IHr | n | id | | |]; intros s; simpl.
  - split.
    + intros (r & s' & H). bind_case_as H El. destruct a as [lhs s1].
      bind_case_as H Er. destruct a as [rhs s2]. bind_case_as H Hop.
      pose proof (emit_expr_extends _ _ _ _ El) as [_ Hn1].
      rewrite (proj1 (IHl s) ltac:(eauto)).
      rewrite <- Hn1. rewrite (proj1 (IHr s1) ltac:(eauto)).
      destruct op; try discriminate; reflexivity.
    + intros H. apply andb_prop in H as [H Hop]. apply andb_prop in H as [Hl Hr].
      apply IHl in Hl as (lhs & s1 & El). rewrite El. simpl.
      pose proof (emit_expr_extends _ _ _ _ El) as [_ Hn1].
      rewrite <- Hn1 in Hr. apply IHr in Hr as (rhs & s2 & Er). rewrite Er. simpl.
      destruct (operator_class _ Hop) as [c ->]. simpl. eauto.
  - split; [reflexivity |]. intros _. destruct (constants s !! n); eauto.
  - split.
    + intros (r & s' & H). destruct (names s !! id) eqn:Hid; [| discriminate].
      apply bool_decide_eq_true. apply elem_of_dom. eauto.
    + intros H. apply bool_decide_eq_true in H. apply elem_of_dom in H as [r Hr].
      rewrite Hr. eauto.
  - split; [intros (r & s' & H); discriminate | discriminate].
  - split; [intros (r & s' & H); discriminate | discriminate].
  - split; [intros (r & s' & H); discriminate | discriminate].
Qed.

Lemma bind_targets_accepts targets output s :
  (∀ s', bind_targets targets output s = Ok s' →
         ∃ ids, target_ids targets = Some ids ∧
                dom (names s') = list_to_set ids ∪ dom (names s)) ∧
  (∀ ids, target_ids targets = Some ids →
          ∃ s', bind_targets targets output s = Ok s').
Proof.
  revert s. induction targets as [| target targets IH]; intros s; simpl.
  - split.
    + intros s' H. injection H as <-. exists []. split; [reflexivity |].
      simpl. set_solver.
    + intros ids _. eauto.
  - destruct target; try (split; [intros s' H; discriminate | intros ids H; discriminate]).
    destruct (IH (set_name id output s)) as [IH1 IH2]. split.
    + intros s' H. destruct (IH1 s' H) as (ids & -> & Hdom).
      exists (id :: ids). split; [reflexivity |]. rewrite Hdom. simpl.
      rewrite dom_insert_L. set_solver.
    + intros ids H. destruct (target_ids targets) as [ids' |]; [| discriminate].
      eapply IH2. reflexivity.
Qed.

Lemma emit_body_accepts body s :
  (∃ s', emit_body body s = Ok s') ↔ body_closed (dom (names s)) body = true.
Proof.
  revert s. induction body as [| node body IH]; intros s; simpl.
  - split; eauto.
  - destruct node as [targets value | [value |] | gnames | | | | |]; simpl;
      try (split; [intros (s' & H); discriminate | discriminate]).
    + split.
      * intros (s' & H). bind_case_as H Hemit. rename a into s1.
        simpl in Hemit. bind_case_as Hemit Hv. destruct a as [output s0].
        pose proof (emit_expr_extends _ _ _ _ Hv) as [_ Hn0].
        rewrite (proj1 (emit_expr_accepts value s) ltac:(eauto)). simpl.
        destruct (proj1 (bind_targets_accepts targets output s0) s1 Hemit)
          as (ids & -> & Hdom).
        rewrite <- Hn0, <- Hdom. apply IH. eauto.
      * intros H. apply andb_prop in H as [Hv Hrest].
        apply emit_expr_accepts in Hv as (output & s0 & Hv). rewrite Hv. simpl.
        pose proof (emit_expr_extends _ _ _ _ Hv) as [_ Hn0].
        destruct (target_ids targets) as [ids |] eqn:Hids; [| discriminate].
        destruct (proj2 (bind_targets_accepts targets output s0) ids Hids)
          as [s1 Hbind].
        rewrite Hbind. simpl.
        destruct (proj1 (bind_targets_accepts targets output s0) s1 Hbind)
          as (ids' & Hids' & Hdom).
        rewrite Hids in Hids'. injection Hids' as <-.
        apply IH. rewrite Hdom, Hn0. exact Hrest.
    + split.
      * intros (s' & H). bind_case_as H Hemit. bind_case_as Hemit Hv.
        destruct a0 as [v s0]. apply emit_expr_accepts. eauto.
      * intros H. apply emit_expr_accepts in H as (v & s0 & Hv). rewrite Hv.
        simpl. eauto.
    + apply IH.
Qed.

Lemma add_globals_names gnames s :
  dom (names (foldl (fun s name => snd (add_global name s)) s gnames))
  = list_to_set gnames ∪ dom (names s).
Proof.
  revert s. induction gnames as [| g gnames IH]; intros s; simpl; [set_solver |].
  rewrite IH. simpl. rewrite dom_insert_L. set_solver.
Qed.

Lemma declare_globals_names body s :
  dom (names (declare_globals body s))
  = list_to_set (global_names body) ∪ dom (names s).
Proof.
  revert s. induction body as [| node body IH]; intros s; simpl; [set_solver |].
  unfold global_names. simpl. fold (global_names body).
  destruct node; try (rewrite IH; set_solver).
  rewrite IH, add_globals_names. rewrite list_to_set_app_L. set_solver.
Qed.

Lemma build_ir_initial_names arg body :
  dom (names (input arg (declare_globals body init)))
  = {[arg]} ∪ list_to_set (global_names body).
Proof.
  unfold input. simpl. rewrite dom_insert_L, declare_globals_names. simpl.
  rewrite dom_empty_L. set_solver.
Qed.

End BuilderAccepts.

(** X12.  The builder returns an IR exactly for the bodies that, up to the
    first [return], hold only assignments to plain names, [global]
    statements and expressions over [+], [-], [*], literals and names, each
    name being the argument, a declared global or the target of an earlier
    assignment.  Every other body makes it raise. *)
Theorem build_ir_accepts (arg : string) (body : list stmt) :
  (∃ ir, build_ir arg body = Ok ir) ↔
  body_closed ({[arg]} ∪ list_to_set (global_names body)) body = true.
Proof.
  unfold build_ir. rewrite <- build_ir_initial_names. apply emit_body_accepts.
Qed.

(** [simple_test] is accepted; using [b] before binding it is not. *)
Lemma build_ir_accepts_witness :
  (∃ ir, build_ir "x" simple_test = Ok ir) ∧
  ¬ (∃ ir, build_ir "x" [Return (Some (Name "b"))] = Ok ir) ∧
  build_ir "x" [Return (Some (Name "b"))] = Raise KeyError.
Proof.
  split; [| split].
  - apply (proj2 (build_ir_accepts "x" simple_test)). vm_compute. reflexivity.
  - intros H. apply (proj1 (build_ir_accepts "x" _)) in H.
    vm_compute in H. discriminate H.
  - vm_compute. reflexivity.
Defined.

(** * The data image of a compiled program *)

Section CompiledData.

(** What the two maxima of [compile] range over. *)
Lemma operand_maximum output in_max :
  py_max ((fun isn => foldl Z.max 0 (inputs isn ++ [0])) <$> output) = Ok in_max →
  0 ≤ in_max ∧
  (∀ isn r, isn ∈ output → r ∈ inputs isn → r ≤ in_max) ∧
  (in_max = 0 ∨ ∃ isn, isn ∈ output ∧ in_max ∈ inputs isn).
Proof.
  intros H. apply py_max_inv in H as [Hin Hle].
  apply list_elem_of_fmap in Hin as (isn & Heq & Hisn).
  destruct (foldl_max_spec 0 (inputs isn ++ [0])) as [Hmem Hub].
  rewrite <- Heq in Hmem, Hub. split; [| split].
  - apply Hub. left.
  - intros q r Hq Hr. transitivity (foldl Z.max 0 (inputs q ++ [0])).
    + apply foldl_max_spec. right. apply elem_of_app. left. exact Hr.
    + apply Hle. apply list_elem_of_fmap. eauto.
  - apply elem_of_cons in Hmem as [-> | Hmem]; [left; reflexivity |].
    apply elem_of_app in Hmem as [Hmem | Hmem].
    + right. eauto.
    + apply list_elem_of_singleton in Hmem. left. exact Hmem.
Qed.

Lemma exit_maximum (exits : gmap nat (Z * Z)) out_max :
  py_max ((fun kv => snd (snd kv)) <$> map_to_list exits) = Ok out_max →
  (∃ c o, exits !! c = Some (o, out_max)) ∧
  (∀ c o rm, exits !! c = Some (o, rm) → rm ≤ out_max).
Proof.
  intros H. apply py_max_inv in H as [Hin Hle]. split.
  - apply list_elem_of_fmap in Hin as ([c [o rm]] & Heq & Hkv).
    apply elem_of_map_to_list in Hkv. simpl in Heq. subst rm. eauto.
  - intros c o rm Hc. apply Hle. apply list_elem_of_fmap.
    exists (c, (o, rm)). split; [reflexivity |].
    apply elem_of_map_to_list. exact Hc.
Qed.

(** The run behind a compiled program: the reserved region is the builder's
    Data Table, which is not empty, and the schedule names physical
    registers only. *)
Lemma compile_run fuel processor arg body cp :
  compile fuel processor arg body = Some (Ok cp) →
  ∃ ir sched in_max out_max,
    build_ir arg body = Ok ir ∧
    0 < Z.of_nat (length (ASTCompiler.data ir)) ∧
    physical_only sched ∧
    Scheduler.reserved_data sched = Z.of_nat (length (ASTCompiler.data ir)) ∧
    py_max ((fun isn => foldl Z.max 0 (inputs isn ++ [0]))
              <$> Scheduler.output sched) = Ok in_max ∧
    py_max ((fun kv => snd (snd kv)) <$> map_to_list (Scheduler.exits sched))
      = Ok out_max ∧
    CompiledProgram.processor cp = processor ∧
    CompiledProgram.program cp = Scheduler.output sched ∧
    CompiledProgram.exits cp = snd <$> Scheduler.exits sched ∧
    CompiledProgram.data cp =
      ASTCompiler.data ir ++
      replicate (Z.to_nat (Z.max in_max out_max
                           - Z.of_nat (length (ASTCompiler.data ir)) + 1)) 0.
Proof.
  intros H.
  apply compile_inv in H as (ir & sched & in_max & out_max & Hir & Hs & Hin & Hout & ->).
  exists ir, sched, in_max, out_max. split; [exact Hir |].
  destruct (build_ir_head _ _ _ Hir) as [rest Hprog].
  apply schedule_inv in Hs as (s1 & Hloop & Hpad).
  pose proof Hloop as Hloop'. rewrite Hprog in Hloop'.
  apply input_placed_first in Hloop' as (Hpos & _); [| lia].
  apply schedule_loop_physical_only in Hloop as [Hphys Hres]; [| lia].
  destruct (physical_only_pad _ _ Hpad Hphys) as [Hphys' Hres'].
  split; [exact Hpos |]. split; [exact Hphys' |].
  split; [rewrite Hres', Hres; reflexivity |].
  split; [exact Hin |]. split; [exact Hout |]. simpl. auto.
Qed.

(** The registers of a compiled program lie between 0 and [max_reg], the
    one [compile] sizes the data image by; [max_reg] itself is named. *)
Lemma compile_registers fuel processor arg body cp :
  compile fuel processor arg body = Some (Ok cp) →
  ∃ ir max_reg,
    build_ir arg body = Ok ir ∧
    0 < Z.of_nat (length (ASTCompiler.data ir)) ∧
    Z.of_nat (length (ASTCompiler.data ir)) ≤ max_reg ∧
    CompiledProgram.data cp =
      ASTCompiler.data ir ++
      replicate (Z.to_nat (max_reg - Z.of_nat (length (ASTCompiler.data ir)) + 1)) 0 ∧
    (∀ isn r, isn ∈ CompiledProgram.program cp → r ∈ inputs isn →
              0 ≤ r ≤ max_reg) ∧
    (∀ c r, CompiledProgram.exits cp !! c = Some r →
            Z.of_nat (length (ASTCompiler.data ir)) ≤ r ≤ max_reg) ∧
    ((∃ c, CompiledProgram.exits cp !! c = Some max_reg) ∨
     (∃ isn, isn ∈ CompiledProgram.program cp ∧ max_reg ∈ inputs isn)).
Proof.
  intros H.
  apply compile_run in H
    as (ir & sched & in_max & out_max & Hir & Hpos & Hphys & Hres & Hin & Hout
        & _ & Hprog & Hexits & Hdata).
  destruct Hphys as (_ & Hexit_low & Hplaced).
  apply operand_maximum in Hin as (Hin0 & Hin_le & Hin_mem).
  apply exit_maximum in Hout as ((c0 & o0 & Hc0) & Hout_le).
  pose proof (Hexit_low _ _ _ Hc0) as Hlow0. rewrite Hres in Hlow0.
  exists ir, (Z.max in_max out_max).
  split; [exact Hir |]. split; [exact Hpos |]. split; [lia |].
  split; [exact Hdata |]. rewrite Hprog, Hexits. split; [| split].
  - intros isn r Hisn Hr. split.
    + apply (Hplaced isn Hisn). exact Hr.
    + pose proof (Hin_le isn r Hisn Hr). lia.
  - intros c r Hc. rewrite lookup_fmap in Hc.
    destruct (Scheduler.exits sched !! c) as [[o rm] |] eqn:Hlook; [| discriminate].
    injection Hc as <-. simpl.
    pose proof (Hexit_low _ _ _ Hlook) as Hlow. rewrite Hres in Hlow.
    pose proof (Hout_le _ _ _ Hlook). lia.
  - destruct (Z.max_spec in_max out_max) as [[Hlt Hmax] | [Hge Hmax]].
    + left. exists c0. rewrite lookup_fmap, Hc0. simpl. f_equal. lia.
    + destruct Hin_mem as [Hzero | (isn & Hisn & Hmem)]; [lia |].
      right. exists isn. split; [exact Hisn |]. rewrite Hmax. exact Hmem.
Qed.

End CompiledData.

(** X13.  The data image of a compiled program is the builder's Data Table
    followed by at least one zero: one slot for every register up to the
    highest one the schedule names, and none beyond.  Every operand of a
    scheduled instruction is a slot of the image, every Exit Map register
    is a slot above the Data Table, and the last slot is named by an
    operand or by an Exit Map entry. *)
Theorem compile_data_image (fuel : nat) (processor : Processor.t)
    (arg : string) (body : list stmt) (cp : CompiledProgram.t) :
  compile fuel processor arg body = Some (Ok cp) →
  let size := Z.of_nat (length (CompiledProgram.data cp)) in
  ∃ ir scratch,
    build_ir arg body = Ok ir ∧
    (0 < scratch)%nat ∧
    CompiledProgram.data cp = ASTCompiler.data ir ++ replicate scratch 0 ∧
    (∀ isn r, isn ∈ CompiledProgram.program cp → r ∈ inputs isn →
              0 ≤ r < size) ∧
    (∀ c r, CompiledProgram.exits cp !! c = Some r →
            Z.of_nat (length (ASTCompiler.data ir)) ≤ r < size) ∧
    ((∃ c, CompiledProgram.exits cp !! c = Some (size - 1)) ∨
     (∃ isn, isn ∈ CompiledProgram.program cp ∧ size - 1 ∈ inputs isn)).
Proof.
  intros H size.
  apply compile_registers in H
    as (ir & max_reg & Hir & Hpos & Hmax & Hdata & Hops & Hexits & Htop).
  set (n := Z.of_nat (length (ASTCompiler.data ir))) in *.
  assert (Hsize : size = max_reg + 1).
  { unfold size. rewrite Hdata, length_app, length_replicate. fold n. lia. }
  exists ir, (Z.to_nat (max_reg - n + 1)).
  split; [exact Hir |]. split; [lia |]. split; [exact Hdata |].
  split; [| split].
  - intros isn r Hisn Hr. pose proof (Hops isn r Hisn Hr). lia.
  - intros c r Hc. pose proof (Hexits c r Hc). lia.
  - replace (size - 1) with max_reg by lia. exact Htop.
Qed.

(** [simple_test]: the Data Table [5; 3; 4] is followed by two scratch
    slots, registers 3 and 4. *)
Lemma compile_data_image_witness :
  ∃ cp, compile 10 default_processor "x" simple_test = Some (Ok cp) ∧
        CompiledProgram.data cp = [5; 3; 4; 0; 0] ∧
        ∃ ir scratch,
          build_ir "x" simple_test = Ok ir ∧
          (0 < scratch)%nat ∧
          CompiledProgram.data cp = ASTCompiler.data ir ++ replicate scratch 0 ∧
          (∀ isn r, isn ∈ CompiledProgram.program cp → r ∈ inputs isn →
                    0 ≤ r < Z.of_nat (length (CompiledProgram.data cp))) ∧
          (∀ c r, CompiledProgram.exits cp !! c = Some r →
                  Z.of_nat (length (ASTCompiler.data ir)) ≤ r
                  < Z.of_nat (length (CompiledProgram.data cp))).
Proof.
  destruct (compile 10 default_processor "x" simple_test) as [[cp | e] |] eqn:Hrun;
    try (vm_compute in Hrun; discriminate Hrun).
  destruct (compile_data_image _ _ _ _ _ Hrun)
    as (ir & scratch & Hir & Hpos & Hdata & Hops & Hexits & _).
  exists cp. split; [reflexivity |]. split.
  - vm_compute in Hrun. injection Hrun as <-. reflexivity.
  - exists ir, scratch. auto.
Defined.

(** * Encoding a compiled program *)

Section BuilderImmediates.

Import ASTCompiler.

Lemma emit_expr_no_immediate e s r s' :
  emit_expr e s = Ok (r, s') →
  Forall no_immediate (program s) → Forall no_immediate (program s').
Proof.
  revert s r s'. induction e as [l IHl op rr IHr | n | id | | |];
    intros s r s' H Hs; simpl in H; try discriminate.
  - bind_case_as H El. destruct a as [lhs s1].
    bind_case_as H Er. destruct a as [rhs s2].
    bind_case_as H Hop. injection H as <- <-. simpl.
    apply Forall_app. split; [eapply IHr; [exact Er |]; eapply IHl; eassumption |].
    constructor; [reflexivity | constructor].
  - destruct (constants s !! n); injection H as <- <-; exact Hs.
  - destruct (names s !! id); [| discriminate]. injection H as <- <-. exact Hs.
Qed.

Lemma emit_no_immediate node s s' :
  emit node s = Ok s' →
  Forall no_immediate (program s) → Forall no_immediate (program s').
Proof.
  intros H Hs. destruct node as [targets value | [value |] | names | | | | |];
    simpl in H; try discriminate.
  - bind_case_as H Hv. destruct a as [output s1].
    rewrite (bind_targets_program _ _ _ _ H).
    eapply emit_expr_no_immediate; eassumption.
  - bind_case_as H Hv. destruct a as [v s1]. injection H as <-. simpl.
    apply Forall_app. split; [eapply emit_expr_no_immediate; eassumption |].
    constructor; [reflexivity | constructor].
  - injection H as <-. exact Hs.
Qed.

Lemma emit_body_no_immediate body s s' :
  emit_body body s = Ok s' →
  Forall no_immediate (program s) → Forall no_immediate (program s').
Proof.
  revert s. induction body as [| node body IH]; intros s H Hs; simpl in H.
  - injection H as <-. exact Hs.
  - bind_case_as H He. apply (emit_no_immediate _ _ _ He) in Hs.
    destruct (is_return node).
    + injection H as <-. exact Hs.
    + eapply IH; eassumption.
Qed.

Lemma build_ir_no_immediate arg body ir :
  build_ir arg body = Ok ir → Forall no_immediate (program ir).
Proof.
  unfold build_ir. intros H. eapply emit_body_no_immediate; [exact H |].
  unfold input. simpl.
  destruct (declare_globals_frame body init) as (-> & _ & _). simpl.
  constructor; [reflexivity | constructor].
Qed.

End BuilderImmediates.

Section ScheduledImmediates.

Import Scheduler.

(** A placement copies [immediate] from the instruction it places. *)
Lemma schedule_no_immediate fuel p reserved prog final :
  Forall no_immediate prog →
  schedule fuel (init p reserved prog) = Some (Ok final) →
  Forall no_immediate (output final).
Proof.
  intros Hprog H. apply schedule_inv in H as (s1 & Hloop & Hpad).
  apply (schedule_loop_invariant
           (fun s => Forall no_immediate (remaining s) ∧
                     Forall no_immediate (output s))) in Hloop as [[_ Hout] _].
  - apply pad_inv in Hpad as (n & -> & _). apply Forall_app. split; [exact Hout |].
    apply Forall_forall. intros x Hx. apply elem_of_replicate in Hx as [-> _].
    reflexivity.
  - intros isn s s' [Hrem Hout] Hisn Hone.
    apply schedule_one_inv in Hone as [[? _] | (_ & m & _ & Hr & Ho & _)];
      [discriminate |].
    split.
    + apply Forall_forall. intros x Hx.
      apply (proj1 (Forall_forall _ _) Hrem). eapply list_remove_subset; eassumption.
    + rewrite Ho. apply Forall_app. split; [exact Hout |].
      constructor; [| constructor]. unfold no_immediate. simpl.
      apply (proj1 (Forall_forall _ _) Hrem). exact Hisn.
  - intros s [Hrem Hout]. split; [exact Hrem |]. simpl.
    apply Forall_app. split; [exact Hout |]. constructor; [reflexivity | constructor].
  - split; [exact Hprog | constructor].
Qed.

End ScheduledImmediates.

Section EncodedWords.

(** [bit_length] gives a width that holds its argument, and no more. *)
Lemma bit_length_bound m :
  0 ≤ m → 0 ≤ bit_length m ∧ m < 2 ^ bit_length m.
Proof.
  intros Hm. unfold bit_length. case_decide as Hz.
  - subst m. simpl. lia.
  - rewrite Z.abs_eq by lia.
    pose proof (Z.log2_nonneg m). pose proof (Z.log2_spec m ltac:(lia)) as [_ Hup].
    replace (Z.succ (Z.log2 m)) with (Z.log2 m + 1) in Hup by lia. lia.
Qed.

Lemma bit_length_tight m :
  0 < m → 1 ≤ bit_length m ∧ 2 ^ (bit_length m - 1) ≤ m.
Proof.
  intros Hm. unfold bit_length. case_decide as Hz; [lia |].
  rewrite Z.abs_eq by lia.
  pose proof (Z.log2_nonneg m). pose proof (Z.log2_spec m Hm) as [Hlow _].
  replace (Z.log2 m + 1 - 1) with (Z.log2 m) by lia. lia.
Qed.

(** One word: the encoder succeeds when the three register fields fit
    [rb] bits, the word fits [3 * rb + 3] bits and the slices of the
    decoder return the fields. *)
Lemma encode_instruction_fields p isn exit rb :
  Processor.reg_bits p = Some rb → Processor.opcode_bits p = 3 → 0 ≤ rb →
  0 ≤ field_r0 isn < 2 ^ rb → 0 ≤ field_r1 isn < 2 ^ rb → 0 ≤ exit < 2 ^ rb →
  ∃ w, Processor.encode_instruction p isn exit = Ok w ∧
       0 ≤ w < 2 ^ (3 * rb + 3) ∧
       decode_opcode 3 rb w = opcode (cls isn) ∧
       decode_r0 3 rb w = field_r0 isn ∧
       decode_r1 3 rb w = field_r1 isn ∧
       decode_exit 3 rb w = exit.
Proof.
  intros Hrb Hob Hnn H0 H1 He.
  rewrite (encode_instruction_unfold p isn exit rb Hrb Hnn) by lia.
  rewrite Hob. eexists. split; [reflexivity |].
  assert (Hop : 0 ≤ opcode (cls isn) < 2 ^ 3) by (destruct (cls isn); simpl; lia).
  assert (Hpow : 0 < 2 ^ rb) by (apply Z.pow_pos_nonneg; lia).
  rewrite Z.shiftl_0_l, Z.lor_0_l.
  rewrite !lor_shiftl_small by lia.
  set (hi1 := exit * 2 ^ rb + field_r1 isn).
  set (hi0 := hi1 * 2 ^ rb + field_r0 isn).
  assert (Hhi1 : 0 ≤ hi1 < 2 ^ rb * 2 ^ rb) by (unfold hi1; nia).
  assert (Hhi0 : 0 ≤ hi0 < 2 ^ rb * 2 ^ rb * 2 ^ rb) by (unfold hi0; nia).
  split; [| unfold decode_opcode, decode_r0, decode_r1, decode_exit; repeat split].
  - replace (3 * rb + 3) with (rb + rb + rb + 3) by lia.
    rewrite !Z.pow_add_r by lia. nia.
  - apply slice_low; lia.
  - rewrite slice_above_0 by lia. apply slice_low; lia.
  - rewrite slice_above by lia. unfold hi0.
    rewrite slice_above_0 by lia. apply slice_low; lia.
  - rewrite <- Z.add_assoc, slice_above by lia. unfold hi0.
    rewrite slice_above by lia. unfold hi1.
    rewrite slice_above_0 by lia. apply slice_small; lia.
Qed.

(** The loop of [encode] returns one word per instruction when every
    instruction encodes. *)
Lemma encode_from_total cp k prog :
  (∀ i isn, prog !! i = Some isn →
     ∃ w, Processor.encode_instruction (CompiledProgram.processor cp) isn
            (default 0 (CompiledProgram.exits cp !! (k + i)%nat)) = Ok w) →
  ∃ ws, CompiledProgram.encode_from cp k prog = Ok ws ∧ length ws = length prog.
Proof.
  revert k. induction prog as [| x prog IH]; intros k Hall; simpl.
  - exists []. auto.
  - destruct (Hall 0%nat x eq_refl) as [w Hw]. rewrite Nat.add_0_r in Hw.
    rewrite Hw. simpl.
    destruct (IH (S k)) as (ws & Hws & Hlen).
    { intros i isn Hi. replace (S k + i)%nat with (k + S i)%nat by lia.
      apply Hall. exact Hi. }
    rewrite Hws. simpl. exists (w :: ws). simpl. auto.
Qed.

Lemma input_or_zero_bound isn k size :
  0 < size → (∀ r, r ∈ inputs isn → 0 ≤ r < size) →
  0 ≤ Processor.input_or_zero isn k < size.
Proof.
  intros Hs Hall. unfold Processor.input_or_zero.
  destruct (inputs isn !! k) as [r |] eqn:Hk; [| lia].
  apply Hall. eapply list_elem_of_lookup_2. exact Hk.
Qed.

End EncodedWords.

Section CompiledWords.

(** A compiled program holds no immediate. *)
Lemma compile_no_immediate fuel processor arg body cp :
  compile fuel processor arg body = Some (Ok cp) →
  CompiledProgram.processor cp = processor ∧
  Forall no_immediate (CompiledProgram.program cp).
Proof.
  intros H.
  apply compile_inv in H as (ir & sched & in_max & out_max & Hir & Hs & _ & _ & ->).
  simpl. split; [reflexivity |].
  eapply schedule_no_immediate; [| exact Hs].
  eapply build_ir_no_immediate. exact Hir.
Qed.

End CompiledWords.

(** X14.  A compiled program always fits the encoding.  Once
    [dimension_memories] has sized the memories, [reg_bits] is the least
    width that holds every index of the data image, [encode] succeeds with
    one word per cycle, every word fits [instruction_bits] bits, and the
    slices of the decoder return the opcode, the first two operands (0 for
    an absent one) and the register retiring on that cycle (0 for none). *)
Theorem compiled_program_encodes (fuel : nat) (processor : Processor.t)
    (arg : string) (body : list stmt) (cp : CompiledProgram.t) :
  compile fuel processor arg body = Some (Ok cp) →
  Processor.opcode_bits processor = 3 →
  let cp' := CompiledProgram.dimension_memories cp in
  let size := Z.of_nat (length (CompiledProgram.data cp)) in
  ∃ rb ws,
    Processor.reg_bits (CompiledProgram.processor cp') = Some rb ∧
    1 ≤ rb ∧ 2 ^ (rb - 1) < size ≤ 2 ^ rb ∧
    Processor.instruction_bits (CompiledProgram.processor cp') = Ok (3 * rb + 3) ∧
    CompiledProgram.encode cp' = Ok ws ∧
    length ws = length (CompiledProgram.program cp) ∧
    ∀ i isn, CompiledProgram.program cp !! i = Some isn →
      ∃ w, ws !! i = Some w ∧
           0 ≤ w < 2 ^ (3 * rb + 3) ∧
           decode_opcode 3 rb w = opcode (cls isn) ∧
           decode_r0 3 rb w = Processor.input_or_zero isn 0 ∧
           decode_r1 3 rb w = Processor.input_or_zero isn 1 ∧
           decode_exit 3 rb w = default 0 (CompiledProgram.exits cp !! i).
Proof.
  intros H Hob cp' size.
  destruct (compile_no_immediate _ _ _ _ _ H) as [Hproc Himm].
  apply compile_registers in H
    as (ir & max_reg & _ & Hpos & Hmax & Hdata & Hops & Hexits & _).
  assert (Hsize : size = max_reg + 1).
  { unfold size. rewrite Hdata, length_app, length_replicate. lia. }
  set (rb := bit_length (size - 1)).
  destruct (bit_length_bound (size - 1) ltac:(lia)) as [_ Hup].
  destruct (bit_length_tight (size - 1) ltac:(lia)) as [Hrb1 Hlow].
  fold rb in Hup, Hrb1, Hlow.
  assert (Hfields : ∀ i isn, CompiledProgram.program cp !! i = Some isn →
            0 ≤ field_r0 isn < 2 ^ rb ∧ 0 ≤ field_r1 isn < 2 ^ rb ∧
            field_r0 isn = Processor.input_or_zero isn 0 ∧
            field_r1 isn = Processor.input_or_zero isn 1 ∧
            0 ≤ default 0 (CompiledProgram.exits cp !! i) < 2 ^ rb).
  { intros i isn Hi.
    assert (Hin : isn ∈ CompiledProgram.program cp)
      by (eapply list_elem_of_lookup_2; exact Hi).
    pose proof (proj1 (Forall_forall _ _) Himm isn Hin) as Hnone.
    unfold no_immediate in Hnone. unfold field_r0, field_r1. rewrite Hnone.
    assert (Hb : ∀ r, r ∈ inputs isn → 0 ≤ r < size).
    { intros r Hr. pose proof (Hops isn r Hin Hr). lia. }
    pose proof (input_or_zero_bound isn 0 size ltac:(lia) Hb).
    pose proof (input_or_zero_bound isn 1 size ltac:(lia) Hb).
    repeat split; try lia.
    - destruct (CompiledProgram.exits cp !! i) as [r |] eqn:Hr; simpl; [| lia].
      pose proof (Hexits i r Hr). lia.
    - destruct (CompiledProgram.exits cp !! i) as [r |] eqn:Hr; simpl; [| lia].
      pose proof (Hexits i r Hr). lia. }
  assert (Hword : ∀ i isn, CompiledProgram.program cp !! i = Some isn →
            ∃ w, Processor.encode_instruction (CompiledProgram.processor cp') isn
                   (default 0 (CompiledProgram.exits cp !! i)) = Ok w ∧
                 0 ≤ w < 2 ^ (3 * rb + 3) ∧
                 decode_opcode 3 rb w = opcode (cls isn) ∧
                 decode_r0 3 rb w = Processor.input_or_zero isn 0 ∧
                 decode_r1 3 rb w = Processor.input_or_zero isn 1 ∧
                 decode_exit 3 rb w = default 0 (CompiledProgram.exits cp !! i)).
  { intros i isn Hi. destruct (Hfields i isn Hi) as (H0 & H1 & E0 & E1 & He).
    rewrite <- E0, <- E1.
    apply encode_instruction_fields; try assumption; try lia.
    - reflexivity.
    - simpl. rewrite Hproc. exact Hob. }
  destruct (encode_from_total cp' 0 (CompiledProgram.program cp)) as (ws & Hws & Hlen).
  { intros i isn Hi. destruct (Hword i isn Hi) as (w & Hw & _). exists w. exact Hw. }
  exists rb, ws. split; [reflexivity |]. split; [exact Hrb1 |]. split; [lia |].
  split; [| split; [exact Hws | split; [exact Hlen |]]].
  - unfold Processor.instruction_bits. simpl. rewrite Hproc, Hob. reflexivity.
  - intros i isn Hi.
    destruct (encode_from_lookup cp' 0 _ ws i isn Hws Hi) as (w & Hl & He).
    destruct (Hword i isn Hi) as (w' & Hw' & Hrest).
    simpl in He. simpl in Hw'. rewrite Hw' in He. injection He as <-.
    exists w'. split; [exact Hl | exact Hrest].
Qed.

(** [simple_test] on the default processor: five data slots, three-bit
    register fields, nine twelve-bit words. *)
Lemma compiled_program_encodes_witness :
  ∃ cp ws,
    compile 10 default_processor "x" simple_test = Some (Ok cp) ∧
    Processor.opcode_bits default_processor = 3 ∧
    Processor.reg_bits
      (CompiledProgram.processor (CompiledProgram.dimension_memories cp)) = Some 3 ∧
    CompiledProgram.encode (CompiledProgram.dimension_memories cp) = Ok ws ∧
    length ws = 9%nat ∧
    ∀ i isn, CompiledProgram.program cp !! i = Some isn →
      ∃ w, ws !! i = Some w ∧
           0 ≤ w < 2 ^ 12 ∧
           decode_opcode 3 3 w = opcode (cls isn) ∧
           decode_r0 3 3 w = Processor.input_or_zero isn 0 ∧
           decode_r1 3 3 w = Processor.input_or_zero isn 1 ∧
           decode_exit 3 3 w = default 0 (CompiledProgram.exits cp !! i).
Proof.
  destruct (compile 10 default_processor "x" simple_test) as [[cp | e] |] eqn:Hrun;
    try (vm_compute in Hrun; discriminate Hrun).
  destruct (compiled_program_encodes _ _ _ _ _ Hrun eq_refl)
    as (rb & ws & Hrb & _ & _ & _ & Hws & Hlen & Hall).
  assert (Hcp : CompiledProgram.data cp = [5; 3; 4; 0; 0] ∧
                length (CompiledProgram.program cp) = 9%nat).
  { vm_compute in Hrun. injection Hrun as <-. split; reflexivity. }
  destruct Hcp as [Hdata Hprog].
  assert (Hrb3 : rb = 3).
  { simpl in Hrb. rewrite Hdata in Hrb. vm_compute in Hrb.
    injection Hrb as <-. reflexivity. }
  subst rb. exists cp, ws.
  split; [reflexivity |]. split; [reflexivity |]. split; [exact Hrb |].
  split; [exact Hws |]. split; [rewrite Hlen; exact Hprog | exact Hall].
Defined.

(** * When [compile] returns a program *)

Section CompileReturns.

(** The two maxima that size the data image exist for every schedule of a
    program that opens with the input instruction. *)
Lemma maxima_exist fuel p n o rest final :
  0 ≤ n →
  Scheduler.schedule fuel
    (Scheduler.init p n (mkIsn InputIsn None [] [o] :: rest)) = Some (Ok final) →
  ∃ in_max out_max,
    py_max ((fun isn => foldl Z.max 0 (inputs isn ++ [0]))
              <$> Scheduler.output final) = Ok in_max ∧
    py_max ((fun kv => snd (snd kv)) <$> map_to_list (Scheduler.exits final))
      = Ok out_max.
Proof.
  intros Hn Hs. apply schedule_inv in Hs as (s1 & Hloop & Hpad).
  apply input_placed_first in Hloop as (_ & Ho & He); [| exact Hn].
  apply pad_inv in Hpad as (k & Hout & Hex & _).
  destruct (py_max_spec ((fun isn => foldl Z.max 0 (inputs isn ++ [0]))
                           <$> Scheduler.output final)) as (in_max & Hin & _).
  { rewrite Hout. destruct (Scheduler.output s1); [discriminate Ho | discriminate]. }
  destruct (py_max_spec ((fun kv => snd (snd kv))
                           <$> map_to_list (Scheduler.exits final)))
    as (out_max & Hom & _).
  { rewrite Hex. intros Hnil. apply fmap_nil_inv in Hnil.
    apply map_to_list_empty_iff in Hnil. rewrite Hnil in He.
    rewrite lookup_empty in He. discriminate He. }
  eauto.
Qed.

End CompileReturns.

(** X15.  With enough iterations for the scheduling loop, [compile]
    returns a program exactly when the builder returns an IR whose Data
    Table is not empty: neither the scheduler nor the sizing of the data
    image fails on a builder IR with at least one global or literal. *)
Theorem compile_returns (fuel : nat) (processor : Processor.t)
    (arg : string) (body : list stmt) (ir : ASTCompiler.t) :
  build_ir arg body = Ok ir →
  (enough_fuel (Scheduler.init processor (Z.of_nat (length (ASTCompiler.data ir)))
                  (ASTCompiler.program ir)) 0 ≤ fuel)%nat →
  (∃ cp, compile fuel processor arg body = Some (Ok cp)) ↔ ASTCompiler.data ir ≠ [].
Proof.
  intros Hir Hfuel. split.
  - intros [cp Hcp].
    apply compile_run in Hcp as (ir' & _ & _ & _ & Hir' & Hpos & _).
    rewrite Hir in Hir'. injection Hir' as <-.
    intros Hnil. rewrite Hnil in Hpos. simpl in Hpos. lia.
  - intros Hdata.
    pose proof (build_ir_ssa _ _ _ Hir) as (_ & _ & _ & _ & _ & Hd).
    destruct (build_ir_head _ _ _ Hir) as [rest Hprog].
    destruct (schedule_succeeds processor (Z.of_nat (length (ASTCompiler.data ir)))
                (ASTCompiler.program ir) fuel) as (final & Hs & _).
    + exact Hd.
    + eapply build_ir_shaped. exact Hir.
    + rewrite Hprog. discriminate.
    + destruct (ASTCompiler.data ir); [contradiction | simpl; lia].
    + exact Hfuel.
    + pose proof Hs as Hs'. rewrite Hprog in Hs'.
      apply maxima_exist in Hs' as (in_max & out_max & Hin & Hout); [| lia].
      unfold compile. rewrite Hir, Hs. simpl. rewrite Hin. simpl. rewrite Hout.
      simpl. eauto.
Qed.

(** [simple_test] has three literals, and 21 iterations are enough. *)
Lemma compile_returns_witness :
  ∃ ir cp, build_ir "x" simple_test = Ok ir ∧
           ASTCompiler.data ir = [5; 3; 4] ∧
           compile 21 default_processor "x" simple_test = Some (Ok cp).
Proof.
  destruct (build_ir "x" simple_test) as [ir | e] eqn:Hir;
    [| vm_compute in Hir; discriminate Hir].
  assert (Hd : ASTCompiler.data ir = [5; 3; 4] ∧
               ASTCompiler.program ir = simple_test_ir).
  { vm_compute in Hir. injection Hir as <-. split; reflexivity. }
  destruct Hd as [Hd Hp].
  destruct (proj2 (compile_returns 21 default_processor "x" simple_test ir Hir
                     ltac:(rewrite Hd, Hp; vm_compute; lia))
                  ltac:(rewrite Hd; discriminate)) as [cp Hcp].
  exists ir, cp. split; [reflexivity |]. split; [exact Hd | exact Hcp].
Defined.

(** * Layout of the Data Table *)

Section DataLayout.

Import ASTCompiler.









End DataLayout.


